(** * translator-ai: the translation pipeline of [src/index.ts]

    A shallow embedding of the caching, de-duplicating, batching translation
    pipeline ([processSingleFile], [processMultipleFiles], [translateBatch],
    [loadCache], [saveCache]) and of the response validation of
    [src/translators/base.ts], with the properties the specification states
    about them.

    Conventions.
    - JS strings are [string]s (sequences of code units below 256).
    - A JS object used as a dictionary (the translation cache) is the
      [gmap] of its own properties, which are what [JSON.parse] makes and
      [JSON.stringify] writes; where the code reads or tests a property
      without asking for an own one, the names inherited from
      [Object.prototype] are told apart ([Store.inherited]).  A run starts
      with the built-in objects as the language defines them.  A JS [Map]
      used as a table is a [gmap] too; a JS [Set] or [Map] whose insertion
      order is observable (the order decides which string lands in which
      batch) is a duplicate-free list in insertion order.
    - Array sizes are [nat]; [Math.ceil(a / b)] is exact integer ceiling
      division for every size that fits an array. *)

From Stdlib Require Import ZArith List Lia Bool Ascii String.
From stdpp Require Import base option list strings gmap fin_maps.

Set Warnings "-register-all,-abstract-large-number".

Local Open Scope string_scope.
Local Open Scope nat_scope.

(** ** JavaScript strings *)

Module JsString.

Definition code (c : ascii) : nat := nat_of_ascii c.

(** [s.startsWith(c)] and [s.endsWith(c)] for a one-character [c]. *)
Definition startsWith (c : ascii) (s : string) : bool :=
  match s with
  | String c' _ => bool_decide (c' = c)
  | EmptyString => false
  end.

Fixpoint endsWith (c : ascii) (s : string) : bool :=
  match s with
  | EmptyString => false
  | String c' EmptyString => bool_decide (c' = c)
  | String _ rest => endsWith c rest
  end.

(** [text.startsWith(needle)] *)
Fixpoint isPrefix (needle text : string) : bool :=
  match needle, text with
  | EmptyString, _ => true
  | String a needle', String b text' =>
      bool_decide (a = b) && isPrefix needle' text'
  | String _ _, EmptyString => false
  end.

(** [s.slice(0, -1)] on strings. *)
Fixpoint dropLast (s : string) : string :=
  match s with
  | EmptyString => EmptyString
  | String _ EmptyString => EmptyString
  | String c rest => String c (dropLast rest)
  end.

(** [s.slice(1, -1)]. *)
Definition slice_1_m1 (s : string) : string :=
  match s with
  | EmptyString => EmptyString
  | String _ rest => dropLast rest
  end.

(** [s.includes(c)] for a one-character [c]. *)
Fixpoint includes (c : ascii) (s : string) : bool :=
  match s with
  | EmptyString => false
  | String c' rest => bool_decide (c' = c) || includes c rest
  end.

(** [s.replace(/X/g, y)] for a one-character pattern and replacement. *)
Fixpoint replaceChar (x y : ascii) (s : string) : string :=
  match s with
  | EmptyString => EmptyString
  | String c rest =>
      String (if bool_decide (c = x) then y else c) (replaceChar x y rest)
  end.

(** [parts.join(sep)]. *)
Definition join (sep : string) (parts : list string) : string :=
  String.concat sep parts.

(** White space and line terminators of ECMAScript among the code units
    below 256: TAB, LF, VT, FF, CR, SP and NBSP. *)
Definition isWhiteSpace (c : ascii) : bool :=
  bool_decide (code c ∈ [9; 10; 11; 12; 13; 32; 160]).

Fixpoint trimStart (s : string) : string :=
  match s with
  | String c rest => if isWhiteSpace c then trimStart rest else s
  | EmptyString => EmptyString
  end.

(** [s.trim() === ''] holds exactly when every character is white space. *)
Fixpoint isBlank (s : string) : bool :=
  match s with
  | EmptyString => true
  | String c rest => isWhiteSpace c && isBlank rest
  end.

(** Truthiness of a string value: [if (s)]. *)
Definition truthy (s : string) : bool := negb (bool_decide (s = "")).

(** The value of a digit in radix 10 or 16. *)
Definition digitValue (radix : N) (c : ascii) : option N :=
  let n := N.of_nat (code c) in
  let v :=
    if (48 <=? n)%N && (n <=? 57)%N then Some (n - 48)%N
    else if (97 <=? n)%N && (n <=? 102)%N then Some (n - 87)%N
    else if (65 <=? n)%N && (n <=? 70)%N then Some (n - 55)%N
    else None in
  match v with
  | Some d => if (d <? radix)%N then Some d else None
  | None => None
  end.

(** The longest prefix of radix-[radix] digits of [s], accumulated onto
    [acc]; the flag tells whether at least one digit was read. *)
Fixpoint parseDigits (radix : N) (seen : bool) (acc : N) (s : string)
  : bool * N :=
  match s with
  | EmptyString => (seen, acc)
  | String c rest =>
      match digitValue radix c with
      | Some d => parseDigits radix true (acc * radix + d)%N rest
      | None => (seen, acc)
      end
  end.

(** [parseInt(s)] without a radix argument: leading white space is
    skipped, a sign is read, a [0x]/[0X] prefix selects radix 16, and the
    longest digit prefix is the result; [None] is [NaN].  The result is the
    exact integer (JS rounds it to a double above 2^53). *)
Definition parseInt (s : string) : option Z :=
  let s1 := trimStart s in
  let '(neg, s2) :=
    match s1 with
    | String "-" rest => (true, rest)
    | String "+" rest => (false, rest)
    | _ => (false, s1)
    end in
  let '(radix, s3) :=
    match s2 with
    | String "0" (String "x" rest) => (16%N, rest)
    | String "0" (String "X" rest) => (16%N, rest)
    | _ => (10%N, s2)
    end in
  match parseDigits radix false 0 s3 with
  | (true, n) => Some (if neg then (- Z.of_N n)%Z else Z.of_N n)
  | (false, _) => None
  end.

(** Decimal digits of a number, most significant first; [fuel] bounds the
    number of digits. *)
Fixpoint digitsOf (fuel : nat) (n : N) (acc : string) : string :=
  match fuel with
  | 0 => acc
  | S fuel' =>
      let acc' := String (ascii_of_N (48 + n mod 10)) acc in
      if (n <? 10)%N then acc' else digitsOf fuel' (n / 10)%N acc'
  end.

Definition nToString (n : N) : string :=
  digitsOf (S (N.to_nat (N.log2 n))) n "".

(** [String(n)] for a non-negative integer: the template [`${index}`]. *)
Definition natToString (n : nat) : string := nToString (N.of_nat n).

(** [String(x)] for the result of [parseInt], used when a number is a
    property key; exact below 10^21, where JS prints plain digits. *)
Definition numberToString (x : option Z) : string :=
  match x with
  | None => "NaN"
  | Some z =>
      if (z <? 0)%Z then "-" ++ nToString (Z.to_N (- z))
      else nToString (Z.to_N z)
  end.

(** The largest array index is 2^32 - 2. *)
Definition indexLimit : N := 4294967295.

(** An array index: [s] is [String(i)] for some [i] below 2^32 - 1. *)
Definition arrayIndex (s : string) : option nat :=
  match parseDigits 10 false 0 s with
  | (true, n) =>
      if bool_decide (nToString n = s) && (n <? indexLimit)%N
      then Some (N.to_nat n)
      else None
  | _ => None
  end.

End JsString.

(** ** BatchScheduler *)

Module Batch.

(** [const MAX_BATCH_SIZE = 100;] *)
Definition MAX_BATCH_SIZE : nat := 100.

(** [Math.ceil(a / b)] on sizes. *)
Definition ceil_div (a b : nat) : nat := (a + b - 1) / b.

(** [arr.slice(i, j)]: the elements at positions [i .. j-1] that exist. *)
Definition slice {A} (arr : list A) (i j : nat) : list A :=
  take (j - i) (drop i arr).

(** The loop of [processSingleFile]:
    [for (let i = 0; i < totalStrings; i += dynamicBatchSize)
       batches.push(stringsArray.slice(i, i + dynamicBatchSize));]
    One unit of [fuel] is one test of the loop condition. *)
Fixpoint slice_loop {A} (fuel : nat) (arr : list A) (i step : nat)
  : list (list A) :=
  match fuel with
  | 0 => []
  | S fuel' =>
      if decide (i < length arr)
      then slice arr i (i + step) :: slice_loop fuel' arr (i + step) step
      else []
  end.

(** Step 3 of [processSingleFile], inside [if (stringsToTranslateAPI.size > 0)]. *)
Definition numBatches {A} (stringsArray : list A) : nat :=
  ceil_div (length stringsArray) MAX_BATCH_SIZE.

Definition dynamicBatchSize {A} (stringsArray : list A) : nat :=
  ceil_div (length stringsArray) (numBatches stringsArray).

Definition singleFileBatches {A} (stringsArray : list A) : list (list A) :=
  if decide (0 < length stringsArray)
  then slice_loop (S (length stringsArray)) stringsArray 0
         (dynamicBatchSize stringsArray)
  else [].

(** Step 4 of [processMultipleFiles]:
    [for (let i = 0; i < numBatches; i++) {
       const batchStart = i * MAX_BATCH_SIZE;
       const batchEnd = Math.min(batchStart + MAX_BATCH_SIZE, stringsArray.length);
       const batchStrings = stringsArray.slice(batchStart, batchEnd); ... }] *)
Definition multiFileBatch {A} (stringsArray : list A) (i : nat) : list A :=
  let batchStart := i * MAX_BATCH_SIZE in
  let batchEnd := Nat.min (batchStart + MAX_BATCH_SIZE) (length stringsArray) in
  slice stringsArray batchStart batchEnd.

Definition multiFileBatches {A} (stringsArray : list A) : list (list A) :=
  if decide (0 < length stringsArray)
  then map (multiFileBatch stringsArray) (seq 0 (numBatches stringsArray))
  else [].

(** The sizes of the batches [slice_loop] makes of an array of [len]
    elements. *)
Fixpoint sizes_loop (fuel len i step : nat) : list nat :=
  match fuel with
  | 0 => []
  | S fuel' =>
      if decide (i < len)
      then Nat.min step (len - i) :: sizes_loop fuel' len (i + step) step
      else []
  end.

(** [stats.targetBatchSize] as the multi-file path reports it. *)
Definition multiFileTargetBatchSize {A} (stringsArray : list A) : nat :=
  Nat.min MAX_BATCH_SIZE
    (ceil_div (length stringsArray) (numBatches stringsArray)).

End Batch.

(** ** Insertion-ordered collections: JS [Set] and [Map] *)

Module JsColl.

(** [set.add(x)]: a new element goes last, a present one changes nothing. *)
Definition set_add (s : list string) (x : string) : list string :=
  if decide (x ∈ s) then s else s ++ [x].

(** [new Set(iterable)]. *)
Definition set_of (xs : list string) : list string :=
  foldl set_add [] xs.

Section Map.
Context {V : Type}.

(** [map.get(k)]; [None] is [undefined], and [map.has(k)] is [is_Some]. *)
Fixpoint map_get (m : list (string * V)) (k : string) : option V :=
  match m with
  | [] => None
  | (k', v) :: rest => if decide (k' = k) then Some v else map_get rest k
  end.

(** [map.set(k, v)]: a present key keeps its position, a new one goes last. *)
Fixpoint map_set (m : list (string * V)) (k : string) (v : V)
  : list (string * V) :=
  match m with
  | [] => [(k, v)]
  | (k', v') :: rest =>
      if decide (k' = k) then (k', v) :: rest
      else (k', v') :: map_set rest k v
  end.

End Map.

End JsColl.

(** ** Documents *)

Module Json.
Import JsString.

(** A parsed JSON document.  The fields of an object are listed in the
    enumeration order of JS ([for ... in], [JSON.stringify]). *)
Inductive JsonValue : Type :=
| JNull
| JBool (b : bool)
| JNumber (n : Z)
| JString (s : string)
| JArray (items : list JsonValue)
| JObject (fields : list (string * JsonValue)).

(** One step into a container: a property of an object or an element of
    an array. *)
Inductive Access : Type :=
| AProp (k : string)
| AIdx (i : nat).

#[global] Instance Access_eq_dec : EqDecision Access.
Proof. solve_decision. Defined.

Definition child (v : JsonValue) (a : Access) : option JsonValue :=
  match v, a with
  | JObject fields, AProp k => JsColl.map_get fields k
  | JArray items, AIdx i => items !! i
  | _, _ => None
  end.

(** The node of [v] at location [loc]. *)
Fixpoint locate (v : JsonValue) (loc : list Access) : option JsonValue :=
  match loc with
  | [] => Some v
  | a :: loc' =>
      match child v a with
      | Some c => locate c loc'
      | None => None
      end
  end.

(** [obj[k] = x] on an object: an own property keeps its place; a new
    property that is an array index goes among the index keys in numeric
    order, any other new property goes last. *)
Fixpoint insertIndexKey (i : nat) (k : string) (x : JsonValue)
  (fields : list (string * JsonValue)) : list (string * JsonValue) :=
  match fields with
  | [] => [(k, x)]
  | (k', x') :: rest =>
      match arrayIndex k' with
      | Some j =>
          if decide (j < i) then (k', x') :: insertIndexKey i k x rest
          else (k, x) :: fields
      | None => (k, x) :: fields
      end
  end.

Definition objSet (fields : list (string * JsonValue)) (k : string)
  (x : JsonValue) : list (string * JsonValue) :=
  match JsColl.map_get fields k with
  | Some _ => JsColl.map_set fields k x
  | None =>
      match arrayIndex k with
      | Some i => insertIndexKey i k x fields
      | None => fields ++ [(k, x)]
      end
  end.

(** [arr[i] = x] on an array: in range it replaces the element, beyond the
    end it grows the array, the holes reading as [null] once serialised. *)
Definition arrSet (items : list JsonValue) (i : nat) (x : JsonValue)
  : list JsonValue :=
  if decide (i < length items) then <[i := x]> items
  else items ++ replicate (i - length items) JNull ++ [x].

(** Put [x] in the place of the child at [a]. *)
Definition setChild (v : JsonValue) (a : Access) (x : JsonValue) : JsonValue :=
  match v, a with
  | JObject fields, AProp k => JObject (JsColl.map_set fields k x)
  | JArray items, AIdx i => JArray (<[i := x]> items)
  | _, _ => v
  end.

(** The tree [v] with the node at [loc] replaced by [x]. *)
Fixpoint update (v : JsonValue) (loc : list Access) (x : JsonValue)
  : JsonValue :=
  match loc with
  | [] => x
  | a :: loc' =>
      match child v a with
      | Some c => setChild v a (update c loc' x)
      | None => v
      end
  end.

Fixpoint depth (v : JsonValue) : nat :=
  match v with
  | JArray items => S (foldr (λ c d, Nat.max (depth c) d) 0 items)
  | JObject fields => S (foldr (λ kc d, Nat.max (depth kc.2) d) 0 fields)
  | _ => 0
  end.

(** A primitive: it has no children. *)
Definition isLeaf (v : JsonValue) : bool :=
  match v with
  | JArray _ | JObject _ => false
  | _ => true
  end.

(** The depth of the node at [loc], 0 where there is none. *)
Definition depthAt (root : JsonValue) (loc : list Access) : nat :=
  match locate root loc with
  | Some v => depth v
  | None => 0
  end.

(** No node of [root'] is deeper than the node of [root] at the same
    place. *)
Definition noDeeper (root root' : JsonValue) : Prop :=
  ∀ loc, depthAt root' loc ≤ depthAt root loc.

End Json.

(** ** Reconstructor: [applyTranslations] *)

Module Reconstruct.
Import JsString Json.

(** [const PATH_SEPARATOR = '\x00'; const DOT_ESCAPE = '\x01';] *)
Definition PATH_SEPARATOR : string := String (ascii_of_nat 0) EmptyString.
Definition DOT_ESCAPE : ascii := ascii_of_nat 1.

(** [path.map(p => p.replace(/\./g, DOT_ESCAPE)).join(PATH_SEPARATOR)] *)
Definition flatPath (path : list string) : string :=
  join PATH_SEPARATOR (map (replaceChar "." DOT_ESCAPE) path).

(** The path segment of an array element: [`[${index}]`]. *)
Definition indexSegment (i : nat) : string :=
  "[" ++ natToString i ++ "]".

(** How [applyTranslations] reads a path segment back when it walks from
    the root to the parent of a leaf:
    [p.startsWith('[') && p.endsWith(']') ? parseInt(p.slice(1, -1)) : p]. *)
Inductive Key : Type :=
| KNum (n : option Z)
| KStr (p : string).

Definition decode (p : string) : Key :=
  if startsWith "[" p && endsWith "]" p
  then KNum (parseInt (slice_1_m1 p))
  else KStr p.

(** The property name a key denotes on an object. *)
Definition keyName (k : Key) : string :=
  match k with
  | KNum n => numberToString n
  | KStr p => p
  end.

(** The element a key denotes on an array, if it is an array index. *)
Definition keyIndex (k : Key) : option nat :=
  match k with
  | KNum (Some z) =>
      if (0 <=? z)%Z && (z <? Z.of_N indexLimit)%Z then Some (Z.to_nat z)
      else None
  | KNum None => None
  | KStr p => arrayIndex p
  end.

(** The outcome of a step of the rebuild.  [Abort] is a run-time error that
    leaves through [main]'s handler: the walk met [undefined], [null] or a
    primitive where it expected a container.  (Where the missing key names
    a built-in property such as [constructor], JS goes on silently; this
    development counts that as [Abort] too.)  [OutOfFuel] is not a
    behaviour of the program: it marks a run of the model that was given
    too little fuel. *)
Inductive Result (A : Type) : Type :=
| Ok (a : A)
| Abort
| OutOfFuel.
Arguments Ok {A} a.
Arguments Abort {A}.
Arguments OutOfFuel {A}.

(** [parent = parent[key]]: the child the walk moves to, when there is
    one. *)
Definition readSlot (parent : JsonValue) (key : Key) : option Access :=
  match parent with
  | JObject fields =>
      match JsColl.map_get fields (keyName key) with
      | Some _ => Some (AProp (keyName key))
      | None => None
      end
  | JArray items =>
      match keyIndex key with
      | Some i => if decide (i < length items) then Some (AIdx i) else None
      | None => None
      end
  | _ => None
  end.

(** [parent[key] = x] in strict mode. *)
Definition writeProp (parent : JsonValue) (key : Key) (x : JsonValue)
  : Result JsonValue :=
  match parent with
  | JObject fields =>
      if decide (keyName key = "__proto__")
      then match JsColl.map_get fields "__proto__" with
           | Some _ => Ok (JObject (objSet fields (keyName key) x))
           | None => Ok parent
           end
      else Ok (JObject (objSet fields (keyName key) x))
  | JArray items =>
      match keyIndex key with
      | Some i => Ok (JArray (arrSet items i x))
      | None => if decide (keyName key = "length") then Abort else Ok parent
      end
  | _ => Abort
  end.

Section Apply.

(** [hashString] comes from [helpers.ts]; [sourcePathMap] and
    [translations] are the variables [applyTranslations] closes over. *)
Context (hashString : string → string).
Context (sourcePathMap : list (string * string)).
Context (translations : gmap string string).

(** The walk from [translatedJson] along [parentPath] and the final
    assignment [parent[lastKey] = translatedString].  The document is a
    tree, so updating the parent in place is replacing it in its own
    parent. *)
Fixpoint assign (path : list string) (x : JsonValue) (parent : JsonValue)
  : Result JsonValue :=
  match path with
  | [] => Abort
  | p :: rest =>
      match rest with
      | [] => writeProp parent (decode p) x
      | _ :: _ =>
          match readSlot parent (decode p) with
          | Some a =>
              match child parent a with
              | Some c =>
                  match assign rest x c with
                  | Ok c' => Ok (setChild parent a c')
                  | Abort => Abort
                  | OutOfFuel => OutOfFuel
                  end
              | None => Abort
              end
          | None => Abort
          end
      end
  end.

(** The branch [typeof obj === 'string'] of [applyTranslations]. *)
Definition visitLeaf (path : list string) (root : JsonValue)
  : Result JsonValue :=
  match JsColl.map_get sourcePathMap (flatPath path) with
  | Some sourceString =>
      match translations !! hashString sourceString with
      | Some translatedString =>
          if truthy translatedString
          then assign path (JString translatedString) root
          else Ok root
      | None => Ok root
      end
  | None => Ok root
  end.

(** A loop over the children of a container, threading the document. *)
Fixpoint forEachM {B} (f : B → JsonValue → Result JsonValue) (xs : list B)
  (root : JsonValue) : Result JsonValue :=
  match xs with
  | [] => Ok root
  | x :: rest =>
      match f x root with
      | Ok root' => forEachM f rest root'
      | Abort => Abort
      | OutOfFuel => OutOfFuel
      end
  end.

(** [applyTranslations(obj, path)], run on [translatedJson] itself: [obj]
    is the node of the document at [loc], and every [obj[key]] is read
    from the document as it is at that moment.  The keys of an object and
    the length of an array are taken when the loop over them starts. *)
Fixpoint applyTranslations (fuel : nat) (loc : list Access)
  (path : list string) (root : JsonValue) : Result JsonValue :=
  match fuel with
  | 0 => OutOfFuel
  | S fuel' =>
      match locate root loc with
      | Some (JObject fields) =>
          forEachM
            (λ key, applyTranslations fuel' (loc ++ [AProp key]) (path ++ [key]))
            (map fst fields) root
      | Some (JArray items) =>
          forEachM
            (λ index, applyTranslations fuel' (loc ++ [AIdx index])
                        (path ++ [indexSegment index]))
            (seq 0 (length items)) root
      | Some (JString _) => visitLeaf path root
      | _ => Ok root
      end
  end.

(** Step 6: [translatedJson = JSON.parse(JSON.stringify(sourceJson));
    applyTranslations(translatedJson);] *)
Definition rebuildDocument (sourceJson : JsonValue) : Result JsonValue :=
  applyTranslations (S (depth sourceJson)) [] [] sourceJson.

(** The value a string leaf at [path] ends with when its translation is
    looked up the way [visitLeaf] does. *)
Definition resolve (path : list string) (original : string) : string :=
  match JsColl.map_get sourcePathMap (flatPath path) with
  | Some sourceString =>
      match translations !! hashString sourceString with
      | Some translatedString =>
          if truthy translatedString then translatedString else original
      | None => original
      end
  | None => original
  end.

(** The document with every string leaf resolved, all else as it was. *)
Fixpoint resolveAll (path : list string) (v : JsonValue) : JsonValue :=
  match v with
  | JString s => JString (resolve path s)
  | JArray items =>
      JArray ((fix go (i : nat) (l : list JsonValue) : list JsonValue :=
                 match l with
                 | [] => []
                 | c :: l' =>
                     resolveAll (path ++ [indexSegment i]) c :: go (S i) l'
                 end) 0 items)
  | JObject fields =>
      JObject ((fix go (l : list (string * JsonValue))
                  : list (string * JsonValue) :=
                  match l with
                  | [] => []
                  | (k, c) :: l' => (k, resolveAll (path ++ [k]) c) :: go l'
                  end) fields)
  | _ => v
  end.

End Apply.

(** A key that [decode] reads back as itself. *)
Definition plainKey (k : string) : bool :=
  negb (startsWith "[" k && endsWith "]" k).

(** What [JSON.parse] returns (own keys are distinct, arrays are shorter
    than the index limit), with every object key plain. *)
Fixpoint plainDocument (v : JsonValue) : bool :=
  match v with
  | JArray items =>
      bool_decide (N.of_nat (length items) < indexLimit)%N
      && forallb plainDocument items
  | JObject fields =>
      bool_decide (NoDup (map fst fields))
      && forallb (λ kc, plainKey kc.1 && plainDocument kc.2) fields
  | _ => true
  end.

(** How a path segment and a step into the document correspond on a
    plain document. *)
Definition decodes (p : string) (a : Access) : Prop :=
  match a with
  | AProp k => p = k ∧ plainKey k = true
  | AIdx i => p = indexSegment i ∧ (N.of_nat i < indexLimit)%N
  end.

(** Modelled from the spec: [flattenObjectWithPaths] of [helpers.ts], which
    is not under src/.  The walk is depth-first, object keys in
    enumeration order and array elements in index order, and only string
    leaves are emitted; the key of a leaf is its path in the encoding that
    [applyTranslations] computes when it looks the leaf up. *)
Fixpoint flattenInto (path : list string) (v : JsonValue)
  (m : list (string * string)) : list (string * string) :=
  match v with
  | JString s => JsColl.map_set m (flatPath path) s
  | JArray items =>
      (fix go (i : nat) (l : list JsonValue) (m : list (string * string)) :=
         match l with
         | [] => m
         | c :: l' => go (S i) l' (flattenInto (path ++ [indexSegment i]) c m)
         end) 0 items m
  | JObject fields =>
      (fix go (l : list (string * JsonValue)) (m : list (string * string)) :=
         match l with
         | [] => m
         | (k, c) :: l' => go l' (flattenInto (path ++ [k]) c m)
         end) fields m
  | _ => m
  end.

Definition flattenObjectWithPaths (sourceJson : JsonValue)
  : list (string * string) :=
  flattenInto [] sourceJson [].

End Reconstruct.

(** ** Translation backends: [src/translators/base.ts] *)

Module Provider.
Import JsString Json.

(** How an awaited promise settles. *)
Inductive Promise (A : Type) : Type :=
| Resolved (a : A)
| Rejected.
Arguments Resolved {A} a.
Arguments Rejected {A}.

(** [interface TranslationProvider].  The first argument of [translate] is
    the number of the request within the run, so that a backend may answer
    two equal requests differently; [detectLanguage] is optional. *)
Record TranslationProvider : Type := {
  name : string;
  translate :
    nat → list string → string → string → option string →
    Promise (list string);
  detectLanguage : option (list string → string);
}.

(** One element of a parsed response passes
    [!translations[i] || translations[i].trim() === ''] only when it is
    a string with a character that is not white space: [null], [false],
    [0] and [''] are falsy, and every other non-string has no [trim]. *)
Definition acceptable (t : JsonValue) : bool :=
  match t with
  | JString s => negb (isBlank s)
  | _ => false
  end.

(** [BaseTranslator.validateResponse(strings, translations)]: [true] when
    it returns, [false] when it throws. *)
Definition validateResponse (strings : list string)
  (translations : list JsonValue) : bool :=
  if decide (length translations ≠ length strings) then false
  else forallb acceptable translations.

(** What a backend sends back for one request: a failure, or text that
    parses to an array. *)
Inductive RawReply : Type :=
| ApiFailure
| Parsed (translations : list JsonValue).

Definition stringOf (t : JsonValue) : string :=
  match t with
  | JString s => s
  | _ => ""
  end.

(** [translate] of the providers that answer from one response
    ([GeminiTranslator], [OpenAITranslator]):
    [this.validateResponse(strings, translations); return translations;] *)
Definition validatingTranslate (reply : nat → list string → RawReply)
  (requestNo : nat) (strings : list string) (targetLang sourceLang : string)
  (context : option string) : Promise (list string) :=
  match reply requestNo strings with
  | ApiFailure => Rejected
  | Parsed translations =>
      if validateResponse strings translations
      then Resolved (map stringOf translations)
      else Rejected
  end.

Definition validatingProvider (providerName : string)
  (reply : nat → list string → RawReply)
  (detect : option (list string → string)) : TranslationProvider :=
  {| name := providerName;
     translate := validatingTranslate reply;
     detectLanguage := detect |}.

(** [translate] of [OllamaTranslator]: up to [maxRetries] attempts, each
    validated by [validateResponse]; the first attempt that passes is the
    result, and the call is rejected when none does.  [reply] is told the
    number of the attempt, counted from 1. *)
Definition maxRetries : nat := 5.

Fixpoint retryLoop (reply : nat → nat → list string → RawReply)
  (requestNo : nat) (strings : list string) (attempt remaining : nat)
  : Promise (list string) :=
  match remaining with
  | 0 => Rejected
  | S remaining' =>
      match reply requestNo attempt strings with
      | Parsed translations =>
          if validateResponse strings translations
          then Resolved (map stringOf translations)
          else retryLoop reply requestNo strings (S attempt) remaining'
      | ApiFailure => retryLoop reply requestNo strings (S attempt) remaining'
      end
  end.

(** Whether the attempt numbered [attempt] gives a response that
    [validateResponse] lets through. *)
Definition attemptOk (reply : nat → nat → list string → RawReply)
  (requestNo attempt : nat) (strings : list string) : bool :=
  match reply requestNo attempt strings with
  | Parsed translations => validateResponse strings translations
  | ApiFailure => false
  end.

Definition retryingTranslate (reply : nat → nat → list string → RawReply)
  (requestNo : nat) (strings : list string) (targetLang sourceLang : string)
  (context : option string) : Promise (list string) :=
  retryLoop reply requestNo strings 1 maxRetries.

Definition retryingProvider (providerName : string)
  (reply : nat → nat → list string → RawReply)
  (detect : option (list string → string)) : TranslationProvider :=
  {| name := providerName;
     translate := retryingTranslate reply;
     detectLanguage := detect |}.

(** The functions of [helpers.ts] that [index.ts] imports and that are not
    under src/, taken as parameters.  [hashString] gives a digest of fixed
    width, which is the name of no built-in property: a fingerprint is
    looked up among the own properties of a language cache. *)
Record Helpers : Type := {
  hashString : string → string;
  PreservedFormat : Type;
  preserveFormats : string → PreservedFormat;
  processed : PreservedFormat → string;
  restoreFormats : string → PreservedFormat → string;
  sortObjectKeys : JsonValue → JsonValue;
  compareKeysIsValid : JsonValue → JsonValue → bool;
}.

(** The strings [translateBatch] sends to the backend:
    [processedStrings]. *)
Definition requestStrings (H : Helpers) (shouldPreserveFormats : bool)
  (strings : list string) : list string :=
  if shouldPreserveFormats
  then map (λ str, processed H (preserveFormats H str)) strings
  else strings.

(** The body of [strings.forEach((original, index) => ...)] in
    [translateBatch]. *)
Definition collectTranslation (H : Helpers) (shouldPreserveFormats : bool)
  (translations : list string) (translationMap : list (string * string))
  (entry : nat * string) : list (string * string) :=
  let '(index, original) := entry in
  match translations !! index with
  | Some translated =>
      if truthy translated
      then JsColl.map_set translationMap original
             (if shouldPreserveFormats
              then restoreFormats H translated (preserveFormats H original)
              else translated)
      else translationMap
  | None => translationMap
  end.

(** [translateBatch]: the map from each original string to its
    translation, in insertion order; a rejected [translate] is caught and
    gives the empty map. *)
Definition translateBatch (H : Helpers) (requestNo : nat)
  (strings : list string) (targetLang : string)
  (translator : TranslationProvider) (sourceLang : string)
  (shouldPreserveFormats : bool) (context : option string)
  : list (string * string) :=
  let processedStrings := requestStrings H shouldPreserveFormats strings in
  match translate translator requestNo processedStrings targetLang
          sourceLang context with
  | Resolved translations =>
      foldl (collectTranslation H shouldPreserveFormats translations) []
        (imap pair strings)
  | Rejected => []
  end.

End Provider.

(** ** The file system and the persisted cache *)

Module Store.
Import JsString Json Provider.

Abbreviation TranslationCache := (gmap string (gmap string (gmap string string))).

Inductive File : Type :=
| Readable (data : string)
| Unreadable
| Directory.

(** What a run does to the outside, in order.  [EvTranslate] is one call
    of [translator.translate]; a provider that retries may send more than
    one HTTP request for it. *)
Inductive Event : Type :=
| EvTranslate (strings : list string) (targetLang sourceLang : string)
    (context : option string)
| EvDetectLanguage (strings : list string)
| EvMkdir (dir : string)
| EvWriteFile (path data : string)
| EvStdout (text : string).

Record World : Type := {
  files : gmap string File;
  events : list Event;
}.

Definition emit (e : Event) (w : World) : World :=
  {| files := files w; events := events w ++ [e] |}.

(** [fs.access(p)] resolves when [p] exists. *)
Definition fs_access (w : World) (p : string) : bool :=
  bool_decide (is_Some (files w !! p)).

(** [fs.readFile(p, 'utf-8')]; [None] when it rejects. *)
Definition fs_readFile (w : World) (p : string) : option string :=
  match files w !! p with
  | Some (Readable data) => Some data
  | _ => None
  end.

(** [fs.writeFile(p, data, 'utf-8')], run to its end; [None] when it
    rejects.  The directory of [p] is taken to exist. *)
Definition fs_writeFile (w : World) (p data : string) : option World :=
  match files w !! p with
  | Some Directory => None
  | _ => Some {| files := <[p := Readable data]> (files w);
                 events := events w ++ [EvWriteFile p data] |}
  end.

(** A path that names an entry of its own: it is not empty and does not
    end in a separator. *)
Definition namesEntry (p : string) : bool :=
  negb (bool_decide (p = "")) && negb (endsWith "/" p).

(** The directories on the way to a path, outermost first and the path
    itself last: the prefixes that a [/] follows, and the whole.  The root
    is not among them: it is always there. *)
Fixpoint ancestorsFrom (before rest : string) : list string :=
  match rest with
  | EmptyString => if namesEntry before then [before] else []
  | String c rest' =>
      (if bool_decide (c = "/"%char) && namesEntry before
       then [before] else [])
      ++ ancestorsFrom (before ++ String c EmptyString) rest'
  end.

Definition pathAncestors (p : string) : list string :=
  ancestorsFrom EmptyString p.

(** The directories [dirs] are made in turn where they are missing; a
    file in the place of one of them makes the call reject. *)
Fixpoint mkdirAll (dirs : list string) (fs : gmap string File)
  : option (gmap string File) :=
  match dirs with
  | [] => Some fs
  | dir :: rest =>
      match fs !! dir with
      | None => mkdirAll rest (<[dir := Directory]> fs)
      | Some Directory => mkdirAll rest fs
      | Some _ => None
      end
  end.

(** [fs.mkdir(p, { recursive: true })]: [p] is made together with every
    directory on the way to it that is missing; [None] when it rejects. *)
Definition fs_mkdir (w : World) (p : string) : option World :=
  match mkdirAll (pathAncestors p) (files w) with
  | Some fs => Some {| files := fs; events := events w ++ [EvMkdir p] |}
  | None => None
  end.

(** The parts of Node and of the JS library the pipeline calls. *)
Record Node : Type := {
  path_resolve : string → string;
  path_isAbsolute : string → bool;
  path_dirname : string → string;
  path_basename : string → string;
  path_basename_ext : string → string → string;
  path_join : string → string → string;
  glob : gmap string File → string → list string;
  JSON_parse : string → option JsonValue;
  JSON_stringify : JsonValue → string;
  (** [JSON.parse] and [JSON.stringify(cache, null, 2)] at the type of the
      cache: [parseCache data] is [None] when [JSON.parse] throws, and a
      text that parses is taken to parse to a cache, as every text that
      [saveCache] writes does. *)
  parseCache : string → option TranslationCache;
  stringifyCache : TranslationCache → string;
  (** [subject.replace(/\{token\}/g, value)] *)
  replaceToken : string → string → string → string;
  (** [new Date().toISOString()] *)
  timestamp : string;
}.

(** [loadCache(cacheFilePath)] *)
Definition loadCache (N : Node) (w : World) (cacheFilePath : string)
  : TranslationCache :=
  if fs_access w cacheFilePath
  then match fs_readFile w cacheFilePath with
       | Some data =>
           match parseCache N data with
           | Some cache => cache
           | None => ∅
           end
       | None => ∅
       end
  else ∅.

(** [ensureCacheDirectory(cacheFilePath)] *)
Definition ensureCacheDirectory (N : Node) (w : World)
  (cacheFilePath : string) : option World :=
  let dir := path_dirname N cacheFilePath in
  if fs_access w dir then Some w else fs_mkdir w dir.

(** [saveCache(cache, cacheFilePath)]: the world it leaves, and whether it
    resolved. *)
Definition saveCache (N : Node) (cache : TranslationCache) (w : World)
  (cacheFilePath : string) : bool * World :=
  match ensureCacheDirectory N w cacheFilePath with
  | Some w' =>
      match fs_writeFile w' cacheFilePath (stringifyCache N cache) with
      | Some w'' => (true, w'')
      | None => (false, w')
      end
  | None => (false, w)
  end.

(** What [fs.writeFile] leaves behind when the process stops before the
    write has finished: the file was opened with flag ['w'], which creates
    or truncates it, and the data goes out in one or more writes, so that
    any proper prefix of the data may be all there is. *)
Definition interruptedWrite (w : World) (p data : string) (n : nat)
  : World :=
  {| files := <[p := Readable (String.substring 0 n data)]> (files w);
     events := events w |}.

(** [translationCache[file]?.[lang]]: the own property.  Under an
    inherited name with no own property the code finds a built-in object,
    which holds no fingerprint: what is read from it is what is read from
    an empty language cache. *)
Definition langEntry (cache : TranslationCache) (file lang : string)
  : option (gmap string string) :=
  match cache !! file with
  | Some fileCache => fileCache !! lang
  | None => None
  end.

(** [translationCache[file]?.[lang]?.[hash]] *)
Definition cacheLookup (cache : TranslationCache) (file lang hash : string)
  : option string :=
  match langEntry cache file lang with
  | Some langCache => langCache !! hash
  | None => None
  end.

(** [translationCache[file]?.[lang] || {}] *)
Definition langCacheOf (cache : TranslationCache) (file lang : string)
  : gmap string string :=
  default ∅ (langEntry cache file lang).

(** The properties every plain object inherits from [Object.prototype].
    Read on an object that has no property of its own by that name, each
    of them gives a built-in object, which is truthy. *)
Definition inheritedNames : list string :=
  [ "constructor"; "__defineGetter__"; "__defineSetter__"; "hasOwnProperty";
    "__lookupGetter__"; "__lookupSetter__"; "isPrototypeOf";
    "propertyIsEnumerable"; "toString"; "valueOf"; "__proto__";
    "toLocaleString" ].

Definition inherited (name : string) : bool :=
  bool_decide (name ∈ inheritedNames).

(** [if (!cache[file]) cache[file] = {};
     if (!cache[file][lang]) cache[file][lang] = {};
     cache[file][lang][hash] = translated;]
    The cache holds the own properties, which are what [JSON.stringify]
    writes.  Where [cache[file]] or [cache[file][lang]] is not an own
    property and its name is an inherited one, the test finds the
    built-in object, no entry is made, and the assignment lands on that
    object: the cache gets no translation. *)
Definition cacheRecord (cache : TranslationCache)
  (file lang hash translated : string) : TranslationCache :=
  match cache !! file with
  | Some fileCache =>
      match fileCache !! lang with
      | Some langCache =>
          <[file := <[lang := <[hash := translated]> langCache]> fileCache]>
            cache
      | None =>
          if inherited lang then cache
          else <[file := <[lang := {[hash := translated]}]> fileCache]> cache
      end
  | None =>
      if inherited file then cache
      else if inherited lang then <[file := ∅]> cache
      else <[file := {[lang := {[hash := translated]}]}]> cache
  end.

(** Whether a record under [file] and [lang] lands in the cache. *)
Definition records (cache : TranslationCache) (file lang : string) : bool :=
  match cache !! file with
  | Some fileCache =>
      bool_decide (is_Some (fileCache !! lang)) || negb (inherited lang)
  | None => negb (inherited file) && negb (inherited lang)
  end.

(** A cached value counts only when it is truthy: [if (langCache[h])]. *)
Definition cacheHit (entry : option string) : option string :=
  match entry with
  | Some t => if truthy t then Some t else None
  | None => None
  end.

(** Step 4 of [processSingleFile]: every hash of the language cache of the
    document that is not the hash of a current string is deleted; the
    second component is [prunedCount]. *)
Definition pruneCache (cache : TranslationCache) (file lang : string)
  (currentHashes : list string) : TranslationCache * nat :=
  match langEntry cache file lang with
  | Some langCache =>
      let kept := filter (λ entry, entry.1 ∈ currentHashes) langCache in
      (<[file := <[lang := kept]> (default ∅ (cache !! file))]> cache,
       size langCache - size kept)
  | None => (cache, 0)
  end.

End Store.

(** ** The pipeline: [processSingleFile] *)

Module Pipeline.
Import JsString Json Reconstruct Batch Provider Store.

(** How a call of [processSingleFile] or [processMultipleFiles] ends:
    it returns, or the process exits with a code ([process.exit(1)], also
    when an exception reaches the handler of [main]). *)
Inductive Outcome : Type :=
| Returned
| Exited (exitCode : nat).

(** The parameters the two entry points share. *)
Record Options : Type := {
  stdout : bool;
  showStats : bool;
  useCache : bool;
  cacheFile : string;
  detectSource : bool;
  dryRun : bool;
  shouldPreserveFormats : bool;
  includeMetadata : bool;
  sortKeys : bool;
  checkKeys : bool;
  context : option string;
}.

(** [path.isAbsolute(cacheFile) ? cacheFile : path.resolve(cacheFile)] *)
Definition resolvedCacheFile (N : Node) (o : Options) : string :=
  if path_isAbsolute N (cacheFile o) then cacheFile o
  else path_resolve N (cacheFile o).

(** [new Set(sourcePathMap.values())] *)
Definition allSourceStringsOf (sourcePathMap : list (string * string))
  : list string :=
  JsColl.set_of (map snd sourcePathMap).

(** Steps 1.5 and 2.5: the source language, detected when asked for and
    possible.  [strings] are the unique strings, [sample] what is sent. *)
Definition detectLanguageStep (translator : TranslationProvider)
  (o : Options) (strings sample : list string) (w : World)
  : string * World :=
  match detectSource o, detectLanguage translator with
  | true, Some detect =>
      if decide (0 < length strings)
      then (detect sample, emit (EvDetectLanguage sample) w)
      else ("English", w)
  | _, _ => ("English", w)
  end.

(** Step 2 of [processSingleFile] with the cache enabled: the cached
    translations by hash, and [stringsToTranslateAPI]. *)
Definition compareOne (H : Helpers) (langCache : gmap string string)
  (st : gmap string string * list string) (str : string)
  : gmap string string * list string :=
  let '(translations, stringsToTranslateAPI) := st in
  let h := hashString H str in
  match cacheHit (langCache !! h) with
  | Some cached => (<[h := cached]> translations, stringsToTranslateAPI)
  | None => (translations, JsColl.set_add stringsToTranslateAPI str)
  end.

Definition compareWithCache (H : Helpers) (langCache : gmap string string)
  (allSourceStrings : list string) : gmap string string * list string :=
  foldl (compareOne H langCache) (∅, []) allSourceStrings.

(** The calls of [translateBatch], one per batch: batch [i] is request
    number [i]. *)
Definition runBatches (H : Helpers) (translator : TranslationProvider)
  (lang sourceLang : string) (o : Options) (batches : list (list string))
  : list (list (string * string)) :=
  imap (λ i batch, translateBatch H i batch lang translator sourceLang
                     (shouldPreserveFormats o) (context o)) batches.

Definition batchEvents (H : Helpers) (lang sourceLang : string) (o : Options)
  (batches : list (list string)) : list Event :=
  map (λ batch, EvTranslate (requestStrings H (shouldPreserveFormats o) batch)
                  lang sourceLang (context o)) batches.

Definition emitAll (es : list Event) (w : World) : World :=
  {| files := files w; events := events w ++ es |}.

(** The merge of step 3:
    [newTranslations.forEach(batchMap => batchMap.forEach(...))]; the
    state is [translations], [translationCache] and
    [successfullyTranslatedCount]. *)
Definition mergeOne (H : Helpers) (o : Options) (sourceFilePath lang : string)
  (st : gmap string string * TranslationCache * nat)
  (entry : string * string) : gmap string string * TranslationCache * nat :=
  let '(translations, translationCache, count) := st in
  let '(original, translated) := entry in
  let h := hashString H original in
  (<[h := translated]> translations,
   if useCache o
   then cacheRecord translationCache sourceFilePath lang h translated
   else translationCache,
   S count).

Definition mergeBatches (H : Helpers) (o : Options)
  (sourceFilePath lang : string)
  (st : gmap string string * TranslationCache * nat)
  (newTranslations : list (list (string * string)))
  : gmap string string * TranslationCache * nat :=
  foldl (λ st batchMap, foldl (mergeOne H o sourceFilePath lang) st batchMap)
    st newTranslations.

(** The own enumerable properties an object spread copies. *)
Definition ownProperties (v : JsonValue) : list (string * JsonValue) :=
  match v with
  | JObject fields => fields
  | JArray items => imap (λ i x, (natToString i, x)) items
  | JString s =>
      imap (λ i c, (natToString i, JString (String c EmptyString)))
        (list_ascii_of_string s)
  | _ => []
  end.

(** [{ "_translator_metadata": {...}, ...translatedJson }] *)
Definition withMetadata (N : Node) (translator : TranslationProvider)
  (o : Options) (sourceLang lang : string) (totalStrings : nat)
  (sourceFile : string) (translatedJson : JsonValue) : JsonValue :=
  let metadata := JObject [
    ("tool", JString "translator-ai v1.1.0");
    ("repository", JString "https://github.com/DatanoiseTV/translator-ai");
    ("provider", JString (name translator));
    ("source_language",
       JString (if detectSource o then sourceLang else "English"));
    ("target_language", JString lang);
    ("timestamp", JString (timestamp N));
    ("total_strings", JNumber (Z.of_nat totalStrings));
    ("source_file", JString (path_basename N sourceFile)) ] in
  JObject (foldl (λ fields '(k, x), objSet fields k x)
             [("_translator_metadata", metadata)]
             (ownProperties translatedJson)).

(** The post-steps of the rebuild: sorting, then metadata. *)
Definition finishOutput (N : Node) (H : Helpers)
  (translator : TranslationProvider) (o : Options) (sourceLang lang : string)
  (totalStrings : nat) (sourceFile : string) (translatedJson : JsonValue)
  : JsonValue :=
  let sorted :=
    if sortKeys o then sortObjectKeys H translatedJson else translatedJson in
  if includeMetadata o
  then withMetadata N translator o sourceLang lang totalStrings sourceFile
         sorted
  else sorted.

(** Steps 2 to 4 of [processSingleFile] on the data alone: from the cache
    as loaded and the document to the translation table, the cache to be
    saved, and the two counters. *)
Record Translated : Type := {
  stringsToTranslateAPI : list string;
  batches : list (list string);
  newTranslations : list (list (string * string));
  translations : gmap string string;
  successfullyTranslatedCount : nat;
  translationCache : TranslationCache;
  prunedCount : nat;
}.

Definition translateSingle (H : Helpers) (translator : TranslationProvider)
  (o : Options) (sourceFilePath lang sourceLang : string)
  (loaded : TranslationCache) (allSourceStrings : list string) : Translated :=
  let '(cached, toTranslate) :=
    if useCache o
    then compareWithCache H (langCacheOf loaded sourceFilePath lang)
           allSourceStrings
    else (∅, allSourceStrings) in
  let cache0 : TranslationCache := if useCache o then loaded else ∅ in
  let bs := singleFileBatches toTranslate in
  let results := runBatches H translator lang sourceLang o bs in
  let '(merged, cache1, count) :=
    mergeBatches H o sourceFilePath lang (cached, cache0, 0) results in
  let '(cache2, pruned) :=
    if useCache o
    then pruneCache cache1 sourceFilePath lang
           (map (hashString H) allSourceStrings)
    else (cache1, 0) in
  {| stringsToTranslateAPI := toTranslate;
     batches := bs;
     newTranslations := results;
     translations := merged;
     successfullyTranslatedCount := count;
     translationCache := cache2;
     prunedCount := pruned |}.

(** The figures the dry-run branch of [processSingleFile] prints: cached
    translations, new strings, estimated API calls. *)
Definition dryRunReport (N : Node) (H : Helpers) (o : Options)
  (sourceFilePath lang : string) (allSourceStrings : list string) (w : World)
  : nat * nat * nat :=
  if useCache o
  then
    let langCache :=
      langCacheOf (loadCache N w (resolvedCacheFile N o)) sourceFilePath
        lang in
    let newStrings :=
      length (filter (λ str, cacheHit (langCache !! hashString H str) = None)
                allSourceStrings) in
    (length allSourceStrings - newStrings, newStrings,
     ceil_div newStrings MAX_BATCH_SIZE)
  else (0, length allSourceStrings,
        ceil_div (length allSourceStrings) MAX_BATCH_SIZE).

(** The dry-run branch of [processSingleFile]: the report goes to the
    console and the function returns. *)
Definition dryRunSingle (w : World) : Outcome * World :=
  (Returned, w).

(** The final output and the key check of [processSingleFile]. *)
Definition writeOutput (N : Node) (H : Helpers) (o : Options)
  (lang : string) (output : option string) (sourceJson outputJson : JsonValue)
  (w : World) : Outcome * World :=
  let outputString := JSON_stringify N outputJson in
  let written :=
    if stdout o then Some (emit (EvStdout outputString) w)
    else match output with
         | Some pattern =>
             fs_writeFile w (replaceToken N "lang" lang pattern) outputString
         | None => Some w
         end in
  match written with
  | None => (Exited 1, w)
  | Some w' =>
      if checkKeys o && negb (compareKeysIsValid H sourceJson outputJson)
      then (Exited 1, w')
      else (Returned, w')
  end.

(** [processSingleFile] *)
Definition processSingleFile (N : Node) (H : Helpers) (inputFile lang : string)
  (output : option string) (o : Options) (translator : TranslationProvider)
  (w : World) : Outcome * World :=
  let sourceFilePath := path_resolve N inputFile in
  match fs_readFile w sourceFilePath ≫= JSON_parse N with
  | None => (Exited 1, w)
  | Some sourceJson =>
      let sourcePathMap := flattenObjectWithPaths sourceJson in
      let allSourceStrings := allSourceStringsOf sourcePathMap in
      let '(sourceLang, w1) :=
        detectLanguageStep translator o allSourceStrings allSourceStrings w in
      if dryRun o
      then dryRunSingle w1
      else
        let loaded := loadCache N w1 (resolvedCacheFile N o) in
        let t := translateSingle H translator o sourceFilePath lang sourceLang
                   loaded allSourceStrings in
        let w2 := emitAll (batchEvents H lang sourceLang o (batches t)) w1 in
        let '(saved, w3) :=
          if useCache o &&
             (bool_decide (0 < successfullyTranslatedCount t)
              || bool_decide (0 < prunedCount t))
          then saveCache N (translationCache t) w2 (resolvedCacheFile N o)
          else (true, w2) in
        if saved
        then
          match rebuildDocument (hashString H) sourcePathMap
                  (translations t) sourceJson with
          | Ok translatedJson =>
              writeOutput N H o lang output sourceJson
                (finishOutput N H translator o sourceLang lang
                   (length sourcePathMap) inputFile translatedJson)
                w3
          | _ => (Exited 1, w3)
          end
        else (Exited 1, w3)
  end.

(** The state of a single-file run on a source that parsed to
    [sourceJson], at the point where the cache is saved: the result of
    steps 1 to 4. *)
Definition singleRunState (N : Node) (H : Helpers) (inputFile lang : string)
  (o : Options) (translator : TranslationProvider) (w : World)
  (sourceJson : JsonValue) : Translated :=
  let all := allSourceStringsOf (flattenObjectWithPaths sourceJson) in
  let d := detectLanguageStep translator o all all w in
  translateSingle H translator o (path_resolve N inputFile) lang d.1
    (loadCache N d.2 (resolvedCacheFile N o)) all.

(** ** The pipeline: [processMultipleFiles] *)

(** Step 1: the files the input patterns name, without duplicates. *)
Definition collectFiles (N : Node) (w : World) (inputPatterns : list string)
  : list string :=
  JsColl.set_of
    (concat
       (map (λ pattern,
               if includes "*" pattern || includes "?" pattern
                  || includes "[" pattern
               then glob N (files w) pattern
               else [path_resolve N pattern])
          inputPatterns)).

(** An entry of [fileDataMap]. *)
Record FileData : Type := {
  json : JsonValue;
  paths : list (string * string);
  outputPath : string;
}.

Definition outputPathOf (N : Node) (o : Options) (lang : string)
  (outputPattern : option string) (filePath : string) : string :=
  if stdout o then "stdout"
  else
    let dir := path_dirname N filePath in
    let base := path_basename_ext N filePath ".json" in
    match outputPattern with
    | Some pattern =>
        replaceToken N "lang" lang
          (replaceToken N "name" base (replaceToken N "dir" dir pattern))
    | None => path_join N dir (base ++ "." ++ lang ++ ".json")
    end.

(** Step 2, for one file: a file that cannot be read or parsed is
    reported and left out.  The state is [fileDataMap], [globalStringMap]
    and [stats.totalStrings]. *)
Definition collectOne (filePath : string)
  (globalStringMap : list (string * list string)) (str : string)
  : list (string * list string) :=
  JsColl.map_set globalStringMap str
    (JsColl.set_add (default [] (JsColl.map_get globalStringMap str)) filePath).

Definition collectStrings (filePath : string)
  (globalStringMap : list (string * list string)) (strs : list string)
  : list (string * list string) :=
  foldl (collectOne filePath) globalStringMap strs.

Definition readOne (N : Node) (o : Options) (lang : string)
  (outputPattern : option string) (w : World)
  (st : list (string * FileData) * list (string * list string) * nat)
  (filePath : string)
  : list (string * FileData) * list (string * list string) * nat :=
  let '(fileDataMap, globalStringMap, totalStrings) := st in
  match fs_readFile w filePath ≫= JSON_parse N with
  | Some sourceJson =>
      let pathMap := flattenObjectWithPaths sourceJson in
      (JsColl.map_set fileDataMap filePath
         {| json := sourceJson; paths := pathMap;
            outputPath := outputPathOf N o lang outputPattern filePath |},
       collectStrings filePath globalStringMap (map snd pathMap),
       totalStrings + length pathMap)
  | None => st
  end.

Definition readAll (N : Node) (o : Options) (lang : string)
  (outputPattern : option string) (w : World) (uniqueFiles : list string)
  : list (string * FileData) * list (string * list string) * nat :=
  foldl (readOne N o lang outputPattern w) ([], [], 0) uniqueFiles.

(** Step 3 with the cache enabled: a string is a hit when one of the
    files that contain it has a truthy entry for it. *)
Definition firstHit (translationCache : TranslationCache) (lang hash : string)
  (filesOfString : list string) : option string :=
  list_find (λ file, is_Some (cacheHit (cacheLookup translationCache file
                                          lang hash)))
    filesOfString
  ≫= λ found, cacheHit (cacheLookup translationCache found.2 lang hash).

Definition checkOne (H : Helpers) (translationCache : TranslationCache)
  (lang : string) (st : gmap string string * list string)
  (entry : string * list string) : gmap string string * list string :=
  let '(globalTranslations, stringsToTranslate) := st in
  let '(str, filesOfString) := entry in
  let hash := hashString H str in
  match firstHit translationCache lang hash filesOfString with
  | Some cached => (<[hash := cached]> globalTranslations, stringsToTranslate)
  | None => (globalTranslations, JsColl.set_add stringsToTranslate str)
  end.

Definition checkCache (H : Helpers) (translationCache : TranslationCache)
  (lang : string) (globalStringMap : list (string * list string))
  : gmap string string * list string :=
  foldl (checkOne H translationCache lang) (∅, []) globalStringMap.

(** The merge of step 4: [globalTranslations.set(hash, translated)]. *)
Definition mergeGlobalOne (H : Helpers)
  (globalTranslations : gmap string string) (entry : string * string)
  : gmap string string :=
  <[hashString H entry.1 := entry.2]> globalTranslations.

Definition mergeGlobal (H : Helpers) (globalTranslations : gmap string string)
  (results : list (list (string * string))) : gmap string string :=
  foldl (λ acc batchTranslations, foldl (mergeGlobalOne H) acc batchTranslations)
    globalTranslations results.

(** Step 5: every translation in the table is recorded under every file
    that contains its string. *)
Definition updateOne (H : Helpers) (lang : string)
  (globalTranslations : gmap string string) (cache : TranslationCache)
  (entry : string * list string) : TranslationCache :=
  let hash := hashString H entry.1 in
  match globalTranslations !! hash with
  | Some translation =>
      foldl (λ cache file, cacheRecord cache file lang hash translation)
        cache entry.2
  | None => cache
  end.

Definition updateCache (H : Helpers) (lang : string)
  (globalTranslations : gmap string string)
  (globalStringMap : list (string * list string))
  (translationCache : TranslationCache) : TranslationCache :=
  foldl (updateOne H lang globalTranslations) translationCache globalStringMap.

(** Steps 3 to 5 of [processMultipleFiles] on the data alone. *)
Record TranslatedAll : Type := {
  stringsToTranslate : list string;
  batchesAll : list (list string);
  globalTranslations : gmap string string;
  cacheToSave : option TranslationCache;
}.

Definition translateMultiple (H : Helpers) (translator : TranslationProvider)
  (o : Options) (lang sourceLang : string) (loaded : TranslationCache)
  (globalStringMap : list (string * list string)) : TranslatedAll :=
  let cache0 : TranslationCache := if useCache o then loaded else ∅ in
  let '(cached, toTranslate) :=
    if useCache o then checkCache H cache0 lang globalStringMap
    else (∅, foldl JsColl.set_add [] (map fst globalStringMap)) in
  let bs := multiFileBatches toTranslate in
  let results := runBatches H translator lang sourceLang o bs in
  let merged := mergeGlobal H cached results in
  {| stringsToTranslate := toTranslate;
     batchesAll := bs;
     globalTranslations := merged;
     cacheToSave :=
       if useCache o && bool_decide (0 < length toTranslate)
       then Some (updateCache H lang merged globalStringMap cache0)
       else None |}.

(** [`\n=== ${path.basename(filePath)} ===`] *)
Definition stdoutHeader (N : Node) (filePath : string) : string :=
  String (ascii_of_nat 10) ("=== " ++ path_basename N filePath ++ " ===").

(** Step 6, for one file: rebuild, finish, and print or write. *)
Definition writeOne (N : Node) (H : Helpers)
  (translator : TranslationProvider) (o : Options) (lang sourceLang : string)
  (globalTranslations : gmap string string) (w : World)
  (entry : string * FileData) : bool * World :=
  let '(filePath, fileData) := entry in
  match rebuildDocument (hashString H) (paths fileData) globalTranslations
          (json fileData) with
  | Ok translatedJson =>
      let outputJson :=
        finishOutput N H translator o sourceLang lang
          (length (paths fileData)) filePath translatedJson in
      let outputString := JSON_stringify N outputJson in
      if stdout o
      then (true, emit (EvStdout outputString)
                    (emit (EvStdout (stdoutHeader N filePath)) w))
      else
        match fs_mkdir w (path_dirname N (outputPath fileData)) with
        | Some w' =>
            match fs_writeFile w' (outputPath fileData) outputString with
            | Some w'' => (true, w'')
            | None => (false, w')
            end
        | None => (false, w)
        end
  | _ => (false, w)
  end.

Fixpoint writeEach (N : Node) (H : Helpers)
  (translator : TranslationProvider) (o : Options) (lang sourceLang : string)
  (globalTranslations : gmap string string)
  (fileDataMap : list (string * FileData)) (w : World) : bool * World :=
  match fileDataMap with
  | [] => (true, w)
  | entry :: rest =>
      match writeOne N H translator o lang sourceLang globalTranslations w
              entry with
      | (true, w') =>
          writeEach N H translator o lang sourceLang globalTranslations rest w'
      | (false, w') => (false, w')
      end
  end.

(** Step 7: every output file is read back and its keys are compared with
    those of its source; [None] when reading or parsing one of them
    throws. *)
Definition verifyKeys (N : Node) (H : Helpers) (w : World)
  (fileDataMap : list (string * FileData)) : option bool :=
  foldr
    (λ '(filePath, fileData) rest,
       match fs_readFile w (outputPath fileData) ≫= JSON_parse N with
       | Some outputJson =>
           match rest with
           | Some allValid =>
               Some (compareKeysIsValid H (json fileData) outputJson
                     && allValid)
           | None => None
           end
       | None => None
       end)
    (Some true) fileDataMap.

(** [processMultipleFiles] *)
Definition processMultipleFiles (N : Node) (H : Helpers)
  (inputPatterns : list string) (lang : string)
  (outputPattern : option string) (o : Options)
  (translator : TranslationProvider) (w : World) : Outcome * World :=
  let uniqueFiles := collectFiles N w inputPatterns in
  if decide (length uniqueFiles = 0) then (Exited 1, w)
  else
    let '(fileDataMap, globalStringMap, totalStrings) :=
      readAll N o lang outputPattern w uniqueFiles in
    let '(sourceLang, w1) :=
      detectLanguageStep translator o (map fst globalStringMap)
        (take 10 (map fst globalStringMap)) w in
    if dryRun o then (Returned, w1)
    else
      let loaded := loadCache N w1 (resolvedCacheFile N o) in
      let t := translateMultiple H translator o lang sourceLang loaded
                 globalStringMap in
      let w2 := emitAll (batchEvents H lang sourceLang o (batchesAll t)) w1 in
      let '(saved, w3) :=
        match cacheToSave t with
        | Some cache => saveCache N cache w2 (resolvedCacheFile N o)
        | None => (true, w2)
        end in
      if saved
      then
        match writeEach N H translator o lang sourceLang
                (globalTranslations t) fileDataMap w3 with
        | (false, w4) => (Exited 1, w4)
        | (true, w4) =>
            if checkKeys o && negb (stdout o)
            then match verifyKeys N H w4 fileDataMap with
                 | Some true => (Returned, w4)
                 | _ => (Exited 1, w4)
                 end
            else (Returned, w4)
        end
      else (Exited 1, w3).

(** The state of a multi-file run at the point where the cache is saved:
    the result of steps 1 to 5. *)
Definition multiRunState (N : Node) (H : Helpers)
  (inputPatterns : list string) (lang : string)
  (outputPattern : option string) (o : Options)
  (translator : TranslationProvider) (w : World) : TranslatedAll :=
  let globalStringMap :=
    (readAll N o lang outputPattern w (collectFiles N w inputPatterns)).1.2 in
  let d :=
    detectLanguageStep translator o (map fst globalStringMap)
      (take 10 (map fst globalStringMap)) w in
  translateMultiple H translator o lang d.1
    (loadCache N d.2 (resolvedCacheFile N o)) globalStringMap.

(** The source language of a multi-file run. *)
Definition multiRunSourceLang (N : Node) (inputPatterns : list string)
  (lang : string) (outputPattern : option string) (o : Options)
  (translator : TranslationProvider) (w : World) : string :=
  let globalStringMap :=
    (readAll N o lang outputPattern w (collectFiles N w inputPatterns)).1.2 in
  (detectLanguageStep translator o (map fst globalStringMap)
     (take 10 (map fst globalStringMap)) w).1.

(** The figures the dry-run branch of [processMultipleFiles] prints:
    cached translations, new strings, estimated API calls, and the calls
    saved by de-duplication. *)
Definition dryRunReportMulti (N : Node) (H : Helpers) (o : Options)
  (lang : string) (globalStringMap : list (string * list string))
  (totalStrings : nat) (w : World) : nat * nat * nat * nat :=
  let callsWithoutDedup := ceil_div totalStrings MAX_BATCH_SIZE in
  if useCache o
  then
    let translationCache := loadCache N w (resolvedCacheFile N o) in
    let totalNewStrings :=
      length (filter (λ entry, firstHit translationCache lang
                                 (hashString H entry.1) entry.2 = None)
                globalStringMap) in
    let numBatches := ceil_div totalNewStrings MAX_BATCH_SIZE in
    (length globalStringMap - totalNewStrings, totalNewStrings, numBatches,
     callsWithoutDedup - numBatches)
  else
    let numBatches := ceil_div (length globalStringMap) MAX_BATCH_SIZE in
    (0, length globalStringMap, numBatches, callsWithoutDedup - numBatches).

(** The translation requests among the events of a run. *)
Definition isTranslate (e : Event) : bool :=
  match e with
  | EvTranslate _ _ _ _ => true
  | _ => false
  end.

Definition requestsOf (w : World) : list Event :=
  List.filter isTranslate (events w).

(** [file] is among the files recorded for [str] in [globalStringMap]. *)
Definition occurs (globalStringMap : list (string * list string))
  (str file : string) : Prop :=
  ∃ filesOfString,
    JsColl.map_get globalStringMap str = Some filesOfString
    ∧ file ∈ filesOfString.

End Pipeline.

(** ** FormatGuard *)

Module FormatGuard.

(** Modelled from the spec: [preserveFormats] and [restoreFormats] of
    [helpers.ts], which is not under src/, after section 4.2 of the
    specification.  A pattern class finds its first match in a text, as an
    offset and a length; the classes are tried in a fixed priority order,
    and what an earlier class has claimed a later class leaves alone.  Each
    match is replaced by a sentinel, the sentinels being numbered from left
    to right, and recorded next to it. *)
Definition PatternClass : Type := string → option (nat * nat).

Inductive Segment : Type :=
| Lit (text : string)
| Prot (original : string).

(** Modelled from the spec: the first match of a class, cut out of the
    text. *)
Definition splitFirst (cls : PatternClass) (text : string)
  : option (string * string * string) :=
  match cls text with
  | Some (off, len) =>
      if (0 <? len) && (off + len <=? String.length text)
      then Some (String.substring 0 off text,
                 String.substring off len text,
                 String.substring (off + len)
                   (String.length text - (off + len)) text)
      else None
  | None => None
  end.

(** Modelled from the spec: all the matches of one class in a text that no
    earlier class has claimed. *)
Fixpoint scanLit (fuel : nat) (cls : PatternClass) (text : string)
  : list Segment :=
  match fuel with
  | 0 => [Lit text]
  | S fuel' =>
      match splitFirst cls text with
      | Some (before, matched, after) =>
          Lit before :: Prot matched :: scanLit fuel' cls after
      | None => [Lit text]
      end
  end.

Definition scanClass (cls : PatternClass) (segs : list Segment)
  : list Segment :=
  concat (map (λ seg, match seg with
                      | Lit text => scanLit (String.length text) cls text
                      | Prot _ => [seg]
                      end) segs).

(** Modelled from the spec: the scan in priority order. *)
Definition scan (classes : list PatternClass) (s : string) : list Segment :=
  foldl (λ segs cls, scanClass cls segs) [Lit s] classes.

(** Modelled from the spec: the placeholder string and the recovery token,
    a list of sentinels with the substrings they stand for, in order. *)
Fixpoint render (sentinel : nat → string) (k : nat) (segs : list Segment)
  : string * list (string * string) :=
  match segs with
  | [] => (EmptyString, [])
  | Lit text :: rest =>
      let '(placeholder, token) := render sentinel k rest in
      (text ++ placeholder, token)
  | Prot original :: rest =>
      let '(placeholder, token) := render sentinel (S k) rest in
      (sentinel k ++ placeholder, (sentinel k, original) :: token)
  end.

(** Modelled from the spec: [protect(string)]. *)
Definition protect (classes : list PatternClass) (sentinel : nat → string)
  (s : string) : string * list (string * string) :=
  render sentinel 0 (scan classes s).

(** [text.replace(needle, replacement)] for a string [needle]: the first
    occurrence is replaced, and a text without one is returned as it is. *)
Fixpoint dropChars (n : nat) (s : string) : string :=
  match n, s with
  | S n', String _ rest => dropChars n' rest
  | _, _ => s
  end.

Fixpoint replaceFirst (needle replacement text : string) : string :=
  if JsString.isPrefix needle text
  then replacement ++ dropChars (String.length needle) text
  else match text with
       | EmptyString => EmptyString
       | String c rest => String c (replaceFirst needle replacement rest)
       end.

(** Modelled from the spec: [restore(placeholderString, recoveryToken)]
    substitutes the sentinels back in order; a sentinel that is missing
    inserts nothing. *)
Definition restore (placeholderString : string)
  (token : list (string * string)) : string :=
  foldl (λ text '(sentinel, original), replaceFirst sentinel original text)
    placeholderString token.

(** The text a list of segments stands for. *)
Fixpoint textOf (segs : list Segment) : string :=
  match segs with
  | [] => EmptyString
  | Lit text :: rest => text ++ textOf rest
  | Prot original :: rest => original ++ textOf rest
  end.

(** A pattern class for the examples, the templated variable: the first
    brace that is closed, up to the brace that closes it. *)
Fixpoint closingBrace (s : string) : option nat :=
  match s with
  | EmptyString => None
  | String c rest =>
      if bool_decide (c = "}"%char) then Some 0
      else match closingBrace rest with
           | Some n => Some (S n)
           | None => None
           end
  end.

Fixpoint firstBraced (s : string) : option (nat * nat) :=
  match s with
  | EmptyString => None
  | String c rest =>
      match (if bool_decide (c = "{"%char) then closingBrace rest else None)
      with
      | Some n => Some (0, S (S n))
      | None =>
          match firstBraced rest with
          | Some (off, len) => Some (S off, len)
          | None => None
          end
      end
  end.

Definition hashSentinel (k : nat) : string :=
  "#" ++ JsString.natToString k ++ "#".

End FormatGuard.

(** ** The provider factory: [TranslatorFactory] *)

Module Factory.
Import JsString.

(** [interface TranslatorConfig].  [type] is a string at run time: [main]
    passes the value of [--provider] as it is. *)
Record TranslatorConfig : Type := {
  type : option string;
  geminiApiKey : option string;
  geminiModel : option string;
  ollamaBaseUrl : option string;
  ollamaModel : option string;
  ollamaTimeout : option nat;
  openaiApiKey : option string;
  openaiModel : option string;
}.

(** The two variables of [process.env] the factory reads. *)
Record Env : Type := {
  GEMINI_API_KEY : option string;
  OPENAI_API_KEY : option string;
}.

(** Truthiness of a string that may be [undefined]. *)
Definition isTruthy (a : option string) : bool :=
  match a with
  | Some s => truthy s
  | None => false
  end.

(** [a || b] *)
Definition orElse (a b : option string) : option string :=
  if isTruthy a then a else b.

(** [TranslatorFactory.detectType(config)] *)
Definition detectType (config : TranslatorConfig) (env : Env) : string :=
  if isTruthy (geminiApiKey config) || isTruthy (GEMINI_API_KEY env)
  then "gemini"
  else if isTruthy (openaiApiKey config) || isTruthy (OPENAI_API_KEY env)
  then "openai"
  else "ollama".

(** The translator [create] returns, with the arguments of its
    constructor. *)
Inductive Translator : Type :=
| OllamaTranslator (baseUrl model : option string) (timeout : option nat)
| OpenAITranslator (apiKey : string) (modelName : option string)
| GeminiTranslator (apiKey : string) (modelName : option string).

(** The three errors [create] throws. *)
Inductive CreateError : Type :=
| OllamaNotAvailable
| OpenAIKeyNotFound
| NoProviderAvailable.

(** [TranslatorFactory.create(config)]; [ollamaAvailable] is the answer of
    [isAvailable()] of an Ollama translator with the given base URL and
    model. *)
Definition create (ollamaAvailable : option string → option string → bool)
  (env : Env) (config : TranslatorConfig) : Translator + CreateError :=
  let type :=
    if isTruthy (type config) then default "" (type config)
    else detectType config env in
  if decide (type = "ollama")
  then
    if ollamaAvailable (ollamaBaseUrl config) (ollamaModel config)
    then inl (OllamaTranslator (ollamaBaseUrl config) (ollamaModel config)
                (ollamaTimeout config))
    else inr OllamaNotAvailable
  else if decide (type = "openai")
  then
    match orElse (openaiApiKey config) (OPENAI_API_KEY env) with
    | Some openaiKey =>
        if truthy openaiKey
        then inl (OpenAITranslator openaiKey (openaiModel config))
        else inr OpenAIKeyNotFound
    | None => inr OpenAIKeyNotFound
    end
  else
    match orElse (geminiApiKey config) (GEMINI_API_KEY env) with
    | Some apiKey =>
        if truthy apiKey
        then inl (GeminiTranslator apiKey (geminiModel config))
        else inr NoProviderAvailable
    | None => inr NoProviderAvailable
    end.

(** [TranslatorFactory.listAvailableProviders()] *)
Definition listAvailableProviders
  (ollamaAvailable : option string → option string → bool) (env : Env)
  : list string :=
  (if isTruthy (GEMINI_API_KEY env) then ["gemini (API key found)"] else [])
  ++ (if isTruthy (OPENAI_API_KEY env) then ["openai (API key found)"] else [])
  ++ (if ollamaAvailable None None then ["ollama (local)"] else []).

(** The configuration [{}]. *)
Definition emptyConfig : TranslatorConfig :=
  {| type := None; geminiApiKey := None; geminiModel := None;
     ollamaBaseUrl := None; ollamaModel := None; ollamaTimeout := None;
     openaiApiKey := None; openaiModel := None |}.

End Factory.

(** ** The command line: [main] *)

Module Cli.
Import JsString Provider Store Pipeline.

(** [s.split(c)] for a one-character separator: the pieces between the
    separators, at least one. *)
Fixpoint splitOn (sep : ascii) (s : string) : list string :=
  match s with
  | EmptyString => [EmptyString]
  | String c rest =>
      if bool_decide (c = sep) then EmptyString :: splitOn sep rest
      else match splitOn sep rest with
           | piece :: pieces => String c piece :: pieces
           | [] => [String c EmptyString]
           end
  end.

Fixpoint trimEnd (s : string) : string :=
  match s with
  | EmptyString => EmptyString
  | String c rest =>
      match trimEnd rest with
      | EmptyString => if isWhiteSpace c then EmptyString
                       else String c EmptyString
      | trimmed => String c trimmed
      end
  end.

(** [s.trim()] *)
Definition trim (s : string) : string := trimEnd (trimStart s).

(** [lang.split(',').map(l => l.trim()).filter(l => l)] *)
Definition targetLanguages (lang : string) : list string :=
  List.filter truthy (map trim (splitOn "," lang)).

(** The test [main] and [processMultipleFiles] use for a glob pattern. *)
Definition isGlob (pattern : string) : bool :=
  includes "*" pattern || includes "?" pattern || includes "[" pattern.

(** [inputFiles.length === 1 && !inputFiles[0].includes('*') && ...] *)
Definition isSingleFile (inputFiles : list string) : bool :=
  match inputFiles with
  | [inputFile] => negb (isGlob inputFile)
  | _ => false
  end.

(** [`\n=== Processing language: ${targetLang} ===\n`] *)
Definition languageHeader (targetLang : string) : string :=
  String (ascii_of_nat 10)
    ("=== Processing language: " ++ targetLang ++ " ==="
     ++ String (ascii_of_nat 10) EmptyString).

(** The body of the loop over the target languages. *)
Definition processLanguage (N : Node) (H : Helpers)
  (inputFiles : list string) (output : option string) (o : Options)
  (translator : TranslationProvider) (several : bool) (targetLang : string)
  (w : World) : Outcome * World :=
  let w0 := if several then emit (EvStdout (languageHeader targetLang)) w
            else w in
  if isSingleFile inputFiles
  then processSingleFile N H (default "" (head inputFiles)) targetLang output
         o translator w0
  else processMultipleFiles N H inputFiles targetLang output o translator w0.

(** [for (const targetLang of targetLanguages) {...}]: a language whose
    processing exits ends the run. *)
Fixpoint processLanguages (N : Node) (H : Helpers)
  (inputFiles : list string) (output : option string) (o : Options)
  (translator : TranslationProvider) (several : bool)
  (languages : list string) (w : World) : Outcome * World :=
  match languages with
  | [] => (Returned, w)
  | targetLang :: rest =>
      match processLanguage N H inputFiles output o translator several
              targetLang w with
      | (Returned, w') =>
          processLanguages N H inputFiles output o translator several rest w'
      | (Exited exitCode, w') => (Exited exitCode, w')
      end
  end.

(** [main] from the parsed options on, with the translator created:
    the checks of the output options and of the language list, then the
    loop.  An empty [output] is falsy everywhere, so that it is handed on
    as absent. *)
Definition mainRun (N : Node) (H : Helpers) (inputFiles : list string)
  (lang : string) (output : option string) (o : Options)
  (translator : TranslationProvider) (w : World) : Outcome * World :=
  if negb (Factory.isTruthy output) && negb (stdout o) then (Exited 1, w)
  else if Factory.isTruthy output && stdout o then (Exited 1, w)
  else
    let languages := targetLanguages lang in
    if decide (length languages = 0) then (Exited 1, w)
    else processLanguages N H inputFiles
           (if Factory.isTruthy output then output else None) o translator
           (bool_decide (1 < length languages)) languages w.

End Cli.

(** ** The MCP server: validation of the tool arguments *)

Module McpServer.
Import JsString Cli.

(** [[a-zA-Z]] *)
Definition isLetter (c : ascii) : bool :=
  let n := code c in
  (65 <=? n) && (n <=? 90) || (97 <=? n) && (n <=? 122).

Fixpoint allLetters (s : string) : bool :=
  match s with
  | EmptyString => true
  | String c rest => isLetter c && allLetters rest
  end.

(** [[a-zA-Z]{lo,hi}] as a whole string. *)
Definition letters (lo hi : nat) (s : string) : bool :=
  allLetters s && (lo <=? String.length s) && (String.length s <=? hi).

(** [[a-zA-Z]{2,3}(-[a-zA-Z]{2,4})?] as a whole string. *)
Definition langCode (s : string) : bool :=
  match splitOn "-" s with
  | [language] => letters 2 3 language
  | [language; region] => letters 2 3 language && letters 2 4 region
  | _ => false
  end.

(** [validLangPattern.test(lang)] for
    [/^[a-zA-Z]{2,3}(-[a-zA-Z]{2,4})?(,[a-zA-Z]{2,3}(-[a-zA-Z]{2,4})?)*$/]:
    the pattern is anchored at both ends and a code holds no comma, so
    that it matches exactly the comma-separated lists of codes. *)
Definition validLangPattern (lang : string) : bool :=
  forallb langCode (splitOn "," lang).

(** [validateLanguageCode(lang)]; [None] when it throws. *)
Definition validateLanguageCode (lang : string) : option string :=
  if validLangPattern lang then Some lang else None.

(** [validateContext(context)]: [inl] is the value returned, [inr tt] the
    error. *)
Definition validateContext (context : option string)
  : option string + unit :=
  match context with
  | Some text =>
      if truthy text
      then if 1000 <? String.length text then inr tt else inl (Some text)
      else inl None
  | None => inl None
  end.

End McpServer.

(** ** What a run shows to the outside *)

Module Observe.
Import JsString Json Provider Store Pipeline.

(** The options of the same run with [--no-cache]. *)
Definition withoutCache (o : Options) : Options :=
  {| stdout := stdout o; showStats := showStats o; useCache := false;
     cacheFile := cacheFile o; detectSource := detectSource o;
     dryRun := dryRun o; shouldPreserveFormats := shouldPreserveFormats o;
     includeMetadata := includeMetadata o; sortKeys := sortKeys o;
     checkKeys := checkKeys o; context := context o |}.

(** A call of the backend. *)
Definition isBackendCall (e : Event) : Prop :=
  match e with
  | EvTranslate _ _ _ _ | EvDetectLanguage _ => True
  | _ => False
  end.

(** What the output step of [processSingleFile] can do: print the
    document, or write it to the output path. *)
Definition isSingleOutput (N : Node) (o : Options) (lang : string)
  (output : option string) (e : Event) : Prop :=
  match e with
  | EvStdout _ => stdout o = true
  | EvWriteFile path _ =>
      stdout o = false
      ∧ ∃ pattern, output = Some pattern
                   ∧ path = replaceToken N "lang" lang pattern
  | _ => False
  end.

(** What step 6 of [processMultipleFiles] can do: print, make the
    directory of an output path, or write an output path. *)
Definition isMultiOutput (N : Node) (o : Options)
  (fileDataMap : list (string * FileData)) (e : Event) : Prop :=
  match e with
  | EvStdout _ => stdout o = true
  | EvMkdir dir =>
      stdout o = false
      ∧ ∃ entry, entry ∈ fileDataMap
                 ∧ dir = path_dirname N (outputPath entry.2)
  | EvWriteFile path _ =>
      stdout o = false
      ∧ ∃ entry, entry ∈ fileDataMap ∧ path = outputPath entry.2
  | _ => False
  end.

(** The value a string leaf should end with: the translation of the
    string itself when the table has a truthy one. *)
Definition translated (hashString : string → string)
  (translations : gmap string string) (s : string) : string :=
  match translations !! hashString s with
  | Some translatedString =>
      if truthy translatedString then translatedString else s
  | None => s
  end.

(** The document with every string leaf translated, all else as it is. *)
Fixpoint translateLeaves (hashString : string → string)
  (translations : gmap string string) (v : JsonValue) : JsonValue :=
  match v with
  | JString s => JString (translated hashString translations s)
  | JArray items =>
      JArray (map (translateLeaves hashString translations) items)
  | JObject fields =>
      JObject (map (λ kc, (kc.1, translateLeaves hashString translations kc.2))
                 fields)
  | _ => v
  end.

(** A key that the flattened path encodes without loss: it holds neither
    the separator nor the character that stands for a dot. *)
Definition cleanKey (k : string) : bool :=
  negb (includes (ascii_of_nat 0) k)
  && negb (includes Reconstruct.DOT_ESCAPE k).

Fixpoint cleanDocument (v : JsonValue) : bool :=
  match v with
  | JArray items => forallb cleanDocument items
  | JObject fields =>
      forallb (λ kc, cleanKey kc.1 && cleanDocument kc.2) fields
  | _ => true
  end.

End Observe.

(** ** A small concrete platform, backend and file system

    Used to run the pipeline on explicit inputs.  The texts of the files
    are names; [demoParse] maps each to the document it stands for. *)

Module Demo.
Import JsString Json Reconstruct Batch Provider Store Pipeline FormatGuard.

Definition demoHash (s : string) : string := "h(" ++ s ++ ")".

Definition demoHelpers : Helpers :=
  {| hashString := demoHash;
     PreservedFormat := string * list (string * string);
     preserveFormats := protect [firstBraced] hashSentinel;
     processed := fst;
     restoreFormats := λ text preserved, restore text preserved.2;
     sortObjectKeys := λ v, v;
     compareKeysIsValid := λ _ _, true |}.

(** [{"[x]": "Hello", "b": "Hello"}] *)
Definition docTwice : JsonValue :=
  JObject [("[x]", JString "Hello"); ("b", JString "Hello")].

(** [{"[x]": "Hello"}] *)
Definition docBracket : JsonValue :=
  JObject [("[x]", JString "Hello")].

(** [{"[x]": "Hello", "NaN": "World"}] *)
Definition docShadow : JsonValue :=
  JObject [("[x]", JString "Hello"); ("NaN", JString "World")].

(** [{"x": "Save"}] and [{"y": "Save", "z": "Open"}] *)
Definition docA : JsonValue := JObject [("x", JString "Save")].
Definition docB : JsonValue :=
  JObject [("y", JString "Save"); ("z", JString "Open")].

(** A cache that knows "Hello" for [/i18n/shadow.json] in Spanish. *)
Definition cacheHello : TranslationCache :=
  {[ "/i18n/shadow.json" := {[ "es" := {[ demoHash "Hello" := "Hola" ]} ]} ]}.

(** A cache with an entry for a string that [/i18n/a.json] no longer has,
    and the translation of "Save" under [/i18n/b.json] only. *)
Definition cacheStale : TranslationCache :=
  {[ "/i18n/a.json" := {[ "es" := {[ demoHash "Old" := "Viejo" ]} ]};
     "/i18n/b.json" := {[ "es" := {[ demoHash "Save" := "Guardar" ]} ]} ]}.

Definition demoParse (text : string) : option JsonValue :=
  if decide (text = "<twice.json>") then Some docTwice
  else if decide (text = "<bracket.json>") then Some docBracket
  else if decide (text = "<shadow.json>") then Some docShadow
  else if decide (text = "<a.json>") then Some docA
  else if decide (text = "<b.json>") then Some docB
  else None.

Definition demoParseCache (text : string) : option TranslationCache :=
  if decide (text = "<cache hello>") then Some cacheHello
  else if decide (text = "<cache stale>") then Some cacheStale
  else None.

(** A serialisation for the demo: strings in quotes ['], containers in
    brackets. *)
Fixpoint demoStringify (v : JsonValue) : string :=
  match v with
  | JNull => "null"
  | JBool b => if b then "true" else "false"
  | JNumber n => numberToString (Some n)
  | JString s => "'" ++ s ++ "'"
  | JArray items =>
      "[" ++ join "," (map demoStringify items) ++ "]"
  | JObject fields =>
      "{" ++ join ","
               ((fix go (l : list (string * JsonValue)) : list string :=
                   match l with
                   | [] => []
                   | (k, c) :: l' => ("'" ++ k ++ "':" ++ demoStringify c) :: go l'
                   end) fields)
          ++ "}"
  end.

Definition demoStringifyCache (cache : TranslationCache) : string :=
  join ";"
    (map (λ '(file, fileCache),
            file ++ "{" ++
            join ";"
              (map (λ '(lang, langCache),
                      lang ++ "{" ++
                      join ";" (map (λ '(h, t), h ++ "=" ++ t)
                                  (map_to_list langCache)) ++ "}")
                 (map_to_list (fileCache : gmap string (gmap string string))))
            ++ "}")
       (map_to_list cache)).

(** [subject.replace(/needle/g, value)] for a literal [needle] and a
    [value] without replacement patterns. *)
Fixpoint replaceAll (fuel : nat) (needle value subject : string) : string :=
  match fuel with
  | 0 => subject
  | S fuel' =>
      if isPrefix needle subject
      then value ++ replaceAll fuel' needle value
                      (dropChars (String.length needle) subject)
      else match subject with
           | EmptyString => EmptyString
           | String c rest => String c (replaceAll fuel' needle value rest)
           end
  end.

(** The directory and the base name of an absolute path. *)
Fixpoint splitPath (dir name p : string) : string * string :=
  match p with
  | EmptyString => (dir, name)
  | String c rest =>
      if bool_decide (c = "/"%char)
      then splitPath (dir ++ (if bool_decide (dir = "") then "" else "/") ++ name)
             "" rest
      else splitPath dir (name ++ String c "") rest
  end.

Definition demoDirname (p : string) : string := "/" ++ (splitPath "" "" p).1.
Definition demoBasename (p : string) : string := (splitPath "" "" p).2.

Fixpoint stripSuffix (ext s : string) : string :=
  if bool_decide (s = ext) then ""
  else match s with
       | EmptyString => EmptyString
       | String c rest => String c (stripSuffix ext rest)
       end.

Definition demoNode : Node :=
  {| path_resolve := λ p, p;
     path_isAbsolute := λ p, startsWith "/" p;
     path_dirname := demoDirname;
     path_basename := demoBasename;
     path_basename_ext := λ p ext, stripSuffix ext (demoBasename p);
     path_join := λ dir name, dir ++ "/" ++ name;
     glob := λ _ pattern,
       if decide (pattern = "/i18n/*.json")
       then ["/i18n/a.json"; "/i18n/b.json"] else [];
     JSON_parse := demoParse;
     JSON_stringify := demoStringify;
     parseCache := demoParseCache;
     stringifyCache := demoStringifyCache;
     replaceToken := λ token value subject,
       replaceAll (S (String.length subject)) ("{" ++ token ++ "}") value
         subject;
     timestamp := "2025-01-01T00:00:00.000Z" |}.

(** The platform with a parser that reads back what [demoStringifyCache]
    writes for [cacheHello]. *)
Definition roundTripNode : Node :=
  {| path_resolve := path_resolve demoNode;
     path_isAbsolute := path_isAbsolute demoNode;
     path_dirname := path_dirname demoNode;
     path_basename := path_basename demoNode;
     path_basename_ext := path_basename_ext demoNode;
     path_join := path_join demoNode;
     glob := glob demoNode;
     JSON_parse := demoParse;
     JSON_stringify := demoStringify;
     parseCache := λ text,
       if decide (text = demoStringifyCache cacheHello) then Some cacheHello
       else demoParseCache text;
     stringifyCache := demoStringifyCache;
     replaceToken := replaceToken demoNode;
     timestamp := timestamp demoNode |}.

(** A cache that knows "Save" for [/i18n/a.json] in Spanish, and the
    platform that reads it from the text [<cache save>]. *)
Definition cacheSave : TranslationCache :=
  {[ "/i18n/a.json" := {[ "es" := {[ demoHash "Save" := "Guardar" ]} ]} ]}.

Definition cachedNode : Node :=
  {| path_resolve := path_resolve demoNode;
     path_isAbsolute := path_isAbsolute demoNode;
     path_dirname := path_dirname demoNode;
     path_basename := path_basename demoNode;
     path_basename_ext := path_basename_ext demoNode;
     path_join := path_join demoNode;
     glob := glob demoNode;
     JSON_parse := demoParse;
     JSON_stringify := demoStringify;
     parseCache := λ text,
       if decide (text = "<cache save>") then Some cacheSave
       else demoParseCache text;
     stringifyCache := demoStringifyCache;
     replaceToken := replaceToken demoNode;
     timestamp := timestamp demoNode |}.

(** A backend that knows four words and answers every other string with
    itself in angle brackets. *)
Definition demoWord (s : string) : JsonValue :=
  if decide (s = "Hello") then JString "Hola"
  else if decide (s = "World") then JString "Mundo"
  else if decide (s = "Save") then JString "Guardar"
  else if decide (s = "Open") then JString "Abrir"
  else JString ("<" ++ s ++ ">").

Definition goodReply (requestNo : nat) (strings : list string) : RawReply :=
  Parsed (map demoWord strings).

(** A backend that drops the last translation of every response. *)
Definition shortReply (requestNo : nat) (strings : list string) : RawReply :=
  Parsed (map demoWord (take (length strings - 1) strings)).

Definition goodBackend : TranslationProvider :=
  validatingProvider "demo" goodReply None.

Definition shortBackend : TranslationProvider :=
  validatingProvider "demo" shortReply None.

Definition demoOptions (cache : bool) : Options :=
  {| stdout := false; showStats := false; useCache := cache;
     cacheFile := "/cache.json"; detectSource := false; dryRun := false;
     shouldPreserveFormats := false; includeMetadata := false;
     sortKeys := false; checkKeys := false; context := None |}.

Definition dryOptions : Options :=
  {| stdout := false; showStats := false; useCache := true;
     cacheFile := "/cache.json"; detectSource := false; dryRun := true;
     shouldPreserveFormats := false; includeMetadata := false;
     sortKeys := false; checkKeys := false; context := None |}.

Definition demoWorld (cacheText : option string) : World :=
  {| files :=
       let docs : gmap string File :=
         {[ "/i18n/twice.json" := Readable "<twice.json>";
            "/i18n/bracket.json" := Readable "<bracket.json>";
            "/i18n/shadow.json" := Readable "<shadow.json>";
            "/i18n/a.json" := Readable "<a.json>";
            "/i18n/b.json" := Readable "<b.json>";
            "/i18n" := Directory; "/out" := Directory;
            "/" := Directory ]} in
       match cacheText with
       | Some text => <["/cache.json" := Readable text]> docs
       | None => docs
       end;
     events := [] |}.

(** The file system with a directory where the cache file should be. *)
Definition directoryWorld : World :=
  {| files := <["/cache.json" := Directory]> (files (demoWorld None));
     events := [] |}.

End Demo.

(** * Properties *)

Local Open Scope list_scope.

(** ** Insertion-ordered collections *)

Module JsCollFacts.
Import JsColl.

Lemma elem_of_set_add s x y : y ∈ set_add s x ↔ y ∈ s ∨ y = x.
Proof.
  unfold set_add. case_decide as Hin.
  - split; [by left|]. intros [?| ->]; done.
  - rewrite elem_of_app, list_elem_of_singleton. done.
Qed.

Lemma NoDup_set_add s x : NoDup s → NoDup (set_add s x).
Proof.
  intros Hs. unfold set_add. case_decide as Hin; [done|].
  apply NoDup_app. split; [done|]. split.
  - intros y Hy Hy'. apply list_elem_of_singleton in Hy'. by subst.
  - apply NoDup_singleton.
Qed.

Lemma foldl_set_add_spec xs acc :
  NoDup acc →
  NoDup (foldl set_add acc xs) ∧
  ∀ y, y ∈ foldl set_add acc xs ↔ y ∈ acc ∨ y ∈ xs.
Proof.
  revert acc. induction xs as [|x xs IH]; intros acc Hacc; simpl.
  - split; [done|]. intros y. rewrite elem_of_nil. tauto.
  - destruct (IH (set_add acc x) (NoDup_set_add _ _ Hacc)) as [H1 H2].
    split; [done|]. intros y. rewrite H2, elem_of_set_add, elem_of_cons. tauto.
Qed.

Lemma NoDup_set_of xs : NoDup (set_of xs).
Proof. apply foldl_set_add_spec, NoDup_nil_2. Qed.

Lemma elem_of_set_of xs y : y ∈ set_of xs ↔ y ∈ xs.
Proof.
  unfold set_of.
  destruct (foldl_set_add_spec xs [] (NoDup_nil_2)) as [_ H].
  rewrite H, elem_of_nil. tauto.
Qed.

(** Adding the elements of a duplicate-free list to a set they are not in
    appends them in order. *)
Lemma foldl_set_add_fresh xs acc :
  NoDup (acc ++ xs)%list → foldl set_add acc xs = (acc ++ xs)%list.
Proof.
  revert acc. induction xs as [|x xs IH]; intros acc Hnd; simpl.
  - by rewrite app_nil_r.
  - assert (Hx : x ∉ acc).
    { apply NoDup_app in Hnd as (_ & Hdisj & _). intros Hin.
      apply (Hdisj x Hin). by left. }
    unfold set_add at 2. rewrite decide_False by done.
    rewrite IH; rewrite <- app_assoc; done.
Qed.

Lemma set_of_NoDup xs : NoDup xs → set_of xs = xs.
Proof. intros H. unfold set_of. by rewrite foldl_set_add_fresh. Qed.

Lemma elem_of_concat {A} (x : A) (ls : list (list A)) :
  x ∈ concat ls ↔ ∃ l, l ∈ ls ∧ x ∈ l.
Proof.
  rewrite list_elem_of_In, in_concat. split.
  - intros (l & Hl & Hx). exists l. by rewrite !list_elem_of_In.
  - intros (l & Hl & Hx). exists l. by rewrite <- !list_elem_of_In.
Qed.

Lemma map_fmap {A B} (f : A → B) (l : list A) : map f l = f <$> l.
Proof. reflexivity. Qed.

Section MapFacts.
Context {V : Type}.
Implicit Types m : list (string * V).

Lemma map_get_set_eq m k v : map_get (map_set m k v) k = Some v.
Proof.
  induction m as [|[k' v'] m IH]; simpl.
  - by rewrite decide_True.
  - case_decide as Hk; simpl.
    + by rewrite decide_True.
    + by rewrite decide_False.
Qed.

Lemma map_get_set_ne m k k' v :
  k ≠ k' → map_get (map_set m k v) k' = map_get m k'.
Proof.
  intros Hne. induction m as [|[k0 v0] m IH]; simpl.
  - by rewrite decide_False.
  - case_decide as Hk; simpl.
    + subst. by rewrite !decide_False.
    + by rewrite IH.
Qed.

Lemma map_get_Some_elem m k v : map_get m k = Some v → (k, v) ∈ m.
Proof.
  induction m as [|[k' v'] m IH]; simpl; [done|].
  case_decide as Hk.
  - intros [= ->]. subst. apply list_elem_of_here.
  - intros H. apply list_elem_of_further. by apply IH.
Qed.

Lemma map_get_None m k : map_get m k = None ↔ k ∉ map fst m.
Proof.
  induction m as [|[k' v'] m IH]; simpl.
  - split; [intros _; apply not_elem_of_nil|done].
  - rewrite not_elem_of_cons. case_decide as Hk.
    + split; [done|]. intros [Hne _]. by destruct Hne.
    + rewrite IH. split; [by intros ?; split|by intros [_ ?]].
Qed.

Lemma elem_map_get m k v :
  NoDup (map fst m) → (k, v) ∈ m → map_get m k = Some v.
Proof.
  induction m as [|[k' v'] m IH]; simpl; [by intros _ ?%elem_of_nil|].
  intros Hnd Hin. apply NoDup_cons in Hnd as [Hk' Hnd].
  apply elem_of_cons in Hin as [[= <- <-]|Hin].
  - by rewrite decide_True.
  - rewrite decide_False; [by apply IH|].
    intros ->. apply Hk'. rewrite map_fmap. apply list_elem_of_fmap. by exists (k, v).
Qed.

Lemma map_set_keys m k v :
  map fst (map_set m k v)
  = if decide (k ∈ map fst m) then map fst m else map fst m ++ [k].
Proof.
  induction m as [|[k' v'] m IH].
  - destruct (decide (k ∈ map fst [])) as [Hin|_]; [|done].
    by apply elem_of_nil in Hin.
  - cbn [map_set]. destruct (decide (k' = k)) as [->|Hk].
    + destruct (decide (k ∈ map fst ((k, v') :: m))) as [|Hnin];
        [reflexivity|].
      destruct Hnin. apply list_elem_of_here.
    + cbn [map fst]. rewrite IH.
      destruct (decide (k ∈ map fst m)) as [Hin|Hnin];
        destruct (decide (k ∈ k' :: map fst m)) as [Hin'|Hnin']; try done.
      * destruct Hnin'. by apply list_elem_of_further.
      * apply elem_of_cons in Hin' as [->|?]; done.
Qed.

Lemma NoDup_map_set_keys m k v :
  NoDup (map fst m) → NoDup (map fst (map_set m k v)).
Proof.
  intros Hnd. rewrite map_set_keys. case_decide as Hin; [done|].
  apply NoDup_app. split; [done|]. split; [|apply NoDup_singleton].
  intros y Hy Hy'. apply list_elem_of_singleton in Hy'. by subst.
Qed.

End MapFacts.

End JsCollFacts.
(** ** JavaScript strings: concatenation, and numbers printed and read back *)

Module JsStringFacts.
Import JsString.

Lemma append_cons c (s t : string) : String c s +:+ t = String c (s +:+ t).
Proof. reflexivity. Qed.

Lemma append_nil_l (t : string) : "" +:+ t = t.
Proof. reflexivity. Qed.

Lemma append_nil_r (s : string) : s +:+ "" = s.
Proof. induction s as [|c s IH]; [done|by rewrite append_cons, IH]. Qed.

Lemma append_assoc (a b c : string) : (a +:+ b) +:+ c = a +:+ (b +:+ c).
Proof.
  induction a as [|x a IH]; [done|by rewrite !append_cons, IH].
Qed.

Lemma small_digit (d : N) :
  (d < 10)%N →
  d = 0%N ∨ d = 1%N ∨ d = 2%N ∨ d = 3%N ∨ d = 4%N ∨ d = 5%N ∨ d = 6%N
  ∨ d = 7%N ∨ d = 8%N ∨ d = 9%N.
Proof. lia. Qed.

Lemma digitValue_digit (d : N) :
  (d < 10)%N → digitValue 10 (ascii_of_N (48 + d)) = Some d.
Proof.
  intros Hd. destruct (small_digit d Hd) as
    [->|[->|[->|[->|[->|[->|[->|[->|[->| ->]]]]]]]]]; reflexivity.
Qed.

(** Reading the printed digits of [n] gives [n] back. *)
Lemma parseDigits_digitsOf (fuel : nat) :
  ∀ (n : N) (rest : string) (seen : bool),
    (n < 2 ^ N.of_nat (S fuel))%N →
    parseDigits 10 seen 0 (digitsOf (S fuel) n rest)
    = parseDigits 10 true n rest.
Proof.
  induction fuel as [|fuel IH]; intros n rest seen Hn.
  - assert (n < 10)%N as Hlt by (change (2 ^ N.of_nat 1)%N with 2%N in Hn; lia).
    cbn [digitsOf]. apply N.ltb_lt in Hlt as Hb. rewrite Hb.
    cbn [parseDigits]. rewrite digitValue_digit by (apply N.mod_lt; lia).
    rewrite N.mod_small by done. done.
  - change (digitsOf (S (S fuel)) n rest)
      with (if (n <? 10)%N then String (ascii_of_N (48 + n mod 10)) rest
            else digitsOf (S fuel) (n / 10)
                   (String (ascii_of_N (48 + n mod 10)) rest)).
    destruct (n <? 10)%N eqn:Hb.
    + apply N.ltb_lt in Hb. cbn [parseDigits].
      rewrite digitValue_digit by (apply N.mod_lt; lia).
      rewrite N.mod_small by done. done.
    + apply N.ltb_ge in Hb. rewrite IH.
      * cbn [parseDigits]. rewrite digitValue_digit by (apply N.mod_lt; lia).
        f_equal. rewrite (N.div_mod n 10) at 3 by lia. lia.
      * apply N.Div0.div_lt_upper_bound.
        rewrite Nat2N.inj_succ, N.pow_succ_r' in Hn. lia.
Qed.

(** The printed form starts with a digit, and with [0] only for zero. *)
Lemma digitsOf_head (fuel : nat) :
  ∀ (n : N) (rest : string),
    (n < 2 ^ N.of_nat (S fuel))%N →
    ∃ (d : N) (rest' : string),
      digitsOf (S fuel) n rest = String (ascii_of_N (48 + d)) rest'
      ∧ (d < 10)%N ∧ (d = 0%N → n = 0%N ∧ rest' = rest).
Proof.
  induction fuel as [|fuel IH]; intros n rest Hn.
  - assert (n < 10)%N as Hlt by (change (2 ^ N.of_nat 1)%N with 2%N in Hn; lia).
    cbn [digitsOf]. apply N.ltb_lt in Hlt as Hb. rewrite Hb.
    exists n, rest. rewrite N.mod_small by done. done.
  - change (digitsOf (S (S fuel)) n rest)
      with (if (n <? 10)%N then String (ascii_of_N (48 + n mod 10)) rest
            else digitsOf (S fuel) (n / 10)
                   (String (ascii_of_N (48 + n mod 10)) rest)).
    destruct (n <? 10)%N eqn:Hb.
    + apply N.ltb_lt in Hb. exists n, rest.
      rewrite N.mod_small by done. done.
    + apply N.ltb_ge in Hb.
      destruct (IH (n / 10)%N (String (ascii_of_N (48 + n mod 10)) rest))
        as (d & rest' & Heq & Hd & Hzero).
      * apply N.Div0.div_lt_upper_bound.
        rewrite Nat2N.inj_succ, N.pow_succ_r' in Hn. lia.
      * exists d, rest'. split; [done|]. split; [done|].
        intros Hd0. destruct (Hzero Hd0) as [Hq _].
        assert (1 <= n / 10)%N by (apply N.div_le_lower_bound; lia). lia.
Qed.

Lemma nToString_fuel (n : N) : (n < 2 ^ N.of_nat (S (N.to_nat (N.log2 n))))%N.
Proof.
  rewrite Nat2N.inj_succ, N2Nat.id.
  destruct (decide (n = 0%N)) as [->|Hn]; [done|].
  apply N.log2_spec. lia.
Qed.

Lemma parseDigits_nToString (n : N) (seen : bool) :
  parseDigits 10 seen 0 (nToString n) = (true, n).
Proof. unfold nToString. by rewrite parseDigits_digitsOf by apply nToString_fuel. Qed.

Lemma trimStart_head (c : ascii) (rest : string) :
  isWhiteSpace c = false → trimStart (String c rest) = String c rest.
Proof. intros Hc. cbn [trimStart]. by rewrite Hc. Qed.

(** [parseInt(String(n)) === n]. *)
Lemma parseInt_nToString (n : N) : parseInt (nToString n) = Some (Z.of_N n).
Proof.
  pose proof (parseDigits_nToString n false) as Hparse.
  destruct (digitsOf_head _ n "" (nToString_fuel n))
    as (d & rest' & Heq & Hd & Hzero).
  fold (nToString n) in Heq. unfold parseInt. rewrite Heq in *.
  destruct (small_digit d Hd) as
    [->|[->|[->|[->|[->|[->|[->|[->|[->| ->]]]]]]]]];
    [destruct (Hzero eq_refl) as [-> ->]; reflexivity|..];
    rewrite trimStart_head by reflexivity;
    match type of Hparse with
    | context [ascii_of_N ?k] =>
        let c := eval vm_compute in (ascii_of_N k) in
        change (ascii_of_N k) with c in *
    end; cbv beta iota; by rewrite Hparse.
Qed.

Lemma dropLast_snoc (s : string) (c : ascii) :
  dropLast (s +:+ String c "") = s.
Proof.
  induction s as [|x s IH]; [done|].
  rewrite append_cons. cbn [dropLast].
  destruct (s +:+ String c "") eqn:Hs.
  - by destruct s.
  - by rewrite IH.
Qed.

Lemma endsWith_snoc (s : string) (c : ascii) :
  endsWith c (s +:+ String c "") = true.
Proof.
  induction s as [|x s IH].
  - rewrite append_nil_l. cbn [endsWith]. by apply bool_decide_eq_true.
  - rewrite append_cons. cbn [endsWith].
    destruct (s +:+ String c "") eqn:Hs; [by destruct s|done].
Qed.

Lemma arrayIndex_nToString (n : N) :
  (n < indexLimit)%N → arrayIndex (nToString n) = Some (N.to_nat n).
Proof.
  intros Hn. unfold arrayIndex. rewrite parseDigits_nToString.
  rewrite bool_decide_eq_true_2 by done.
  apply N.ltb_lt in Hn. by rewrite Hn.
Qed.

End JsStringFacts.

(** ** BatchScheduler *)

Module BatchFacts.
Import Batch.

Lemma ceil_div_zero b : ceil_div 0 b = 0.
Proof.
  unfold ceil_div. destruct b as [|b]; [reflexivity|].
  apply Nat.div_small. lia.
Qed.

Lemma ceil_div_bounds a b :
  0 < b → a ≤ b * ceil_div a b ∧ b * ceil_div a b < a + b.
Proof.
  intros Hb. unfold ceil_div.
  pose proof (Nat.div_mod (a + b - 1) b ltac:(lia)) as Hdm.
  pose proof (Nat.mod_upper_bound (a + b - 1) b ltac:(lia)) as Hm.
  lia.
Qed.

Lemma ceil_div_unique a b q :
  0 < b → a ≤ b * q → b * q < a + b → ceil_div a b = q.
Proof.
  intros Hb H1 H2. destruct (ceil_div_bounds a b Hb) as [H3 H4].
  destruct (Nat.lt_trichotomy (ceil_div a b) q) as [Hlt|[Heq|Hgt]]; [|done|].
  - assert (b * S (ceil_div a b) ≤ b * q) by (apply Nat.mul_le_mono_l; lia). lia.
  - assert (b * S q ≤ b * ceil_div a b) by (apply Nat.mul_le_mono_l; lia). lia.
Qed.

Lemma ceil_div_pos a b : 0 < a → 0 < b → 0 < ceil_div a b.
Proof.
  intros Ha Hb. destruct (ceil_div_bounds a b Hb) as [H1 _].
  destruct (ceil_div a b); lia.
Qed.

Lemma ceil_div_step a b :
  0 < a → 0 < b → ceil_div a b = S (ceil_div (a - b) b).
Proof.
  intros Ha Hb. destruct (le_lt_dec b a) as [Hba|Hba].
  - destruct (ceil_div_bounds (a - b) b Hb) as [H1 H2].
    apply ceil_div_unique; [done|..]; rewrite Nat.mul_succ_r; lia.
  - replace (a - b) with 0 by lia. rewrite ceil_div_zero.
    apply ceil_div_unique; lia.
Qed.

Lemma ceil_div_le_of_mul a b q : 0 < b → a ≤ b * q → ceil_div a b ≤ q.
Proof.
  intros Hb H. destruct (ceil_div_bounds a b Hb) as [H1 H2].
  destruct (le_lt_dec (ceil_div a b) q) as [|Hgt]; [done|].
  assert (b * S q ≤ b * ceil_div a b) by (apply Nat.mul_le_mono_l; lia). lia.
Qed.

Lemma ceil_div_anti a b c : 0 < b → b ≤ c → ceil_div a c ≤ ceil_div a b.
Proof.
  intros Hb Hbc. apply ceil_div_le_of_mul; [lia|].
  destruct (ceil_div_bounds a b Hb) as [H1 _].
  etrans; [exact H1|]. apply Nat.mul_le_mono_r. done.
Qed.

Lemma length_slice {A} (arr : list A) i j :
  length (slice arr i j) = Nat.min (j - i) (length arr - i).
Proof. unfold slice. rewrite length_take, length_drop. done. Qed.

Lemma slice_loop_sizes {A} fuel (arr : list A) i step :
  map length (slice_loop fuel arr i step) = sizes_loop fuel (length arr) i step.
Proof.
  revert i. induction fuel as [|fuel IH]; intros i; simpl; [done|].
  case_decide; simpl; [|done].
  rewrite length_slice, IH. do 2 f_equal. lia.
Qed.

Lemma slice_loop_concat {A} fuel (arr : list A) i step :
  0 < step → length arr - i < fuel →
  concat (slice_loop fuel arr i step) = drop i arr.
Proof.
  intros Hstep. revert i. induction fuel as [|fuel IH]; intros i Hfuel; [lia|].
  simpl. case_decide as Hi; simpl.
  - rewrite IH by lia. unfold slice.
    replace (i + step - i) with step by lia.
    rewrite <- (take_drop step (drop i arr)) at 2.
    f_equal. rewrite drop_drop. done.
  - rewrite drop_ge by lia. done.
Qed.

Lemma slice_loop_length {A} fuel (arr : list A) i step :
  0 < step → length arr - i < fuel →
  length (slice_loop fuel arr i step) = ceil_div (length arr - i) step.
Proof.
  intros Hstep. revert i. induction fuel as [|fuel IH]; intros i Hfuel; [lia|].
  simpl. case_decide as Hi; simpl.
  - rewrite IH by lia. rewrite (ceil_div_step (length arr - i) step) by lia.
    do 2 f_equal. lia.
  - replace (length arr - i) with 0 by lia. by rewrite ceil_div_zero.
Qed.

Lemma slice_loop_shape {A} fuel (arr : list A) i step k b :
  0 < step →
  slice_loop fuel arr i step !! k = Some b →
  1 ≤ length b ≤ step ∧
  (S k < length (slice_loop fuel arr i step) → length b = step).
Proof.
  intros Hstep. revert i k. induction fuel as [|fuel IH]; intros i k; simpl; [done|].
  case_decide as Hi; [|done].
  destruct k as [|k]; simpl.
  - intros [= <-]. rewrite length_slice. split; [lia|].
    intros Hmore. destruct fuel as [|fuel]; simpl in Hmore; [lia|].
    case_decide; simpl in Hmore; lia.
  - intros Hb. destruct (IH _ _ Hb) as [H1 H2]. split; [done|].
    intros Hmore. apply H2. lia.
Qed.

Lemma dynamicBatchSize_bounds {A} (arr : list A) :
  0 < length arr →
  1 ≤ dynamicBatchSize arr ≤ MAX_BATCH_SIZE ∧
  ceil_div (length arr) (dynamicBatchSize arr) = numBatches arr.
Proof.
  intros Hn. unfold dynamicBatchSize, numBatches.
  set (n := length arr) in *.
  assert (Hmax : 0 < MAX_BATCH_SIZE) by (unfold MAX_BATCH_SIZE; lia).
  pose proof (ceil_div_pos n MAX_BATCH_SIZE Hn Hmax) as Hk.
  set (k := ceil_div n MAX_BATCH_SIZE) in *.
  pose proof (ceil_div_pos n k Hn Hk) as Hd.
  destruct (ceil_div_bounds n MAX_BATCH_SIZE Hmax) as [Hk1 Hk2]. fold k in Hk1, Hk2.
  assert (Hd100 : ceil_div n k ≤ MAX_BATCH_SIZE).
  { apply ceil_div_le_of_mul; [done|]. lia. }
  split; [lia|].
  apply Nat.le_antisymm.
  - apply ceil_div_le_of_mul; [done|].
    destruct (ceil_div_bounds n k Hk) as [H1 _]. lia.
  - apply ceil_div_anti; done.
Qed.

Lemma multiFileBatch_take {A} (arr : list A) i :
  multiFileBatch arr i = take MAX_BATCH_SIZE (drop (i * MAX_BATCH_SIZE) arr).
Proof.
  unfold multiFileBatch, slice.
  destruct (le_lt_dec (i * MAX_BATCH_SIZE + MAX_BATCH_SIZE) (length arr)).
  - f_equal. lia.
  - rewrite !take_ge; [done|rewrite length_drop; lia..].
Qed.

Lemma multiFile_concat_prefix {A} (arr : list A) k :
  concat (map (multiFileBatch arr) (seq 0 k)) = take (k * MAX_BATCH_SIZE) arr.
Proof.
  induction k as [|k IH]; [done|].
  rewrite seq_S, map_app, concat_app, IH. cbn [map concat].
  rewrite app_nil_r, multiFileBatch_take, take_take_drop. f_equal. lia.
Qed.

Lemma multiFileBatches_shape {A} (arr : list A) :
  length (multiFileBatches arr) = ceil_div (length arr) MAX_BATCH_SIZE ∧
  concat (multiFileBatches arr) = arr ∧
  ∀ k b, multiFileBatches arr !! k = Some b → 1 ≤ length b ≤ MAX_BATCH_SIZE.
Proof.
  assert (Hmax : 0 < MAX_BATCH_SIZE) by (unfold MAX_BATCH_SIZE; lia).
  unfold multiFileBatches. case_decide as Hn.
  - destruct (ceil_div_bounds (length arr) MAX_BATCH_SIZE Hmax) as [H1 H2].
    split; [by rewrite length_map, length_seq|]. split.
    + rewrite multiFile_concat_prefix. apply take_ge. unfold numBatches. lia.
    + intros k b Hb. change (map ?f ?l) with (f <$> l) in Hb.
      rewrite list_lookup_fmap in Hb.
      destruct (seq 0 (numBatches arr) !! k) as [i|] eqn:Hi; [|done].
      apply lookup_seq in Hi as [-> Hk]. simpl in Hb. injection Hb as <-.
      rewrite multiFileBatch_take, length_take, length_drop.
      unfold numBatches in Hk.
      assert (k * MAX_BATCH_SIZE < length arr); [|lia].
      assert (MAX_BATCH_SIZE * S k ≤ MAX_BATCH_SIZE * ceil_div (length arr) MAX_BATCH_SIZE)
        by (apply Nat.mul_le_mono_l; lia).
      lia.
  - assert (length arr = 0) as Hz by lia. rewrite Hz, ceil_div_zero.
    destruct arr; [|done]. split; [done|]. split; [done|]. intros k b. by rewrite lookup_nil.
Qed.

Lemma singleFileBatches_shape {A} (arr : list A) :
  length (singleFileBatches arr) = ceil_div (length arr) MAX_BATCH_SIZE ∧
  concat (singleFileBatches arr) = arr ∧
  ∀ k b, singleFileBatches arr !! k = Some b →
    1 ≤ length b ≤ dynamicBatchSize arr ∧
    (S k < length (singleFileBatches arr) → length b = dynamicBatchSize arr).
Proof.
  unfold singleFileBatches. case_decide as Hn.
  - destruct (dynamicBatchSize_bounds arr Hn) as [[Hd1 Hd2] Hk].
    split; [|split].
    + rewrite slice_loop_length by lia. rewrite Nat.sub_0_r. exact Hk.
    + rewrite slice_loop_concat by lia. done.
    + intros k b Hb. eapply slice_loop_shape; [lia|exact Hb].
  - assert (length arr = 0) as Hz by lia. rewrite Hz, ceil_div_zero.
    destruct arr; [|done]. split; [done|]. split; [done|]. intros k b. by rewrite lookup_nil.
Qed.

End BatchFacts.

(** ** The claims about the batches *)

Module SchedulerClaims.
Import Batch BatchFacts.

(** C2, as amended.  In both paths the scheduler makes
    [ceil(N / 100)] batches that split the miss strings in order, none
    empty and none larger than 100.  In the single-file path every batch
    has the size [ceil(N / ceil(N / 100))], except the last, which may be
    smaller. *)
Theorem batches_shape {A : Type} (stringsArray : list A) :
  (length (singleFileBatches stringsArray)
   = ceil_div (length stringsArray) MAX_BATCH_SIZE
   ∧ concat (singleFileBatches stringsArray) = stringsArray
   ∧ dynamicBatchSize stringsArray
     = ceil_div (length stringsArray)
         (ceil_div (length stringsArray) MAX_BATCH_SIZE)
   ∧ dynamicBatchSize stringsArray ≤ MAX_BATCH_SIZE
   ∧ ∀ k batch, singleFileBatches stringsArray !! k = Some batch →
       1 ≤ length batch ≤ dynamicBatchSize stringsArray
       ∧ (S k < length (singleFileBatches stringsArray) →
          length batch = dynamicBatchSize stringsArray))
  ∧ (length (multiFileBatches stringsArray)
     = ceil_div (length stringsArray) MAX_BATCH_SIZE
     ∧ concat (multiFileBatches stringsArray) = stringsArray
     ∧ ∀ k batch, multiFileBatches stringsArray !! k = Some batch →
         1 ≤ length batch ≤ MAX_BATCH_SIZE).
Proof.
  split.
  - destruct (singleFileBatches_shape stringsArray) as (Hlen & Hcat & Hshape).
    split; [done|]. split; [done|]. split; [done|]. split; [|done].
    destruct (decide (0 < length stringsArray)) as [Hn|Hn].
    + apply (dynamicBatchSize_bounds stringsArray Hn).
    + assert (length stringsArray = 0) as Hz by lia.
      unfold dynamicBatchSize, numBatches. rewrite Hz, ceil_div_zero.
      unfold ceil_div. cbn. lia.
  - apply multiFileBatches_shape.
Qed.

(** For 250 miss strings this gives 84, 84 and 82 in the single-file path. *)
Lemma batches_shape_witness :
  length (singleFileBatches (seq 0 250)) = 3
  ∧ concat (singleFileBatches (seq 0 250)) = seq 0 250
  ∧ map length (singleFileBatches (seq 0 250)) = [84; 84; 82].
Proof.
  destruct (batches_shape (seq 0 250)) as [(Hlen & Hcat & _) _].
  split; [exact Hlen|]. split; [exact Hcat|]. vm_compute. reflexivity.
Defined.

(** C2 as stated fails: 250 miss strings are not batched as 84, 83 and 83.
    The single-file path makes 84, 84 and 82; the multi-file path makes
    100, 100 and 50, the sizes the claim rules out. *)
Lemma batches_250_not_84_83_83 :
  map length (singleFileBatches (seq 0 250)) ≠ [84; 83; 83]
  ∧ map length (multiFileBatches (seq 0 250)) = [100; 100; 50]
  ∧ multiFileTargetBatchSize (seq 0 250) = 84.
Proof.
  split; [vm_compute; discriminate|]. split; vm_compute; reflexivity.
Qed.

End SchedulerClaims.

(** ** The persisted cache *)

Module StoreFacts.
Import JsString Json Provider Store Pipeline JsColl JsCollFacts.

Lemma langCacheOf_empty file lang : langCacheOf ∅ file lang = ∅.
Proof. unfold langCacheOf, langEntry. by rewrite lookup_empty. Qed.

Lemma cacheLookup_empty file lang hash : cacheLookup ∅ file lang hash = None.
Proof. unfold cacheLookup, langEntry. by rewrite lookup_empty. Qed.

Lemma loadCache_unreadable N w p :
  fs_readFile w p = None → loadCache N w p = ∅.
Proof. intros Hr. unfold loadCache. rewrite Hr. by destruct (fs_access w p). Qed.

Lemma loadCache_unparsable N w p data :
  fs_readFile w p = Some data → parseCache N data = None →
  loadCache N w p = ∅.
Proof.
  intros Hr Hp. unfold loadCache. rewrite Hr, Hp. by destruct (fs_access w p).
Qed.

(** With an empty language cache every string is a miss. *)
Lemma compareWithCache_empty H strs acc :
  foldl (compareOne H ∅) (∅, acc) strs = (∅, foldl set_add acc strs).
Proof.
  revert acc. induction strs as [|s strs IH]; intros acc; [done|].
  cbn [foldl]. unfold compareOne at 2. rewrite lookup_empty. cbn [cacheHit].
  apply IH.
Qed.

Lemma firstHit_empty lang hash fs : firstHit ∅ lang hash fs = None.
Proof.
  unfold firstHit.
  destruct (list_find _ fs) as [[i f]|] eqn:Hfind; [|done].
  apply list_find_Some in Hfind as (_ & Hhit & _).
  rewrite cacheLookup_empty in Hhit. by destruct Hhit.
Qed.

Lemma checkCache_empty H lang gsm acc :
  foldl (checkOne H ∅ lang) (∅, acc) gsm
  = (∅, foldl set_add acc (map fst gsm)).
Proof.
  revert acc. induction gsm as [|[s fs] gsm IH]; intros acc; [done|].
  cbn [foldl map fst]. unfold checkOne at 2. rewrite firstHit_empty. apply IH.
Qed.

(** When the cache file is missing, cannot be read (also because it is a
    directory), or does not parse, [loadCache] returns the empty cache;
    with it every string of a document is a miss and is scheduled for
    translation, in the single-file and in the multi-file path alike. *)
Lemma loadCache_failure_is_full_miss (N : Node) (H : Helpers) (w : World)
    (cacheFilePath : string) :
  (files w !! cacheFilePath = None
   ∨ files w !! cacheFilePath = Some Unreadable
   ∨ files w !! cacheFilePath = Some Directory
   ∨ ∃ data, files w !! cacheFilePath = Some (Readable data)
             ∧ parseCache N data = None) →
  loadCache N w cacheFilePath = ∅
  ∧ (∀ file lang allSourceStrings,
       NoDup allSourceStrings →
       compareWithCache H (langCacheOf (loadCache N w cacheFilePath) file lang)
         allSourceStrings
       = (∅, allSourceStrings))
  ∧ (∀ translator o file lang sourceLang allSourceStrings,
       NoDup allSourceStrings →
       stringsToTranslateAPI
         (translateSingle H translator o file lang sourceLang
            (loadCache N w cacheFilePath) allSourceStrings)
       = allSourceStrings)
  ∧ (∀ lang globalStringMap,
       NoDup (map fst globalStringMap) →
       checkCache H (loadCache N w cacheFilePath) lang globalStringMap
       = (∅, map fst globalStringMap)).
Proof.
  intros Hfail.
  assert (Hempty : loadCache N w cacheFilePath = ∅).
  { destruct Hfail as [Hm|[Hu|[Hdir|(data & Hd & Hp)]]].
    - apply loadCache_unreadable. unfold fs_readFile. by rewrite Hm.
    - apply loadCache_unreadable. unfold fs_readFile. by rewrite Hu.
    - apply loadCache_unreadable. unfold fs_readFile. by rewrite Hdir.
    - apply (loadCache_unparsable _ _ _ data); [|done].
      unfold fs_readFile. by rewrite Hd. }
  rewrite Hempty.
  assert (Hcmp : ∀ file lang strs, NoDup strs →
            compareWithCache H (langCacheOf ∅ file lang) strs = (∅, strs)).
  { intros file lang strs Hnd. unfold compareWithCache.
    rewrite langCacheOf_empty, compareWithCache_empty.
    by rewrite foldl_set_add_fresh. }
  split; [done|]. split; [exact Hcmp|]. split.
  - intros translator o file lang sourceLang strs Hnd.
    unfold translateSingle. destruct (useCache o).
    + rewrite Hcmp by done.
      repeat match goal with |- context [let '(_, _) := ?x in _] => destruct x end.
      done.
    + repeat match goal with |- context [let '(_, _) := ?x in _] => destruct x end.
      done.
  - intros lang gsm Hnd. unfold checkCache.
    rewrite checkCache_empty. by rewrite foldl_set_add_fresh.
Qed.

Lemma fs_readFile_emit e w p : fs_readFile (emit e w) p = fs_readFile w p.
Proof. done. Qed.

Lemma fs_readFile_emitAll es w p :
  fs_readFile (emitAll es w) p = fs_readFile w p.
Proof. done. Qed.

Lemma fs_writeFile_same w p data w' :
  fs_writeFile w p data = Some w' →
  fs_readFile w' p = Some data ∧ events w' = events w ++ [EvWriteFile p data].
Proof.
  unfold fs_writeFile, fs_readFile.
  destruct (files w !! p) as [[]|]; intros [= <-]; cbn;
    by rewrite lookup_insert_eq.
Qed.

Lemma fs_writeFile_other w p data w' p' :
  fs_writeFile w p data = Some w' → p' ≠ p →
  fs_readFile w' p' = fs_readFile w p'.
Proof.
  unfold fs_writeFile, fs_readFile.
  destruct (files w !! p) as [[]|]; intros [= <-] Hne; cbn;
    by rewrite lookup_insert_ne.
Qed.

(** What a recursive [mkdir] changes: a path that was missing may have
    become a directory, when it is on the way; all else is as it was. *)
Lemma mkdirAll_lookup dirs :
  ∀ fs fs', mkdirAll dirs fs = Some fs' →
    ∀ q, fs' !! q = fs !! q
         ∨ (fs !! q = None ∧ fs' !! q = Some Directory ∧ q ∈ dirs).
Proof.
  induction dirs as [|dir dirs IH]; intros fs fs'; cbn [mkdirAll].
  - intros [= <-] q. by left.
  - destruct (fs !! dir) as [[]|] eqn:Hdir; try done.
    + intros Hrest q. destruct (IH _ _ Hrest q) as [Hq|(Hn & Hd & Hin)].
      * by left.
      * right. split; [done|]. split; [done|]. by apply list_elem_of_further.
    + intros Hrest q. destruct (IH _ _ Hrest q) as [Hq|(Hn & Hd & Hin)].
      * destruct (decide (q = dir)) as [->|Hne].
        -- right. rewrite Hq, lookup_insert_eq. split; [done|].
           split; [done|]. apply list_elem_of_here.
        -- left. by rewrite Hq, lookup_insert_ne.
      * destruct (decide (q = dir)) as [->|Hne].
        -- by rewrite lookup_insert_eq in Hn.
        -- rewrite lookup_insert_ne in Hn by done. right.
           split; [done|]. split; [done|]. by apply list_elem_of_further.
Qed.

Lemma fs_mkdir_lookup w p w' :
  fs_mkdir w p = Some w' →
  ∀ q, files w' !! q = files w !! q
       ∨ (files w !! q = None ∧ files w' !! q = Some Directory
          ∧ q ∈ pathAncestors p).
Proof.
  unfold fs_mkdir.
  destruct (mkdirAll (pathAncestors p) (files w)) as [fs|] eqn:Hall; [|done].
  intros [= <-]. cbn [files]. by apply mkdirAll_lookup.
Qed.

(** A [mkdir] changes the contents of no file. *)
Lemma fs_mkdir_other w p w' p' :
  fs_mkdir w p = Some w' → fs_readFile w' p' = fs_readFile w p'.
Proof.
  intros Hm. unfold fs_readFile.
  destruct (fs_mkdir_lookup _ _ _ Hm p') as [->|(-> & -> & _)]; done.
Qed.

Lemma fs_mkdir_events w p w' :
  fs_mkdir w p = Some w' → events w' = events w ++ [EvMkdir p].
Proof.
  unfold fs_mkdir.
  by destruct (mkdirAll (pathAncestors p) (files w)); intros [= <-].
Qed.

(** A [saveCache] that resolves has made one write, straight onto the
    cache file, of the whole serialised cache, after at most one [mkdir]. *)
Lemma saveCache_resolved N cache w p w' :
  saveCache N cache w p = (true, w') →
  fs_readFile w' p = Some (stringifyCache N cache)
  ∧ ∃ pre, events w' = events w ++ pre ++ [EvWriteFile p (stringifyCache N cache)]
           ∧ ∀ e, e ∈ pre → e = EvMkdir (path_dirname N p).
Proof.
  unfold saveCache, ensureCacheDirectory.
  destruct (fs_access w (path_dirname N p)).
  - destruct (fs_writeFile w p _) as [w''|] eqn:Hw; [|done].
    intros [= <-]. apply fs_writeFile_same in Hw as [Hr He].
    split; [done|]. exists []. split; [done|]. by intros e ?%elem_of_nil.
  - destruct (fs_mkdir w (path_dirname N p)) as [w1|] eqn:Hm; [|done].
    destruct (fs_writeFile w1 p _) as [w''|] eqn:Hw; [|done].
    intros [= <-]. apply fs_writeFile_same in Hw as [Hr He].
    split; [done|]. exists [EvMkdir (path_dirname N p)].
    rewrite He, (fs_mkdir_events _ _ _ Hm), <- app_assoc.
    split; [done|]. by intros e ->%list_elem_of_singleton.
Qed.

Lemma records_langEntry cache file lang :
  is_Some (langEntry cache file lang) → records cache file lang = true.
Proof.
  unfold langEntry, records. destruct (cache !! file) as [fc|]; [|by intros []].
  intros Hsome. by rewrite (bool_decide_eq_true_2 _ Hsome).
Qed.

Lemma records_own cache file lang :
  inherited file = false → inherited lang = false →
  records cache file lang = true.
Proof.
  intros Hf Hl. unfold records. rewrite Hf, Hl.
  destruct (cache !! file); [apply orb_true_r|done].
Qed.

Lemma langEntry_record cache file lang hash translated file' lang' :
  langEntry (cacheRecord cache file lang hash translated) file' lang'
  = if decide (file = file' ∧ lang = lang')
    then if records cache file lang
         then Some (<[hash := translated]> (langCacheOf cache file lang))
         else langEntry cache file lang
    else langEntry cache file' lang'.
Proof.
  unfold cacheRecord, records, langCacheOf, langEntry.
  destruct (cache !! file) as [fc|] eqn:Hfile.
  - destruct (fc !! lang) as [lc|] eqn:Hlang.
    + rewrite (bool_decide_eq_true_2 (is_Some (Some lc))) by by eexists.
      cbn [orb default].
      destruct (decide (file = file')) as [<-|Hf].
      * rewrite lookup_insert_eq.
        destruct (decide (lang = lang')) as [<-|Hl].
        -- rewrite lookup_insert_eq. by rewrite decide_True.
        -- rewrite lookup_insert_ne by done. rewrite decide_False by tauto.
           by rewrite Hfile.
      * rewrite lookup_insert_ne by done. by rewrite decide_False by tauto.
    + rewrite (bool_decide_eq_false_2 (is_Some None)) by by intros [].
      cbn [orb default]. destruct (inherited lang); cbn [negb].
      * case_decide as Heq; [|done]. destruct Heq as [<- <-].
        by rewrite Hfile, Hlang.
      * destruct (decide (file = file')) as [<-|Hf].
        -- rewrite lookup_insert_eq.
           destruct (decide (lang = lang')) as [<-|Hl].
           ++ rewrite lookup_insert_eq. rewrite decide_True by done.
              by rewrite insert_empty.
           ++ rewrite lookup_insert_ne by done. rewrite decide_False by tauto.
              by rewrite Hfile.
        -- rewrite lookup_insert_ne by done. by rewrite decide_False by tauto.
  - cbn [default]. destruct (inherited file); cbn [negb andb].
    + case_decide as Heq; [|done]. destruct Heq as [<- <-]. by rewrite Hfile.
    + destruct (inherited lang); cbn [negb].
      * destruct (decide (file = file')) as [<-|Hf].
        -- rewrite lookup_insert_eq, lookup_empty, Hfile. by case_decide.
        -- rewrite lookup_insert_ne by done. by rewrite decide_False by tauto.
      * destruct (decide (file = file')) as [<-|Hf].
        -- rewrite lookup_insert_eq.
           destruct (decide (lang = lang')) as [<-|Hl].
           ++ rewrite lookup_singleton_eq. rewrite decide_True by done.
              by rewrite insert_empty.
           ++ rewrite lookup_singleton_ne by done.
              rewrite decide_False by tauto. by rewrite Hfile.
        -- rewrite lookup_insert_ne by done. by rewrite decide_False by tauto.
Qed.

Lemma cacheLookup_record cache file lang hash translated file' lang' hash' :
  cacheLookup (cacheRecord cache file lang hash translated) file' lang' hash'
  = if decide (file = file' ∧ lang = lang' ∧ hash = hash')
    then if records cache file lang then Some translated
         else cacheLookup cache file lang hash
    else cacheLookup cache file' lang' hash'.
Proof.
  unfold cacheLookup. rewrite langEntry_record.
  destruct (decide (file = file' ∧ lang = lang')) as [[<- <-]|Hne].
  - destruct (records cache file lang) eqn:Hrec.
    + destruct (decide (hash = hash')) as [<-|Hh].
      * rewrite lookup_insert_eq. by rewrite decide_True.
      * rewrite lookup_insert_ne by done. rewrite decide_False by tauto.
        unfold langCacheOf. by destruct (langEntry cache file lang).
    + case_decide as Heq; [|done]. by destruct Heq as (_ & _ & <-).
  - rewrite decide_False by tauto. done.
Qed.

(** A record that does not land leaves every reading of the cache as it
    was. *)
Lemma cacheLookup_record_lost cache file lang hash translated file' lang' hash' :
  records cache file lang = false →
  cacheLookup (cacheRecord cache file lang hash translated) file' lang' hash'
  = cacheLookup cache file' lang' hash'.
Proof.
  intros Hrec. rewrite cacheLookup_record, Hrec.
  case_decide as Heq; [|done]. by destruct Heq as (<- & <- & <-).
Qed.

(** What pruning does to the language cache of the document: an entry
    stays exactly when its hash is the hash of a current string. *)
Lemma pruneCache_lookup cache file lang currentHashes hash :
  cacheLookup (pruneCache cache file lang currentHashes).1 file lang hash
  = if decide (hash ∈ currentHashes) then cacheLookup cache file lang hash
    else None.
Proof.
  unfold pruneCache. destruct (langEntry cache file lang) as [lc|] eqn:Hlc.
  - cbn [fst]. unfold cacheLookup at 1, langEntry.
    rewrite lookup_insert_eq, lookup_insert_eq.
    unfold cacheLookup. rewrite Hlc.
    destruct (decide (hash ∈ currentHashes)) as [Hin|Hnin].
    + destruct (lc !! hash) as [t|] eqn:Ht.
      * by apply map_lookup_filter_Some_2.
      * apply map_lookup_filter_None. by left.
    + apply map_lookup_filter_None. right. intros t _. done.
  - cbn [fst]. unfold cacheLookup. rewrite Hlc. by case_decide.
Qed.

Lemma pruneCache_other cache file lang currentHashes file' lang' hash :
  (file', lang') ≠ (file, lang) →
  cacheLookup (pruneCache cache file lang currentHashes).1 file' lang' hash
  = cacheLookup cache file' lang' hash.
Proof.
  intros Hne. unfold pruneCache.
  destruct (langEntry cache file lang) as [lc|] eqn:Hlc; [|done].
  cbn [fst]. unfold cacheLookup, langEntry.
  destruct (decide (file = file')) as [<-|Hf].
  - rewrite lookup_insert_eq.
    rewrite lookup_insert_ne by congruence.
    by destruct (cache !! file).
  - by rewrite lookup_insert_ne.
Qed.

End StoreFacts.

(** ** Runs of the pipeline *)

Module PipelineFacts.
Import JsString Json Reconstruct Batch Provider Store Pipeline JsColl.
Import JsCollFacts BatchFacts StoreFacts.

Lemma detectLanguageStep_world translator o strings sample w :
  files (detectLanguageStep translator o strings sample w).2 = files w
  ∧ ∃ es, events (detectLanguageStep translator o strings sample w).2
          = events w ++ es
          ∧ ∀ e, e ∈ es → e = EvDetectLanguage sample.
Proof.
  unfold detectLanguageStep.
  destruct (detectSource o), (detectLanguage translator) as [detect|];
    try (split; [done|]; exists []; rewrite app_nil_r;
         split; [done|]; by intros e ?%elem_of_nil).
  case_decide.
  - split; [done|]. exists [EvDetectLanguage sample]. split; [done|].
    by intros e ->%list_elem_of_singleton.
  - split; [done|]. exists []. rewrite app_nil_r.
    split; [done|]. by intros e ?%elem_of_nil.
Qed.

(** C10.  In dry-run mode [processSingleFile] leaves the file system as
    it was, so that no output file is written and the cache file is not
    touched, and the only thing it can ask of the backend is the detection
    of the source language: there is no translate call, no write and no
    output on stdout.  When the source can be read it returns. *)
Theorem dry_run_single_is_read_only (N : Node) (H : Helpers)
    (inputFile lang : string) (output : option string) (o : Options)
    (translator : TranslationProvider) (w : World) :
  dryRun o = true →
  let run := processSingleFile N H inputFile lang output o translator w in
  files run.2 = files w
  ∧ (∃ es, events run.2 = events w ++ es
           ∧ ∀ e, e ∈ es → ∃ sample, e = EvDetectLanguage sample)
  ∧ (is_Some (fs_readFile w (path_resolve N inputFile) ≫= JSON_parse N) →
     run.1 = Returned).
Proof.
  intros Hdry. unfold processSingleFile.
  destruct (fs_readFile w (path_resolve N inputFile) ≫= JSON_parse N)
    as [sourceJson|]; cbn zeta.
  - pose proof (detectLanguageStep_world translator o
                  (allSourceStringsOf (flattenObjectWithPaths sourceJson))
                  (allSourceStringsOf (flattenObjectWithPaths sourceJson)) w)
      as (Hfiles & es & Hev & Hes).
    destruct (detectLanguageStep _ _ _ _ w) as [sourceLang w1].
    rewrite Hdry. unfold dryRunSingle. cbn [fst snd] in *.
    split; [done|]. split; [|done].
    exists es. split; [done|]. intros e He. eexists. by apply Hes.
  - cbn [fst snd]. split; [done|]. split.
    + exists []. rewrite app_nil_r. split; [done|]. by intros e ?%elem_of_nil.
    + by intros [? ?].
Qed.

Lemma detectLanguageStep_read translator o strings sample w p :
  fs_readFile (detectLanguageStep translator o strings sample w).2 p
  = fs_readFile w p.
Proof.
  unfold fs_readFile.
  by destruct (detectLanguageStep_world translator o strings sample w) as [-> _].
Qed.

Lemma writeOutput_read N H o lang output sourceJson outputJson w p :
  (stdout o = true ∨ output = None
   ∨ ∃ pattern, output = Some pattern ∧ replaceToken N "lang" lang pattern ≠ p) →
  fs_readFile (writeOutput N H o lang output sourceJson outputJson w).2 p
  = fs_readFile w p.
Proof.
  intros Hout. unfold writeOutput.
  destruct (stdout o) eqn:Hstd.
  { by destruct (checkKeys o && _). }
  destruct output as [pattern|].
  - destruct Hout as [?|[?|(pat & [= <-] & Hne)]]; [done..|].
    destruct (fs_writeFile w _ _) as [w'|] eqn:Hw; [|done].
    rewrite <- (fs_writeFile_other _ _ _ _ p Hw) by done.
    by destruct (checkKeys o && _).
  - by destruct (checkKeys o && _).
Qed.

Lemma processSingleFile_saved N H inputFile lang output o translator w
    sourceJson :
  fs_readFile w (path_resolve N inputFile) ≫= JSON_parse N = Some sourceJson →
  dryRun o = false → useCache o = true →
  let t := singleRunState N H inputFile lang o translator w sourceJson in
  let run := processSingleFile N H inputFile lang output o translator w in
  (0 < successfullyTranslatedCount t ∨ 0 < prunedCount t) →
  run.1 = Returned →
  (stdout o = true ∨ output = None
   ∨ ∃ pattern, output = Some pattern
       ∧ replaceToken N "lang" lang pattern ≠ resolvedCacheFile N o) →
  fs_readFile run.2 (resolvedCacheFile N o)
  = Some (stringifyCache N (translationCache t)).
Proof.
  intros Hsrc Hdry Hcache t run Hmod Hret Hout. subst t run.
  revert Hmod Hret. unfold singleRunState, processSingleFile.
  rewrite Hsrc. cbn zeta.
  destruct (detectLanguageStep translator o _ _ w) as [sourceLang w1].
  rewrite Hdry, Hcache. cbn [fst snd andb].
  set (t := translateSingle _ _ _ _ _ _ _ _).
  intros Hmod.
  assert (Hcond : bool_decide (0 < successfullyTranslatedCount t)
                  || bool_decide (0 < prunedCount t) = true).
  { destruct Hmod as [Hc|Hp].
    - by rewrite (bool_decide_eq_true_2 _ Hc).
    - rewrite (bool_decide_eq_true_2 _ Hp). by rewrite orb_true_r. }
  rewrite Hcond.
  destruct (saveCache N (translationCache t) _ _) as [saved w3] eqn:Hsave.
  destruct saved; [|done].
  apply saveCache_resolved in Hsave as [Hread _].
  destruct (rebuildDocument _ _ _ _) as [translatedJson| |]; [|done..].
  intros _. by rewrite writeOutput_read.
Qed.

(** *** The translation requests of a run *)

Lemma requestsOf_app w w' es :
  events w' = events w ++ es →
  requestsOf w' = requestsOf w ++ List.filter isTranslate es.
Proof. intros He. unfold requestsOf. by rewrite He, List.filter_app. Qed.

Lemma requestsOf_same w w' es :
  events w' = events w ++ es → (∀ e, e ∈ es → isTranslate e = false) →
  requestsOf w' = requestsOf w.
Proof.
  intros He Hes. rewrite (requestsOf_app _ _ _ He).
  replace (List.filter isTranslate es) with (@nil Event); [by rewrite app_nil_r|].
  symmetry. clear He. induction es as [|e es IH]; [done|].
  cbn. rewrite (Hes e) by apply list_elem_of_here.
  apply IH. intros e' He'. apply Hes. by apply list_elem_of_further.
Qed.

Lemma requestsOf_emit e w :
  isTranslate e = false → requestsOf (emit e w) = requestsOf w.
Proof.
  intros He. apply (requestsOf_same _ _ [e]); [done|].
  by intros e' ->%list_elem_of_singleton.
Qed.

Lemma requestsOf_writeFile w p data w' :
  fs_writeFile w p data = Some w' → requestsOf w' = requestsOf w.
Proof.
  intros [_ He]%fs_writeFile_same. apply (requestsOf_same _ _ _ He).
  by intros e ->%list_elem_of_singleton.
Qed.

Lemma requestsOf_mkdir w p w' :
  fs_mkdir w p = Some w' → requestsOf w' = requestsOf w.
Proof.
  intros He%fs_mkdir_events. apply (requestsOf_same _ _ _ He).
  by intros e ->%list_elem_of_singleton.
Qed.

Lemma requestsOf_saveCache N cache w p :
  requestsOf (saveCache N cache w p).2 = requestsOf w.
Proof.
  unfold saveCache, ensureCacheDirectory.
  destruct (fs_access w (path_dirname N p)).
  - destruct (fs_writeFile w p _) as [w'|] eqn:Hw; [|done].
    by apply requestsOf_writeFile in Hw.
  - destruct (fs_mkdir w (path_dirname N p)) as [w1|] eqn:Hm; [|done].
    apply requestsOf_mkdir in Hm.
    destruct (fs_writeFile w1 p _) as [w'|] eqn:Hw; [|done].
    apply requestsOf_writeFile in Hw. cbn [snd]. congruence.
Qed.

Lemma requestsOf_detect translator o strings sample w :
  requestsOf (detectLanguageStep translator o strings sample w).2
  = requestsOf w.
Proof.
  destruct (detectLanguageStep_world translator o strings sample w)
    as (_ & es & He & Hes).
  apply (requestsOf_same _ _ _ He). intros e He'. by rewrite (Hes e He').
Qed.

Lemma requestsOf_batches H lang sourceLang o batches w :
  requestsOf (emitAll (batchEvents H lang sourceLang o batches) w)
  = requestsOf w ++ batchEvents H lang sourceLang o batches.
Proof.
  rewrite (requestsOf_app w _ (batchEvents H lang sourceLang o batches))
    by done.
  f_equal. unfold batchEvents. induction batches as [|b bs IH]; [done|].
  cbn. by rewrite IH.
Qed.

Lemma requestsOf_writeOutput N H o lang output sourceJson outputJson w :
  requestsOf (writeOutput N H o lang output sourceJson outputJson w).2
  = requestsOf w.
Proof.
  unfold writeOutput. destruct (stdout o).
  - destruct (checkKeys o && _); by apply requestsOf_emit.
  - destruct output as [pattern|].
    + destruct (fs_writeFile w _ _) as [w'|] eqn:Hw; [|done].
      apply requestsOf_writeFile in Hw. by destruct (checkKeys o && _).
    + by destruct (checkKeys o && _).
Qed.

(** The translation requests of a single-file run that is not a dry run
    are the batches, one request each, in order. *)
Lemma processSingleFile_requests N H inputFile lang output o translator w
    sourceJson :
  fs_readFile w (path_resolve N inputFile) ≫= JSON_parse N = Some sourceJson →
  dryRun o = false →
  let all := allSourceStringsOf (flattenObjectWithPaths sourceJson) in
  requestsOf (processSingleFile N H inputFile lang output o translator w).2
  = requestsOf w
    ++ batchEvents H lang (detectLanguageStep translator o all all w).1 o
         (batches (singleRunState N H inputFile lang o translator w sourceJson)).
Proof.
  intros Hsrc Hdry all. subst all.
  unfold singleRunState, processSingleFile. rewrite Hsrc. cbn zeta.
  pose proof (requestsOf_detect translator o
                (allSourceStringsOf (flattenObjectWithPaths sourceJson))
                (allSourceStringsOf (flattenObjectWithPaths sourceJson)) w)
    as Hdet.
  destruct (detectLanguageStep translator o _ _ w) as [sourceLang w1].
  rewrite Hdry. cbn [fst snd] in *.
  set (t := translateSingle _ _ _ _ _ _ _ _).
  rewrite <- Hdet, <- requestsOf_batches.
  set (w2 := emitAll _ w1).
  assert (Hsave : ∀ c, requestsOf
            (if useCache o && (bool_decide (0 < successfullyTranslatedCount t)
                               || bool_decide (0 < prunedCount t))
             then saveCache N c w2 (resolvedCacheFile N o)
             else (true, w2)).2 = requestsOf w2).
  { intros c. destruct (useCache o && _); [apply requestsOf_saveCache|done]. }
  specialize (Hsave (translationCache t)).
  destruct (if useCache o && _ then _ else _) as [saved w3].
  cbn [snd] in Hsave. destruct saved; [|done].
  destruct (rebuildDocument _ _ _ _); [|done..].
  by rewrite requestsOf_writeOutput.
Qed.

End PipelineFacts.

(** ** The multi-file run: cache reuse across documents *)

Module MultiFileFacts.
Import JsString Json Reconstruct Batch Provider Store Pipeline JsColl.
Import JsCollFacts BatchFacts StoreFacts PipelineFacts.

Lemma collectOne_keys file m str :
  NoDup (map fst m) → NoDup (map fst (collectOne file m str)).
Proof. apply NoDup_map_set_keys. Qed.

Lemma collectOne_occurs_new file m str : occurs (collectOne file m str) str file.
Proof.
  unfold occurs, collectOne. eexists. split; [apply map_get_set_eq|].
  apply elem_of_set_add. by right.
Qed.

Lemma collectOne_occurs_mono file m str s f :
  occurs m s f → occurs (collectOne file m str) s f.
Proof.
  intros (fs & Hget & Hin). unfold occurs, collectOne.
  destruct (decide (str = s)) as [->|Hne].
  - eexists. split; [apply map_get_set_eq|].
    rewrite Hget. apply elem_of_set_add. by left.
  - exists fs. by rewrite map_get_set_ne.
Qed.

Lemma collectStrings_keys file strs m :
  NoDup (map fst m) → NoDup (map fst (collectStrings file m strs)).
Proof.
  unfold collectStrings. revert m.
  induction strs as [|s strs IH]; intros m Hm; [done|].
  cbn [foldl]. apply IH. by apply collectOne_keys.
Qed.

Lemma collectStrings_occurs_mono file strs m s f :
  occurs m s f → occurs (collectStrings file m strs) s f.
Proof.
  unfold collectStrings. revert m.
  induction strs as [|s0 strs IH]; intros m Hm; [done|].
  cbn [foldl]. apply IH. by apply collectOne_occurs_mono.
Qed.

Lemma collectStrings_occurs file strs m s :
  s ∈ strs → occurs (collectStrings file m strs) s file.
Proof.
  unfold collectStrings. revert m.
  induction strs as [|s0 strs IH]; intros m Hs; [by apply elem_of_nil in Hs|].
  cbn [foldl]. apply elem_of_cons in Hs as [->|Hs].
  - apply (collectStrings_occurs_mono file strs). apply collectOne_occurs_new.
  - by apply IH.
Qed.

Lemma readOne_keys N o lang outputPattern w st file :
  NoDup (map fst st.1.2) →
  NoDup (map fst (readOne N o lang outputPattern w st file).1.2).
Proof.
  destruct st as [[fdm gsm] total]. unfold readOne.
  destruct (fs_readFile w file ≫= JSON_parse N); [|done].
  cbn [fst snd]. apply collectStrings_keys.
Qed.

Lemma readOne_occurs_mono N o lang outputPattern w st file s f :
  occurs st.1.2 s f →
  occurs (readOne N o lang outputPattern w st file).1.2 s f.
Proof.
  destruct st as [[fdm gsm] total]. unfold readOne.
  destruct (fs_readFile w file ≫= JSON_parse N); [|done].
  cbn [fst snd]. apply collectStrings_occurs_mono.
Qed.

Lemma readAll_keys N o lang outputPattern w uniqueFiles :
  NoDup (map fst (readAll N o lang outputPattern w uniqueFiles).1.2).
Proof.
  unfold readAll.
  assert (Hgen : ∀ st, NoDup (map fst st.1.2) →
            NoDup (map fst (foldl (readOne N o lang outputPattern w) st
                              uniqueFiles).1.2)).
  { induction uniqueFiles as [|f fs IH]; intros st Hst; [done|].
    cbn [foldl]. apply IH. by apply readOne_keys. }
  apply Hgen. apply NoDup_nil_2.
Qed.

(** Every string leaf of every document that was read is recorded in
    [globalStringMap] with the file of the document. *)
Lemma readAll_occurs N o lang outputPattern w uniqueFiles file doc str :
  file ∈ uniqueFiles →
  fs_readFile w file ≫= JSON_parse N = Some doc →
  str ∈ map snd (flattenObjectWithPaths doc) →
  occurs (readAll N o lang outputPattern w uniqueFiles).1.2 str file.
Proof.
  intros Hfile Hdoc Hstr. unfold readAll. generalize ([] : list (string * FileData), [] : list (string * list string), 0) as st.
  induction uniqueFiles as [|f fs IH]; intros st; [by apply elem_of_nil in Hfile|].
  cbn [foldl]. apply elem_of_cons in Hfile as [<-|Hfile].
  - assert (Hnow : occurs (readOne N o lang outputPattern w st file).1.2 str file).
    { destruct st as [[fdm gsm] total]. unfold readOne. rewrite Hdoc.
      cbn [fst snd]. by apply collectStrings_occurs. }
    revert Hnow. generalize (readOne N o lang outputPattern w st file) as st'.
    clear IH. induction fs as [|f' fs IH']; intros st' Hst'; [done|].
    cbn [foldl]. apply IH'. by apply readOne_occurs_mono.
  - by apply IH.
Qed.

(** *** The cache check *)

Lemma firstHit_Some translationCache lang hash filesOfString cached :
  firstHit translationCache lang hash filesOfString = Some cached →
  ∃ file, file ∈ filesOfString
          ∧ cacheHit (cacheLookup translationCache file lang hash)
            = Some cached.
Proof.
  unfold firstHit.
  destruct (list_find _ filesOfString) as [[i f]|] eqn:Hfind; [|done].
  apply list_find_Some in Hfind as (Hi & _ & _). cbn.
  intros Hhit. exists f. split; [|done]. by apply list_elem_of_lookup_2 in Hi.
Qed.

Lemma firstHit_is_Some translationCache lang hash filesOfString file :
  file ∈ filesOfString →
  is_Some (cacheHit (cacheLookup translationCache file lang hash)) →
  is_Some (firstHit translationCache lang hash filesOfString).
Proof.
  intros Hin Hhit. unfold firstHit.
  destruct (list_find _ filesOfString) as [[i f]|] eqn:Hfind.
  - apply list_find_Some in Hfind as (_ & Hf & _). exact Hf.
  - apply list_find_None in Hfind.
    rewrite Forall_forall in Hfind. by destruct (Hfind file Hin).
Qed.

Lemma checkOne_hit H translationCache lang table todo s fs cached :
  firstHit translationCache lang (hashString H s) fs = Some cached →
  checkOne H translationCache lang (table, todo) (s, fs)
  = (<[hashString H s := cached]> table, todo).
Proof. intros Hhit. unfold checkOne. by rewrite Hhit. Qed.

Lemma checkOne_miss H translationCache lang table todo s fs :
  firstHit translationCache lang (hashString H s) fs = None →
  checkOne H translationCache lang (table, todo) (s, fs)
  = (table, set_add todo s).
Proof. intros Hhit. unfold checkOne. by rewrite Hhit. Qed.

(** The state after the cache check: what is to be translated, and where
    the entries of the table come from. *)
Lemma checkCache_fold H translationCache lang gsm table todo :
  NoDup todo →
  let st := foldl (checkOne H translationCache lang) (table, todo) gsm in
  NoDup st.2
  ∧ (∀ s, s ∈ st.2 ↔
       s ∈ todo
       ∨ ∃ fs, (s, fs) ∈ gsm
               ∧ firstHit translationCache lang (hashString H s) fs = None)
  ∧ (∀ s fs, (s, fs) ∈ gsm →
       is_Some (firstHit translationCache lang (hashString H s) fs) →
       ∃ cached file,
         st.1 !! hashString H s = Some cached
         ∧ cacheHit (cacheLookup translationCache file lang (hashString H s))
           = Some cached).
Proof.
  revert table todo. induction gsm as [|[s0 fs0] gsm IH];
    intros table todo Hnd st; subst st.
  - cbn. split; [done|]. split.
    + intros s. split; [by left|]. intros [?|(fs & ?%elem_of_nil & _)]; done.
    + by intros s fs ?%elem_of_nil.
  - cbn [foldl].
    destruct (firstHit translationCache lang (hashString H s0) fs0)
      as [cached0|] eqn:Hhit0.
    + rewrite (checkOne_hit _ _ _ _ _ _ _ _ Hhit0).
      destruct (IH (<[hashString H s0 := cached0]> table) todo Hnd)
        as (IH1 & IH2 & IH3).
      split; [done|]. split.
      * intros s. rewrite IH2. split.
        -- intros [?|(fs & Hin & Hnone)]; [by left|].
           right. exists fs. split; [by apply list_elem_of_further|done].
        -- intros [?|(fs & Hin & Hnone)]; [by left|].
           apply elem_of_cons in Hin as [[= -> ->]|Hin]; [congruence|].
           right. by exists fs.
      * intros s fs Hin Hsome.
        apply elem_of_cons in Hin as [[= -> ->]|Hin]; [|by apply (IH3 s fs)].
        (* the entry of [s0] may be overwritten by a later hit for the
           same hash, which is again a cached value for that hash *)
        clear IH1 IH2 IH3.
        assert (Hgen : ∀ gsm' table' todo',
          (∃ cached file,
             table' !! hashString H s0 = Some cached
             ∧ cacheHit (cacheLookup translationCache file lang
                           (hashString H s0)) = Some cached) →
          ∃ cached file,
            (foldl (checkOne H translationCache lang) (table', todo') gsm').1
              !! hashString H s0 = Some cached
            ∧ cacheHit (cacheLookup translationCache file lang
                          (hashString H s0)) = Some cached).
        { clear. induction gsm' as [|[s1 fs1] gsm' IH']; intros table' todo' Hinv;
            [done|].
          cbn [foldl].
          destruct (firstHit translationCache lang (hashString H s1) fs1)
            as [cached1|] eqn:Hhit1;
            [rewrite (checkOne_hit _ _ _ _ _ _ _ _ Hhit1)
            |rewrite (checkOne_miss _ _ _ _ _ _ _ Hhit1); by apply IH'].
          apply IH'. destruct (decide (hashString H s1 = hashString H s0)) as [Heq|Hne].
          - rewrite Heq in *. apply firstHit_Some in Hhit1 as (f1 & _ & Hc1).
            exists cached1, f1. by rewrite lookup_insert_eq.
          - destruct Hinv as (c & f & Hc & Hf). exists c, f.
            by rewrite lookup_insert_ne. }
        apply Hgen. apply firstHit_Some in Hhit0 as (f0 & _ & Hc0).
        exists cached0, f0. by rewrite lookup_insert_eq.
    + rewrite (checkOne_miss _ _ _ _ _ _ _ Hhit0).
      destruct (IH table (set_add todo s0) (NoDup_set_add _ _ Hnd))
        as (IH1 & IH2 & IH3).
      split; [done|]. split.
      * intros s. rewrite IH2, elem_of_set_add. split.
        -- intros [[?| ->]|(fs & Hin & Hnone)]; [by left| |].
           ++ right. exists fs0. split; [apply list_elem_of_here|done].
           ++ right. exists fs. split; [by apply list_elem_of_further|done].
        -- intros [?|(fs & Hin & Hnone)]; [by left; left|].
           apply elem_of_cons in Hin as [[= -> ->]|Hin]; [by left; right|].
           right. by exists fs.
      * intros s fs Hin Hsome.
        apply elem_of_cons in Hin as [[= -> ->]|Hin]; [|by apply (IH3 s fs)].
        rewrite Hhit0 in Hsome. by destruct Hsome.
Qed.

(** *** The merge and the cache update *)

Lemma mergeGlobal_is_Some H table results h :
  is_Some (table !! h) → is_Some (mergeGlobal H table results !! h).
Proof.
  unfold mergeGlobal. revert table.
  induction results as [|batch results IH]; intros table Hsome; [done|].
  cbn [foldl]. apply IH. clear IH. revert table Hsome.
  induction batch as [|entry batch IHb]; intros table Hsome; [done|].
  cbn [foldl]. apply IHb. unfold mergeGlobalOne.
  destruct (decide (hashString H entry.1 = h)) as [<-|Hne].
  - rewrite lookup_insert_eq. by eexists.
  - by rewrite lookup_insert_ne.
Qed.

(** A pass of the cache update keeps, at a key whose value already is the
    one in the table, that value. *)
Lemma recordAll_stable lang (table : gmap string string) hash translation
    filesOfString cache file h :
  table !! hash = Some translation →
  cacheLookup cache file lang h = table !! h →
  cacheLookup
    (foldl (λ cache f, cacheRecord cache f lang hash translation) cache
       filesOfString) file lang h
  = table !! h.
Proof.
  intros Ht. revert cache.
  induction filesOfString as [|f fs IH]; intros cache Hc; [done|].
  cbn [foldl]. apply IH. rewrite cacheLookup_record.
  case_decide as Heq; [|done]. destruct Heq as (<- & _ & <-).
  by destruct (records cache f lang).
Qed.

Lemma updateCache_stable H lang table gsm cache file h :
  cacheLookup cache file lang h = table !! h →
  cacheLookup (updateCache H lang table gsm cache) file lang h = table !! h.
Proof.
  unfold updateCache. revert cache.
  induction gsm as [|entry gsm IH]; intros cache Hc; [done|].
  cbn [foldl]. apply IH. unfold updateOne.
  destruct (table !! hashString H entry.1) as [translation|] eqn:Ht; [|done].
  by apply recordAll_stable.
Qed.

Lemma recordAll_written lang hash translation filesOfString cache file :
  inherited file = false → inherited lang = false →
  file ∈ filesOfString →
  cacheLookup
    (foldl (λ cache f, cacheRecord cache f lang hash translation) cache
       filesOfString) file lang hash
  = Some translation.
Proof.
  intros Hfile Hlang. revert cache.
  induction filesOfString as [|f fs IH]; intros cache Hin;
    [by apply elem_of_nil in Hin|].
  cbn [foldl]. destruct (decide (file ∈ fs)) as [Hfs|Hfs]; [by apply IH|].
  apply elem_of_cons in Hin as [->|?]; [|done].
  clear IH. assert (Hnow : cacheLookup (cacheRecord cache f lang hash translation)
                             f lang hash = Some translation).
  { rewrite cacheLookup_record, records_own by done. by rewrite decide_True. }
  revert Hnow. generalize (cacheRecord cache f lang hash translation) as c.
  induction fs as [|f' fs IH]; intros c Hc; [done|].
  cbn [foldl]. apply IH.
  - intros Hin. apply Hfs. by apply list_elem_of_further.
  - rewrite cacheLookup_record. case_decide as Heq; [|done].
    destruct Heq as (-> & _ & _). by rewrite records_own.
Qed.

(** Every translation in the table is recorded under every file that
    contains its string. *)
Lemma updateCache_written H lang table gsm cache str filesOfString file
    translation :
  inherited file = false → inherited lang = false →
  (str, filesOfString) ∈ gsm → file ∈ filesOfString →
  table !! hashString H str = Some translation →
  cacheLookup (updateCache H lang table gsm cache) file lang
    (hashString H str)
  = Some translation.
Proof.
  intros Hown Hlang Hin Hfile Ht. unfold updateCache. revert cache.
  induction gsm as [|entry gsm IH]; intros cache; [by apply elem_of_nil in Hin|].
  cbn [foldl]. apply elem_of_cons in Hin as [<-|Hin]; [|by apply IH].
  rewrite <- Ht. apply (updateCache_stable H lang table gsm).
  unfold updateOne. cbn [fst snd]. rewrite Ht.
  by apply recordAll_written.
Qed.

(** The cache update deletes nothing: an entry whose hash is not the hash
    of a string of the run is in the updated cache as it was. *)
Lemma recordAll_other lang hash translation filesOfString cache file lang' h :
  h ≠ hash →
  cacheLookup
    (foldl (λ cache f, cacheRecord cache f lang hash translation) cache
       filesOfString) file lang' h
  = cacheLookup cache file lang' h.
Proof.
  intros Hne. revert cache.
  induction filesOfString as [|f fs IH]; intros cache; [done|].
  cbn [foldl]. rewrite IH, cacheLookup_record.
  case_decide as Heq; [|done]. destruct Heq as (_ & _ & Heq). congruence.
Qed.

Lemma updateCache_other H lang table gsm cache file lang' h :
  (∀ str, str ∈ map fst gsm → hashString H str ≠ h) →
  cacheLookup (updateCache H lang table gsm cache) file lang' h
  = cacheLookup cache file lang' h.
Proof.
  unfold updateCache. revert cache.
  induction gsm as [|entry gsm IH]; intros cache Hfresh; [done|].
  cbn [foldl]. rewrite IH.
  - unfold updateOne. destruct (table !! hashString H entry.1); [|done].
    apply recordAll_other. intros ->. apply (Hfresh entry.1); [|done].
    apply list_elem_of_here.
  - intros str Hstr. apply Hfresh. by apply list_elem_of_further.
Qed.

(** C6 fails on the multi-file path: nothing there prunes.  Whatever the
    documents of the run contain now, an entry of the loaded cache whose
    hash is the hash of none of their strings is still in the cache that
    is saved, with the value it had. *)
Theorem multi_file_run_keeps_stale_entries (H : Helpers)
    (translator : TranslationProvider) (o : Options) (lang sourceLang : string)
    (loaded : TranslationCache) (globalStringMap : list (string * list string))
    (saved : TranslationCache) (file hash stale : string) :
  cacheToSave
    (translateMultiple H translator o lang sourceLang loaded globalStringMap)
  = Some saved →
  (∀ str, str ∈ map fst globalStringMap → hashString H str ≠ hash) →
  cacheLookup loaded file lang hash = Some stale →
  cacheLookup saved file lang hash = Some stale.
Proof.
  unfold translateMultiple. intros Hsave Hfresh Hstale.
  destruct (useCache o); cbn [andb] in *.
  - destruct (checkCache H loaded lang globalStringMap) as [cached todo].
    cbn [cacheToSave] in Hsave. case_bool_decide; [|done].
    injection Hsave as <-. by rewrite updateCache_other.
  - by cbn [cacheToSave] in Hsave.
Qed.

(** *** The requests of a multi-file run *)

Lemma requestsOf_writeOne N H translator o lang sourceLang table w entry :
  requestsOf (writeOne N H translator o lang sourceLang table w entry).2
  = requestsOf w.
Proof.
  destruct entry as [filePath fileData]. unfold writeOne.
  destruct (rebuildDocument _ _ _ _); [|done..].
  destruct (stdout o).
  - cbn [snd]. by rewrite !requestsOf_emit.
  - destruct (fs_mkdir w _) as [w'|] eqn:Hm; [|done].
    apply requestsOf_mkdir in Hm.
    destruct (fs_writeFile w' _ _) as [w''|] eqn:Hw; [|done].
    apply requestsOf_writeFile in Hw. cbn [snd]. congruence.
Qed.

Lemma requestsOf_writeEach N H translator o lang sourceLang table fdm w :
  requestsOf (writeEach N H translator o lang sourceLang table fdm w).2
  = requestsOf w.
Proof.
  revert w. induction fdm as [|entry fdm IH]; intros w; [done|].
  cbn [writeEach].
  pose proof (requestsOf_writeOne N H translator o lang sourceLang table w entry)
    as Hone.
  destruct (writeOne _ _ _ _ _ _ _ w entry) as [[] w']; cbn [snd] in Hone.
  - by rewrite IH.
  - done.
Qed.

(** The translation requests of a multi-file run that is not a dry run
    are the batches, one request each, in order. *)
Lemma processMultipleFiles_requests N H inputPatterns lang outputPattern o
    translator w :
  collectFiles N w inputPatterns ≠ [] →
  dryRun o = false →
  requestsOf
    (processMultipleFiles N H inputPatterns lang outputPattern o translator w).2
  = requestsOf w
    ++ batchEvents H lang
         (multiRunSourceLang N inputPatterns lang outputPattern o translator w)
         o
         (batchesAll
            (multiRunState N H inputPatterns lang outputPattern o translator w)).
Proof.
  intros Hfiles Hdry.
  unfold multiRunState, multiRunSourceLang, processMultipleFiles.
  rewrite decide_False by (by destruct (collectFiles N w inputPatterns)).
  destruct (readAll N o lang outputPattern w _) as [[fdm gsm] total].
  cbn [fst snd].
  pose proof (requestsOf_detect translator o (map fst gsm)
                (take 10 (map fst gsm)) w) as Hdet.
  destruct (detectLanguageStep translator o _ _ w) as [sourceLang w1].
  rewrite Hdry. cbn [fst snd] in *.
  set (t := translateMultiple _ _ _ _ _ _ _).
  rewrite <- Hdet, <- requestsOf_batches.
  set (w2 := emitAll _ w1).
  assert (Hsave : requestsOf
            (match cacheToSave t with
             | Some cache => saveCache N cache w2 (resolvedCacheFile N o)
             | None => (true, w2)
             end).2 = requestsOf w2).
  { destruct (cacheToSave t); [apply requestsOf_saveCache|done]. }
  destruct (match cacheToSave t with Some _ => _ | None => _ end)
    as [saved w3].
  cbn [snd] in Hsave. destruct saved; [|done].
  pose proof (requestsOf_writeEach N H translator o lang sourceLang
                (globalTranslations t) fdm w3) as Hw.
  destruct (writeEach _ _ _ _ _ _ _ fdm w3) as [[] w4]; cbn [snd] in Hw.
  - destruct (checkKeys o && negb (stdout o)); [|cbn [snd]; congruence].
    destruct (verifyKeys N H w4 fdm) as [[]|]; cbn [snd]; congruence.
  - cbn [snd]. congruence.
Qed.

Lemma loadCache_files N w w' p :
  files w' = files w → loadCache N w' p = loadCache N w p.
Proof.
  intros Hf. unfold loadCache, fs_access, fs_readFile. by rewrite Hf.
Qed.

(** In a multi-file run with the cache enabled, take a string leaf [str]
    of a document [file] of the run.  If the loaded cache has a truthy
    entry for the fingerprint of [str] under [file], then [str] is not to
    be translated and is in no batch, for whichever document contains it,
    and the translation table holds for its fingerprint a value cached
    under a document of the run.  The batches are the strings to
    translate, each once, and each batch is one translate request of the
    run. *)
Lemma cross_document_hits (N : Node) (H : Helpers)
    (inputPatterns : list string) (lang : string)
    (outputPattern : option string) (o : Options)
    (translator : TranslationProvider) (w : World) :
  useCache o = true →
  let uniqueFiles := collectFiles N w inputPatterns in
  let loaded := loadCache N w (resolvedCacheFile N o) in
  let globalStringMap :=
    (readAll N o lang outputPattern w uniqueFiles).1.2 in
  let t := multiRunState N H inputPatterns lang outputPattern o translator w in
  t = translateMultiple H translator o lang
        (multiRunSourceLang N inputPatterns lang outputPattern o translator w)
        loaded globalStringMap
  ∧ (∀ file doc str,
       file ∈ uniqueFiles →
       fs_readFile w file ≫= JSON_parse N = Some doc →
       str ∈ map snd (flattenObjectWithPaths doc) →
       is_Some (cacheHit (cacheLookup loaded file lang (hashString H str))) →
       (str ∉ stringsToTranslate t)
       ∧ (∀ batch, batch ∈ batchesAll t → str ∉ batch)
       ∧ (∃ cached from,
            (checkCache H loaded lang globalStringMap).1 !! hashString H str
            = Some cached
            ∧ cacheHit (cacheLookup loaded from lang (hashString H str))
              = Some cached)
       ∧ is_Some (globalTranslations t !! hashString H str))
  ∧ NoDup (concat (batchesAll t))
  ∧ concat (batchesAll t) = stringsToTranslate t
  ∧ (uniqueFiles ≠ [] → dryRun o = false →
     requestsOf
       (processMultipleFiles N H inputPatterns lang outputPattern o translator
          w).2
     = requestsOf w
       ++ batchEvents H lang
            (multiRunSourceLang N inputPatterns lang outputPattern o
               translator w) o (batchesAll t)).
Proof.
  intros Hcache uniqueFiles loaded gsm t.
  assert (Hloaded : ∀ sample strings,
            loadCache N (detectLanguageStep translator o strings sample w).2
              (resolvedCacheFile N o) = loaded).
  { intros. apply loadCache_files.
    apply (detectLanguageStep_world translator o strings sample w). }
  pose proof (readAll_keys N o lang outputPattern w uniqueFiles) as Hkeys.
  fold gsm in Hkeys.
  pose proof (checkCache_fold H loaded lang gsm ∅ [] (NoDup_nil_2))
    as (Hnd & Htodo & Hhits).
  fold (checkCache H loaded lang gsm) in Hnd, Htodo, Hhits.
  assert (Ht : t = translateMultiple H translator o lang
                 (multiRunSourceLang N inputPatterns lang outputPattern o
                    translator w) loaded gsm).
  { subst t. unfold multiRunState, multiRunSourceLang. fold uniqueFiles gsm.
    by rewrite Hloaded. }
  assert (Htodo_eq : stringsToTranslate t = (checkCache H loaded lang gsm).2).
  { rewrite Ht. unfold translateMultiple. rewrite Hcache.
    by destruct (checkCache H loaded lang gsm). }
  assert (Hbatches : batchesAll t = multiFileBatches (stringsToTranslate t)).
  { rewrite Ht. unfold translateMultiple. rewrite Hcache.
    by destruct (checkCache H loaded lang gsm). }
  assert (Hconcat : concat (batchesAll t) = stringsToTranslate t).
  { rewrite Hbatches. apply multiFileBatches_shape. }
  split; [exact Ht|]. split; [|split; [|split]].
  - intros file doc str Hfile Hdoc Hstr Hhit.
    destruct (readAll_occurs N o lang outputPattern w uniqueFiles file doc str
                Hfile Hdoc Hstr) as (fs & Hget & Hin).
    fold gsm in Hget. apply map_get_Some_elem in Hget as Helem.
    pose proof (firstHit_is_Some loaded lang _ fs file Hin Hhit) as Hfirst.
    assert (Hnot : str ∉ stringsToTranslate t).
    { rewrite Htodo_eq, Htodo. intros [?%elem_of_nil|(fs' & Hin' & Hnone)];
        [done|].
      apply (elem_map_get _ _ _ Hkeys) in Hin'.
      apply (elem_map_get _ _ _ Hkeys) in Helem.
      assert (fs' = fs) as -> by congruence.
      rewrite Hnone in Hfirst. by destruct Hfirst. }
    split; [done|]. split.
    { intros batch Hbatch Hs. apply Hnot. rewrite <- Hconcat.
      apply elem_of_concat. by exists batch. }
    destruct (Hhits str fs Helem Hfirst) as (cached & from & Htab & Hfrom).
    split; [by exists cached, from|].
    rewrite Ht. unfold translateMultiple. rewrite Hcache.
    destruct (checkCache H loaded lang gsm) as [table todo].
    cbn [globalTranslations]. apply mergeGlobal_is_Some. by eexists.
  - rewrite Hconcat, Htodo_eq. exact Hnd.
  - exact Hconcat.
  - intros Hfiles Hdry. by apply processMultipleFiles_requests.
Qed.

End MultiFileFacts.
(** ** Documents: reading and replacing nodes *)

Module JsonFacts.
Import JsString Json JsColl JsCollFacts.

Lemma map_get_app_fresh {V} (pre rest : list (string * V)) k v :
  k ∉ map fst pre → map_get (pre ++ (k, v) :: rest) k = Some v.
Proof.
  induction pre as [|[k' v'] pre IH]; intros Hk; cbn [app map_get].
  - by rewrite decide_True.
  - cbn [map fst] in Hk. apply not_elem_of_cons in Hk as [Hne Hk].
    rewrite decide_False by done. by apply IH.
Qed.

Lemma map_set_app_fresh {V} (pre rest : list (string * V)) k v v' :
  k ∉ map fst pre →
  map_set (pre ++ (k, v) :: rest) k v' = pre ++ (k, v') :: rest.
Proof.
  induction pre as [|[k1 v1] pre IH]; intros Hk; cbn [app map_set].
  - by rewrite decide_True.
  - cbn [map fst] in Hk. apply not_elem_of_cons in Hk as [Hne Hk].
    rewrite decide_False by done. by rewrite IH.
Qed.

Lemma map_set_same {V} (m : list (string * V)) k v :
  map_get m k = Some v → map_set m k v = m.
Proof.
  induction m as [|[k' v'] m IH]; cbn [map_get map_set]; [done|].
  destruct (decide (k' = k)) as [->|Hne].
  - by intros [= ->].
  - intros Hget. by rewrite IH.
Qed.

Lemma map_set_set {V} (m : list (string * V)) k v v' :
  map_set (map_set m k v) k v' = map_set m k v'.
Proof.
  induction m as [|[k1 v1] m IH]; cbn [map_set].
  - by rewrite decide_True.
  - destruct (decide (k1 = k)) as [->|Hne]; cbn [map_set].
    + by rewrite decide_True.
    + rewrite decide_False by done. by rewrite IH.
Qed.

Lemma locate_app root loc a :
  locate root (loc ++ [a])
  = match locate root loc with Some v => child v a | None => None end.
Proof.
  revert root. induction loc as [|b loc IH]; intros root; cbn [app locate].
  - by destruct (child root a).
  - destruct (child root b) as [c|]; [apply IH|done].
Qed.

Lemma child_leaf v a : isLeaf v = true → child v a = None.
Proof. by destruct v, a. Qed.

Lemma locate_leaf v a loc : isLeaf v = true → locate v (a :: loc) = None.
Proof. intros Hv. cbn [locate]. by rewrite child_leaf. Qed.

Lemma child_setChild_eq v a c x :
  child v a = Some c → child (setChild v a x) a = Some x.
Proof.
  destruct v as [| | | |items|fields], a as [k|i]; try done; cbn.
  - intros Hi. apply list_lookup_insert_eq. by eapply lookup_lt_Some.
  - intros Hget. apply map_get_set_eq.
Qed.

Lemma child_setChild_ne v a b x :
  a ≠ b → child (setChild v a x) b = child v b.
Proof.
  intros Hne. destruct v as [| | | |items|fields], a as [k|i], b as [k'|j];
    try done; cbn.
  - apply list_lookup_insert_ne. congruence.
  - apply map_get_set_ne. congruence.
Qed.

Lemma setChild_same v a c : child v a = Some c → setChild v a c = v.
Proof.
  destruct v as [| | | |items|fields], a as [k|i]; try done; cbn.
  - intros Hi. by rewrite list_insert_id.
  - intros Hget. by rewrite map_set_same.
Qed.

Lemma setChild_setChild v a x y :
  setChild (setChild v a x) a y = setChild v a y.
Proof.
  destruct v as [| | | |items|fields], a as [k|i]; try done; cbn.
  - by rewrite list_insert_insert_eq.
  - by rewrite map_set_set.
Qed.

Lemma locate_update_eq root loc v x :
  locate root loc = Some v → locate (update root loc x) loc = Some x.
Proof.
  revert root. induction loc as [|a loc IH]; intros root; cbn [locate update].
  - done.
  - destruct (child root a) as [c|] eqn:Hc; [|done]. intros Hloc.
    rewrite (child_setChild_eq _ _ c) by done. by apply IH.
Qed.

Lemma update_update root loc x y :
  update (update root loc x) loc y = update root loc y.
Proof.
  revert root. induction loc as [|a loc IH]; intros root; cbn [update].
  - done.
  - destruct (child root a) as [c|] eqn:Hc.
    + rewrite (child_setChild_eq _ _ c) by done.
      by rewrite IH, setChild_setChild.
    + by rewrite Hc.
Qed.

Lemma update_same root loc v :
  locate root loc = Some v → update root loc v = root.
Proof.
  revert root. induction loc as [|a loc IH]; intros root; cbn [locate update].
  - by intros [= ->].
  - destruct (child root a) as [c|] eqn:Hc; [|done]. intros Hloc.
    rewrite IH by done. by apply setChild_same.
Qed.

Lemma update_snoc root loc v a c x :
  locate root loc = Some v → child v a = Some c →
  update root (loc ++ [a]) x = update root loc (setChild v a x).
Proof.
  revert root. induction loc as [|b loc IH]; intros root;
    cbn [app locate update].
  - intros [= ->] Hc. by rewrite Hc.
  - destruct (child root b) as [d|] eqn:Hd; [|done]. intros Hloc Hc.
    by rewrite (IH d).
Qed.

Lemma depth_field fields k c :
  map_get fields k = Some c → depth c < depth (JObject fields).
Proof.
  cbn [depth]. induction fields as [|[k' c'] fields IH];
    cbn [map_get foldr snd]; [done|].
  destruct (decide (k' = k)) as [_|_].
  - intros [= ->]. lia.
  - intros Hget. specialize (IH Hget). lia.
Qed.

Lemma depth_item items i c :
  items !! i = Some c → depth c < depth (JArray items).
Proof.
  cbn [depth]. revert i. induction items as [|c' items IH]; intros [|i];
    cbn [foldr]; try done.
  - intros [= ->]. lia.
  - intros Hget. specialize (IH _ Hget). lia.
Qed.

Lemma depth_child v a c : child v a = Some c → depth c < depth v.
Proof.
  destruct v as [| | | |items|fields], a as [k|i]; try done; cbn [child].
  - apply depth_item.
  - apply depth_field.
Qed.

Lemma depthAt_snoc root loc v a :
  locate root loc = Some v → 0 < depth v →
  depthAt root (loc ++ [a]) < depth v.
Proof.
  intros Hloc Hpos. unfold depthAt. rewrite locate_app, Hloc.
  destruct (child v a) as [c|] eqn:Hc; [by eapply depth_child|done].
Qed.

(** *** The rebuild never deepens the document *)

Lemma depthAt_leaf y loc : isLeaf y = true → depthAt y loc = 0.
Proof.
  intros Hy. destruct loc as [|a loc]; unfold depthAt.
  - cbn [locate]. by destruct y.
  - by rewrite locate_leaf.
Qed.

Lemma noDeeper_refl root : noDeeper root root.
Proof. by intros loc. Qed.

Lemma noDeeper_trans r1 r2 r3 :
  noDeeper r1 r2 → noDeeper r2 r3 → noDeeper r1 r3.
Proof. intros H12 H23 loc. specialize (H12 loc). specialize (H23 loc). lia. Qed.

(** A write that leaves every child as it was or makes it a primitive. *)
Lemma noDeeper_children parent parent' :
  depth parent' ≤ depth parent →
  (∀ a, child parent' a = child parent a
        ∨ ∃ y, child parent' a = Some y ∧ isLeaf y = true) →
  noDeeper parent parent'.
Proof.
  intros Hd Hch [|a loc]; unfold depthAt; cbn [locate]; [done|].
  destruct (Hch a) as [->|(y & -> & Hy)]; [done|].
  fold (depthAt y loc). rewrite depthAt_leaf by done. lia.
Qed.

Local Abbreviation fieldsDepth :=
  (foldr (λ (kc : string * JsonValue) d, Nat.max (depth kc.2) d) 0).
Local Abbreviation itemsDepth :=
  (foldr (λ (c : JsonValue) d, Nat.max (depth c) d) 0).

Lemma fieldsDepth_app l1 l2 :
  fieldsDepth (l1 ++ l2) = Nat.max (fieldsDepth l1) (fieldsDepth l2).
Proof. induction l1 as [|kc l1 IH]; cbn [app foldr]; [done|]. rewrite IH. lia. Qed.

Lemma itemsDepth_app l1 l2 :
  itemsDepth (l1 ++ l2) = Nat.max (itemsDepth l1) (itemsDepth l2).
Proof. induction l1 as [|c l1 IH]; cbn [app foldr]; [done|]. rewrite IH. lia. Qed.

Lemma itemsDepth_replicate n : itemsDepth (replicate n JNull) = 0.
Proof. induction n as [|n IH]; cbn [replicate foldr depth]; [done|]. by rewrite IH. Qed.

Lemma fieldsDepth_map_set fields k c x :
  map_get fields k = Some c → depth x ≤ depth c →
  fieldsDepth (map_set fields k x) ≤ fieldsDepth fields.
Proof.
  intros Hget Hx. induction fields as [|[k' c'] fields IH];
    cbn [map_get map_set] in *; [done|].
  destruct (decide (k' = k)) as [->|Hne]; cbn [foldr snd].
  - injection Hget as ->. lia.
  - specialize (IH Hget). lia.
Qed.

Lemma itemsDepth_insert items i c x :
  items !! i = Some c → depth x ≤ depth c →
  itemsDepth (<[i := x]> items) ≤ itemsDepth items.
Proof.
  revert i. induction items as [|c' items IH]; intros [|i] Hget Hx;
    cbn [foldr] in *; try done.
  - injection Hget as ->. cbn. lia.
  - cbn [insert list_insert foldr]. apply Nat.max_le_compat_l.
    by apply IH.
Qed.

Lemma fieldsDepth_insertIndexKey i k x fields :
  depth x = 0 →
  fieldsDepth (insertIndexKey i k x fields) = fieldsDepth fields.
Proof.
  intros Hx. induction fields as [|[k' c'] fields IH];
    cbn [insertIndexKey foldr snd].
  - lia.
  - destruct (arrayIndex k') as [j|]; [destruct (decide (j < i))|];
      cbn [foldr snd]; lia.
Qed.

Lemma map_get_app_None {V} (m : list (string * V)) k x k' :
  map_get m k = None →
  map_get (m ++ [(k, x)]) k' = if decide (k = k') then Some x else map_get m k'.
Proof.
  induction m as [|[k1 x1] m IH]; cbn [app map_get]; [done|].
  destruct (decide (k1 = k)) as [->|Hne]; [done|]. intros Hget.
  rewrite IH by done.
  destruct (decide (k1 = k')) as [->|?]; [by rewrite decide_False|done].
Qed.

Lemma map_get_insertIndexKey i k x fields k' :
  map_get fields k = None →
  map_get (insertIndexKey i k x fields) k'
  = if decide (k = k') then Some x else map_get fields k'.
Proof.
  induction fields as [|[k1 x1] fields IH]; cbn [insertIndexKey map_get];
    [done|].
  destruct (decide (k1 = k)) as [->|Hne]; [done|]. intros Hget.
  destruct (arrayIndex k1) as [j|]; [destruct (decide (j < i))|];
    cbn [map_get]; try done.
  rewrite IH by done.
  destruct (decide (k1 = k')) as [->|?]; [by rewrite decide_False|done].
Qed.

Lemma map_get_objSet fields k x k' :
  map_get (objSet fields k x) k'
  = if decide (k = k') then Some x else map_get fields k'.
Proof.
  unfold objSet. destruct (map_get fields k) as [c|] eqn:Hget.
  - destruct (decide (k = k')) as [<-|Hne].
    + apply map_get_set_eq.
    + by apply map_get_set_ne.
  - destruct (arrayIndex k) as [i|].
    + by apply map_get_insertIndexKey.
    + by apply map_get_app_None.
Qed.

Lemma fieldsDepth_objSet fields k x :
  depth x = 0 → fieldsDepth (objSet fields k x) ≤ fieldsDepth fields.
Proof.
  intros Hx. unfold objSet. destruct (map_get fields k) as [c|] eqn:Hget.
  - eapply fieldsDepth_map_set; [done|lia].
  - destruct (arrayIndex k) as [i|].
    + by rewrite fieldsDepth_insertIndexKey.
    + rewrite fieldsDepth_app. cbn [foldr snd]. lia.
Qed.

Lemma itemsDepth_arrSet items i x :
  depth x = 0 → itemsDepth (arrSet items i x) ≤ itemsDepth items.
Proof.
  intros Hx. unfold arrSet. destruct (decide (i < length items)) as [Hi|Hi].
  - destruct (lookup_lt_is_Some_2 items i Hi) as [c Hc].
    eapply itemsDepth_insert; [done|lia].
  - rewrite !itemsDepth_app, itemsDepth_replicate. cbn [foldr]. lia.
Qed.

Lemma lookup_arrSet items i x j :
  isLeaf x = true →
  arrSet items i x !! j = items !! j
  ∨ ∃ y, arrSet items i x !! j = Some y ∧ isLeaf y = true.
Proof.
  intros Hx. unfold arrSet. destruct (decide (i < length items)) as [Hi|Hi].
  - destruct (decide (i = j)) as [<-|Hne].
    + right. exists x. by rewrite list_lookup_insert_eq.
    + left. by apply list_lookup_insert_ne.
  - destruct (decide (j < length items)) as [Hj|Hj].
    + left. by apply lookup_app_l.
    + rewrite lookup_app_r by lia.
      destruct ((replicate (i - length items) JNull ++ [x])
                  !! (j - length items)) as [y|] eqn:Hy.
      * right. exists y. split; [done|].
        apply list_elem_of_lookup_2 in Hy.
        apply elem_of_app in Hy as [Hy|Hy].
        { by apply elem_of_replicate in Hy as [-> _]. }
        by apply list_elem_of_singleton in Hy as ->.
      * left. symmetry. apply lookup_ge_None. lia.
Qed.

Lemma depth_setChild v a c c' :
  child v a = Some c → depth c' ≤ depth c → depth (setChild v a c') ≤ depth v.
Proof.
  destruct v as [| | | |items|fields], a as [k|i]; try done;
    cbn [child setChild depth]; intros Hc Hd.
  - pose proof (itemsDepth_insert items i c c' Hc Hd). lia.
  - pose proof (fieldsDepth_map_set fields k c c' Hc Hd). lia.
Qed.

Lemma noDeeper_setChild v a c c' :
  child v a = Some c → noDeeper c c' → noDeeper v (setChild v a c').
Proof.
  intros Hc Hcc' [|b loc]; unfold depthAt; cbn [locate].
  - eapply depth_setChild; [done|]. apply (Hcc' []).
  - destruct (decide (a = b)) as [<-|Hne].
    + rewrite (child_setChild_eq _ _ c) by done. rewrite Hc.
      apply (Hcc' loc).
    + by rewrite child_setChild_ne.
Qed.

End JsonFacts.
(** ** Reconstructor: the rebuild on plain documents *)

Module ReconstructFacts.
Import JsString Json JsColl Reconstruct JsCollFacts JsStringFacts JsonFacts.

Lemma decode_plain k : plainKey k = true → decode k = KStr k.
Proof.
  unfold plainKey, decode. intros Hk. apply negb_true_iff in Hk.
  by rewrite Hk.
Qed.

(** An index segment is read back as the index it was written from. *)
Lemma decode_indexSegment i :
  decode (indexSegment i) = KNum (Some (Z.of_nat i)).
Proof.
  unfold decode, indexSegment.
  change ("[" +:+ natToString i +:+ "]")
    with (String "[" (natToString i +:+ String "]" "")).
  pose proof (endsWith_snoc (natToString i) "]") as Hends.
  pose proof (dropLast_snoc (natToString i) "]") as Hdrop.
  cbn [startsWith endsWith slice_1_m1].
  destruct (natToString i +:+ String "]" "") as [|c rest] eqn:Hs.
  { by destruct (natToString i). }
  rewrite bool_decide_eq_true_2 by done. rewrite Hends. cbn [andb].
  rewrite Hdrop. unfold natToString. rewrite parseInt_nToString.
  by rewrite nat_N_Z.
Qed.

Lemma keyIndex_indexSegment i :
  (N.of_nat i < indexLimit)%N → keyIndex (decode (indexSegment i)) = Some i.
Proof.
  intros Hi. rewrite decode_indexSegment. cbn [keyIndex].
  replace (0 <=? Z.of_nat i)%Z with true by (symmetry; apply Z.leb_le; lia).
  replace (Z.of_nat i <? Z.of_N indexLimit)%Z with true
    by (symmetry; apply Z.ltb_lt; lia).
  cbn [andb]. by rewrite Nat2Z.id.
Qed.

Lemma readSlot_decodes parent p a c :
  decodes p a → child parent a = Some c →
  readSlot parent (decode p) = Some a.
Proof.
  destruct parent as [| | | |items|fields], a as [k|i]; try done;
    cbn [child decodes readSlot].
  - intros [-> Hi] Hc. rewrite keyIndex_indexSegment by done.
    apply lookup_lt_Some in Hc. by rewrite decide_True.
  - intros [-> Hk] Hc. rewrite decode_plain by done. cbn [keyName].
    by rewrite Hc.
Qed.

Lemma writeProp_decodes parent p a c x :
  decodes p a → child parent a = Some c →
  writeProp parent (decode p) x = Ok (setChild parent a x).
Proof.
  destruct parent as [| | | |items|fields], a as [k|i]; try done;
    cbn [child decodes writeProp setChild].
  - intros [-> Hi] Hc. rewrite keyIndex_indexSegment by done.
    apply lookup_lt_Some in Hc. unfold arrSet. by rewrite decide_True.
  - intros [-> Hk] Hc. rewrite decode_plain by done. cbn [keyName].
    unfold objSet. rewrite Hc.
    destruct (decide (k = "__proto__")) as [->|_]; [by rewrite Hc|done].
Qed.

Lemma depth_leaf y : isLeaf y = true → depth y = 0.
Proof. by destruct y. Qed.

Lemma writeProp_noDeeper parent key x parent' :
  isLeaf x = true → writeProp parent key x = Ok parent' →
  noDeeper parent parent'.
Proof.
  intros Hx. pose proof (depth_leaf x Hx) as Hdx.
  assert (∀ fields, noDeeper (JObject fields)
                      (JObject (objSet fields (keyName key) x))) as Hobj.
  { intros fields. apply noDeeper_children.
    - cbn [depth]. pose proof (fieldsDepth_objSet fields (keyName key) x Hdx).
      lia.
    - intros [k'|i]; [|by left]. cbn [child]. rewrite map_get_objSet.
      destruct (decide (keyName key = k')); [right; by exists x|by left]. }
  destruct parent as [| | | |items|fields]; cbn [writeProp]; try done.
  - destruct (keyIndex key) as [i|].
    + intros [= <-]. apply noDeeper_children.
      * cbn [depth]. pose proof (itemsDepth_arrSet items i x Hdx). lia.
      * intros [k'|j]; [by left|]. cbn [child]. by apply lookup_arrSet.
    + destruct (decide (keyName key = "length")); [done|].
      intros [= <-]. apply noDeeper_refl.
  - destruct (decide (keyName key = "__proto__")).
    + destruct (map_get fields "__proto__"); intros [= <-];
        [apply Hobj|apply noDeeper_refl].
    + intros [= <-]. apply Hobj.
Qed.

Lemma writeProp_fuel parent key x : writeProp parent key x ≠ OutOfFuel.
Proof.
  destruct parent as [| | | |items|fields]; cbn [writeProp]; try done.
  - destruct (keyIndex key); [done|].
    by destruct (decide (keyName key = "length")).
  - destruct (decide (keyName key = "__proto__")); [|done].
    by destruct (map_get fields "__proto__").
Qed.

(** The walk and the assignment need no fuel. *)
Lemma assign_fuel x path : ∀ root, assign path x root ≠ OutOfFuel.
Proof.
  induction path as [|p path IH]; intros root; cbn [assign]; [done|].
  destruct path as [|p' path']; [apply writeProp_fuel|].
  destruct (readSlot root (decode p)) as [a|]; [|done].
  destruct (child root a) as [c|]; [|done].
  specialize (IH c). by destruct (assign (p' :: path') x c).
Qed.

Lemma assign_noDeeper x path :
  isLeaf x = true →
  ∀ root root', assign path x root = Ok root' → noDeeper root root'.
Proof.
  intros Hx. induction path as [|p path IH]; intros root root';
    cbn [assign]; [done|].
  destruct path as [|p' path']; [by apply writeProp_noDeeper|].
  destruct (readSlot root (decode p)) as [a|]; [|done].
  destruct (child root a) as [c|] eqn:Hc; [|done].
  destruct (assign (p' :: path') x c) as [c'| |] eqn:Hassign; try done.
  intros [= <-]. eapply noDeeper_setChild; [done|]. by apply IH.
Qed.

(** A loop whose body keeps an invariant and needs no more fuel. *)
Lemma forEachM_invariant {B} (P : JsonValue → Prop)
  (f : B → JsonValue → Result JsonValue) (xs : list B) :
  (∀ x root, P root →
     f x root ≠ OutOfFuel ∧ ∀ root', f x root = Ok root' → P root') →
  ∀ root, P root →
    forEachM f xs root ≠ OutOfFuel
    ∧ ∀ root', forEachM f xs root = Ok root' → P root'.
Proof.
  intros Hf. induction xs as [|x xs IH]; intros root HP; cbn [forEachM].
  - split; [done|]. by intros root' [= <-].
  - destruct (Hf x root HP) as [Hfuel Hok].
    destruct (f x root) as [root1| |]; [|done..].
    apply IH. by apply Hok.
Qed.

Section Apply.
Context (hashString : string → string).
Context (sourcePathMap : list (string * string)).
Context (translations : gmap string string).

Local Abbreviation run :=
  (applyTranslations hashString sourcePathMap translations).
Local Abbreviation resolved :=
  (resolveAll hashString sourcePathMap translations).

(** On a plain document the walk reaches the leaf it set out for. *)
Lemma assign_at x :
  ∀ path loc root,
    Forall2 decodes path loc → loc ≠ [] → is_Some (locate root loc) →
    Reconstruct.assign path x root = Ok (update root loc x).
Proof.
  intros path loc root Hpl. revert root.
  induction Hpl as [|p a path loc Hpa Hpl IH]; intros root Hne Hsome; [done|].
  cbn [locate] in Hsome. destruct (child root a) as [c|] eqn:Hc;
    [|by destruct Hsome].
  cbn [Reconstruct.assign update]. rewrite Hc.
  destruct Hpl as [|p' a' path' loc' Hpa' Hpl'].
  - cbn [update]. by eapply writeProp_decodes.
  - rewrite (readSlot_decodes root p a c) by done. rewrite Hc.
    by rewrite IH.
Qed.

Lemma resolveAll_object path fields :
  resolved path (JObject fields)
  = JObject (map (λ kc, (kc.1, resolved (path ++ [kc.1]) kc.2)) fields).
Proof.
  cbn [resolveAll]. f_equal.
  induction fields as [|[k c] fields IH]; [done|].
  cbn [map fst snd]. by rewrite IH.
Qed.

Lemma resolveAll_array path items :
  resolved path (JArray items)
  = JArray (imap (λ i c, resolved (path ++ [indexSegment i]) c) items).
Proof.
  cbn [resolveAll]. f_equal.
  change (λ i c, resolved (path ++ [indexSegment i]) c)
    with (λ i c, resolved (path ++ [indexSegment (0 + i)]) c).
  generalize 0 as i0.
  induction items as [|c items IH]; intros i0; [done|].
  rewrite imap_cons, Nat.add_0_r, (IH (S i0)). f_equal.
  apply imap_ext. intros i y _. cbn. by rewrite Nat.add_succ_r.
Qed.

Lemma visitLeaf_at path loc root s :
  Forall2 decodes path loc → loc ≠ [] → locate root loc = Some (JString s) →
  visitLeaf hashString sourcePathMap translations path root
  = Ok (update root loc (resolved path (JString s))).
Proof.
  intros Hpl Hne Hloc. unfold visitLeaf. cbn [resolveAll]. unfold resolve.
  destruct (map_get sourcePathMap (flatPath path)) as [sourceString|];
    [|by rewrite (update_same _ _ _ Hloc)].
  destruct (translations !! hashString sourceString) as [translated|];
    [|by rewrite (update_same _ _ _ Hloc)].
  destruct (truthy translated); [|by rewrite (update_same _ _ _ Hloc)].
  apply assign_at; [done..|by rewrite Hloc].
Qed.

Lemma plainDocument_object fields :
  plainDocument (JObject fields) = true →
  NoDup (map fst fields)
  ∧ Forall (λ kc, plainKey kc.1 = true ∧ plainDocument kc.2 = true) fields.
Proof.
  cbn [plainDocument]. intros [Hnd Hall]%andb_true_iff. split.
  - by apply bool_decide_eq_true in Hnd.
  - apply Forall_forall. intros kc Hkc. rewrite forallb_forall in Hall.
    apply andb_true_iff, Hall, list_elem_of_In, Hkc.
Qed.

Lemma plainDocument_array items :
  plainDocument (JArray items) = true →
  (N.of_nat (length items) < indexLimit)%N
  ∧ Forall (λ c, plainDocument c = true) items.
Proof.
  cbn [plainDocument]. intros [Hlen Hall]%andb_true_iff. split.
  - by apply bool_decide_eq_true in Hlen.
  - apply Forall_forall. intros c Hc. rewrite forallb_forall in Hall.
    apply Hall, list_elem_of_In, Hc.
Qed.

Section Loops.
Context (fuel : nat) (loc : list Access) (path : list string).
Context (Hpath : Forall2 decodes path loc).
Context (IHfuel : ∀ v a p root,
  locate root (loc ++ [a]) = Some v → plainDocument v = true →
  decodes p a → depth v < fuel →
  run fuel (loc ++ [a]) (path ++ [p]) root
  = Ok (update root (loc ++ [a]) (resolved (path ++ [p]) v))).

(** The loop over the keys of an object: the fields before the current
    one are resolved, those after it are as they were. *)
Lemma forEach_fields :
  ∀ todo pre root,
    NoDup (map fst (pre ++ todo)) →
    Forall (λ kc, (plainKey kc.1 = true ∧ plainDocument kc.2 = true)
                  ∧ depth kc.2 < fuel) todo →
    locate root loc = Some (JObject (pre ++ todo)) →
    forEachM (λ key, run fuel (loc ++ [AProp key]) (path ++ [key]))
      (map fst todo) root
    = Ok (update root loc
            (JObject (pre ++ map (λ kc, (kc.1, resolved (path ++ [kc.1]) kc.2))
                               todo))).
Proof.
  induction todo as [|[k c] todo IH]; intros pre root Hnd Hall Hloc.
  - cbn [map forEachM]. by rewrite (update_same _ _ _ Hloc).
  - apply Forall_cons in Hall as [[[Hk Hc] Hd] Hall]. cbn [fst snd] in *.
    assert (k ∉ map fst pre) as Hfresh.
    { rewrite map_app in Hnd. apply NoDup_app in Hnd as (_ & Hdisj & _).
      intros Hin. apply (Hdisj _ Hin). cbn [map fst]. apply list_elem_of_here. }
    assert (child (JObject (pre ++ (k, c) :: todo)) (AProp k) = Some c)
      as Hchild by (cbn [child]; by apply map_get_app_fresh).
    cbn [map fst snd forEachM].
    rewrite (IHfuel c (AProp k) k root); [| |done|done|done].
    2: { by rewrite locate_app, Hloc. }
    rewrite (update_snoc _ _ _ _ c _ Hloc Hchild). cbn [setChild].
    rewrite map_set_app_fresh by done.
    set (c' := resolved (path ++ [k]) c).
    rewrite (IH (pre ++ [(k, c')])).
    + rewrite update_update. by rewrite <- !app_assoc.
    + rewrite <- app_assoc. cbn [app]. rewrite !map_app in *.
      cbn [map fst] in *. exact Hnd.
    + done.
    + rewrite <- app_assoc. by eapply locate_update_eq.
Qed.

(** The loop over the indices of an array. *)
Lemma forEach_items :
  ∀ todo pre root,
    (N.of_nat (length (pre ++ todo)) < indexLimit)%N →
    Forall (λ c, plainDocument c = true ∧ depth c < fuel) todo →
    locate root loc = Some (JArray (pre ++ todo)) →
    forEachM (λ index, run fuel (loc ++ [AIdx index])
                         (path ++ [indexSegment index]))
      (seq (length pre) (length todo)) root
    = Ok (update root loc
            (JArray (pre ++ imap (λ i c, resolved
                                    (path ++ [indexSegment (length pre + i)]) c)
                              todo))).
Proof.
  induction todo as [|c todo IH]; intros pre root Hlen Hall Hloc.
  - cbn [length seq forEachM imap]. by rewrite (update_same _ _ _ Hloc).
  - apply Forall_cons in Hall as [[Hc Hd] Hall].
    assert (child (JArray (pre ++ c :: todo)) (AIdx (length pre)) = Some c)
      as Hchild by (cbn [child]; by apply list_lookup_middle).
    cbn [length seq forEachM].
    rewrite (IHfuel c (AIdx (length pre)) (indexSegment (length pre)) root);
      [| |done| |done].
    2: { by rewrite locate_app, Hloc. }
    2: { split; [done|]. rewrite length_app in Hlen. cbn [length] in Hlen. lia. }
    rewrite (update_snoc _ _ _ _ c _ Hloc Hchild). cbn [setChild].
    rewrite insert_app_r_alt by lia. rewrite Nat.sub_diag.
    cbn [insert list_insert].
    set (c' := resolved (path ++ [indexSegment (length pre)]) c).
    replace (S (length pre)) with (length (pre ++ [c']))
      by (rewrite length_app; cbn [length]; lia).
    rewrite (IH (pre ++ [c'])).
    + rewrite update_update, <- !app_assoc. cbn [app].
      rewrite imap_cons, Nat.add_0_r. fold c'.
      rewrite (imap_ext
        (λ i c0, resolved (path ++ [indexSegment (length (pre ++ [c']) + i)]) c0)
        ((λ i c0, resolved (path ++ [indexSegment (length pre + i)]) c0) ∘ S));
        [done|].
      intros i y _. cbn. rewrite length_app. cbn [length].
      by replace (length pre + 1 + i) with (length pre + S i) by lia.
    + rewrite <- app_assoc. cbn [app].
      rewrite length_app in *. cbn [length] in *. done.
    + done.
    + rewrite <- app_assoc. by eapply locate_update_eq.
Qed.

End Loops.

(** The rebuild of the node at [loc], on a plain document. *)
Lemma applyTranslations_plain :
  ∀ fuel v loc path root,
    locate root loc = Some v → plainDocument v = true →
    Forall2 decodes path loc → depth v < fuel →
    loc ≠ [] ∨ (∀ s, v ≠ JString s) →
    run fuel loc path root = Ok (update root loc (resolved path v)).
Proof.
  induction fuel as [|fuel IH]; intros v loc path root Hloc Hplain Hpath Hd Htop;
    [lia|].
  cbn [applyTranslations]. rewrite Hloc.
  assert (∀ v' a p root',
    locate root' (loc ++ [a]) = Some v' → plainDocument v' = true →
    decodes p a → depth v' < fuel →
    run fuel (loc ++ [a]) (path ++ [p]) root'
    = Ok (update root' (loc ++ [a]) (resolved (path ++ [p]) v'))) as IHchild.
  { intros v' a p root' Hloc' Hplain' Hpa Hd'. apply IH; [done|done| |done|].
    - apply Forall2_app; [done|]. by constructor.
    - left. by destruct loc. }
  destruct v as [|b|n|s|items|fields].
  - cbn [resolveAll]. by rewrite (update_same _ _ _ Hloc).
  - cbn [resolveAll]. by rewrite (update_same _ _ _ Hloc).
  - cbn [resolveAll]. by rewrite (update_same _ _ _ Hloc).
  - destruct Htop as [Hne|Hns]; [|by destruct (Hns s)].
    by apply visitLeaf_at.
  - apply plainDocument_array in Hplain as [Hlen Hall].
    rewrite resolveAll_array.
    apply (forEach_items fuel loc path IHchild items [] root); [done| |done].
    apply Forall_forall. intros c Hc. split.
    + by eapply Forall_forall in Hall.
    + apply list_elem_of_lookup in Hc as [i Hi].
      apply depth_item in Hi. lia.
  - apply plainDocument_object in Hplain as [Hnd Hall].
    rewrite resolveAll_object.
    apply (forEach_fields fuel loc path IHchild fields [] root); [done| |done].
    apply Forall_forall. intros kc Hkc. split.
    + by eapply Forall_forall in Hall.
    + assert (depth kc.2 < depth (JObject fields)); [|lia].
      clear -Hkc. cbn [depth]. induction Hkc as [kc l|kc kc' l Hkc IH];
        cbn [foldr]; lia.
Qed.

(** On a plain document whose root is not a bare string, the rebuild
    returns the document with every string leaf resolved. *)
Lemma rebuildDocument_plain (sourceJson : JsonValue) :
  plainDocument sourceJson = true → (∀ s, sourceJson ≠ JString s) →
  rebuildDocument hashString sourcePathMap translations sourceJson
  = Ok (resolved [] sourceJson).
Proof.
  intros Hplain Hroot. unfold rebuildDocument.
  rewrite (applyTranslations_plain _ sourceJson [] [] sourceJson);
    [done|done|done|constructor|lia|by right].
Qed.

Lemma visitLeaf_noDeeper path root :
  visitLeaf hashString sourcePathMap translations path root ≠ OutOfFuel
  ∧ ∀ root', visitLeaf hashString sourcePathMap translations path root
             = Ok root' → noDeeper root root'.
Proof.
  unfold visitLeaf.
  assert (Ok root ≠ OutOfFuel
          ∧ ∀ root', Ok root = Ok root' → noDeeper root root') as Hsame.
  { split; [done|]. intros root' [= <-]. apply noDeeper_refl. }
  destruct (map_get sourcePathMap (flatPath path)) as [sourceString|];
    [|done].
  destruct (translations !! hashString sourceString) as [translated|];
    [|done].
  destruct (truthy translated); [|done]. split.
  - apply assign_fuel.
  - intros root'. by apply assign_noDeeper.
Qed.

(** With more fuel than the node at [loc] is deep, the rebuild of that
    node ends, and it leaves no node deeper than it was. *)
Lemma applyTranslations_fuel :
  ∀ fuel loc path root,
    depthAt root loc < fuel →
    run fuel loc path root ≠ OutOfFuel
    ∧ ∀ root', run fuel loc path root = Ok root' → noDeeper root root'.
Proof.
  induction fuel as [|fuel IH]; intros loc path root Hd; [lia|].
  cbn [applyTranslations]. unfold depthAt in Hd.
  assert (Ok root ≠ OutOfFuel
          ∧ ∀ root', Ok root = Ok root' → noDeeper root root') as Hsame.
  { split; [done|]. intros root' [= <-]. apply noDeeper_refl. }
  destruct (locate root loc) as [v|] eqn:Hloc; [|done].
  assert (∀ a p root1, 0 < depth v → noDeeper root root1 →
    run fuel (loc ++ [a]) (path ++ [p]) root1 ≠ OutOfFuel
    ∧ ∀ root', run fuel (loc ++ [a]) (path ++ [p]) root1 = Ok root' →
               noDeeper root root') as Hstep.
  { intros a p root1 Hpos H1.
    pose proof (depthAt_snoc root loc v a Hloc Hpos) as Hchild.
    pose proof (H1 (loc ++ [a])) as Hle.
    destruct (IH (loc ++ [a]) (path ++ [p]) root1) as [Hfuel Hok]; [lia|].
    split; [done|]. intros root' Hrun.
    eapply noDeeper_trans; [done|]. by apply Hok. }
  destruct v as [|b|n|s|items|fields]; try done.
  - apply visitLeaf_noDeeper.
  - apply (forEachM_invariant (noDeeper root)); [|apply noDeeper_refl].
    intros index root1 H1. apply Hstep; [cbn [depth]; lia|done].
  - apply (forEachM_invariant (noDeeper root)); [|apply noDeeper_refl].
    intros key root1 H1. apply Hstep; [cbn [depth]; lia|done].
Qed.

(** The fuel [rebuildDocument] gives is enough for every document. *)
Lemma rebuildDocument_fuel (sourceJson : JsonValue) :
  rebuildDocument hashString sourcePathMap translations sourceJson
  ≠ OutOfFuel.
Proof.
  unfold rebuildDocument. apply applyTranslations_fuel.
  unfold depthAt. cbn [locate]. lia.
Qed.

End Apply.

End ReconstructFacts.
(** ** Backends: a response that breaks the contract *)

Module ProviderFacts.
Import JsString Json Provider.

(** [validateResponse] returns exactly when the response has one
    acceptable element per request string. *)
Lemma validateResponse_true strings translations :
  validateResponse strings translations = true
  ↔ length translations = length strings
    ∧ Forall (λ t, acceptable t = true) translations.
Proof.
  unfold validateResponse.
  destruct (decide (length translations ≠ length strings)) as [Hne|Heq].
  - split; [done|]. by intros [Hlen _].
  - rewrite forallb_forall, Forall_forall. split.
    + intros Hall. split; [lia|]. intros t Ht. by apply Hall, list_elem_of_In.
    + intros [_ Hall] t Ht. by apply Hall, list_elem_of_In.
Qed.

Lemma validateResponse_length strings translations :
  length translations ≠ length strings →
  validateResponse strings translations = false.
Proof. intros Hne. unfold validateResponse. by rewrite decide_True. Qed.

Lemma validateResponse_blank strings translations t :
  t ∈ translations → acceptable t = false →
  validateResponse strings translations = false.
Proof.
  intros Ht Hacc. destruct (validateResponse strings translations) eqn:Hv;
    [|done].
  apply validateResponse_true in Hv as [_ Hall].
  rewrite Forall_forall in Hall. specialize (Hall t Ht). congruence.
Qed.

(** A rejected [translate] leaves the batch with no translation at all. *)
Lemma translateBatch_rejected H requestNo strings targetLang translator
    sourceLang shouldPreserveFormats context :
  translate translator requestNo
    (requestStrings H shouldPreserveFormats strings) targetLang sourceLang
    context = Rejected →
  translateBatch H requestNo strings targetLang translator sourceLang
    shouldPreserveFormats context = [].
Proof. intros Hrej. unfold translateBatch. by rewrite Hrej. Qed.

(** A response that fails the validation is fatal for its batch. *)
Lemma translateBatch_violation H providerName reply detect requestNo strings
    targetLang sourceLang shouldPreserveFormats context translations :
  reply requestNo (requestStrings H shouldPreserveFormats strings)
  = Parsed translations →
  validateResponse (requestStrings H shouldPreserveFormats strings)
    translations = false →
  translateBatch H requestNo strings targetLang
    (validatingProvider providerName reply detect) sourceLang
    shouldPreserveFormats context = [].
Proof.
  intros Hreply Hbad. apply translateBatch_rejected.
  cbn [translate validatingProvider]. unfold validatingTranslate.
  by rewrite Hreply, Hbad.
Qed.

(** A provider that retries rejects only when every attempt fails. *)
Lemma retryLoop_rejected reply requestNo strings remaining :
  ∀ attempt,
    (∀ k, attempt ≤ k < attempt + remaining →
       match reply requestNo k strings with
       | Parsed translations => validateResponse strings translations = false
       | ApiFailure => True
       end) →
    retryLoop reply requestNo strings attempt remaining = Rejected.
Proof.
  induction remaining as [|remaining IH]; intros attempt Hall; cbn [retryLoop];
    [done|].
  pose proof (Hall attempt ltac:(lia)) as Hfirst.
  assert (retryLoop reply requestNo strings (S attempt) remaining = Rejected)
    as Hrest by (apply IH; intros k Hk; apply Hall; lia).
  destruct (reply requestNo attempt strings) as [|translations]; [done|].
  by rewrite Hfirst.
Qed.

(** A violation followed by a valid answer to the retry: the batch is
    translated. *)
Lemma retryingTranslate_second_attempt reply requestNo strings targetLang
    sourceLang context bad good :
  reply requestNo 1 strings = Parsed bad →
  validateResponse strings bad = false →
  reply requestNo 2 strings = Parsed good →
  validateResponse strings good = true →
  retryingTranslate reply requestNo strings targetLang sourceLang context
  = Resolved (map stringOf good).
Proof.
  intros Hbad Hvbad Hgood Hvgood. unfold retryingTranslate, maxRetries.
  cbn [retryLoop]. by rewrite Hbad, Hvbad, Hgood, Hvgood.
Qed.

End ProviderFacts.

(** ** The single-file run: requests, translation table, pruning *)

Module SingleFileFacts.
Import JsString JsColl Json Reconstruct Batch Provider Store Pipeline.
Import JsCollFacts BatchFacts StoreFacts.

Lemma compareWithCache_fold H langCache strs table todo :
  NoDup todo →
  NoDup (foldl (compareOne H langCache) (table, todo) strs).2
  ∧ ∀ s, s ∈ (foldl (compareOne H langCache) (table, todo) strs).2 →
         s ∈ todo ∨ s ∈ strs.
Proof.
  revert table todo. induction strs as [|str strs IH]; intros table todo Hnd;
    cbn [foldl].
  - split; [done|]. by left.
  - unfold compareOne at 2 4.
    destruct (cacheHit (langCache !! hashString H str)) as [cached|].
    + destruct (IH (<[hashString H str := cached]> table) todo Hnd)
        as [Hnd' Hin].
      split; [done|]. intros s Hs. destruct (Hin s Hs); [by left|].
      right. by apply list_elem_of_further.
    + destruct (IH table (set_add todo str) (NoDup_set_add _ _ Hnd))
        as [Hnd' Hin].
      split; [done|]. intros s Hs.
      destruct (Hin s Hs) as [Hs'|Hs'].
      * apply elem_of_set_add in Hs' as [?| ->]; [by left|].
        right. apply list_elem_of_here.
      * right. by apply list_elem_of_further.
Qed.

(** No string is in two requests of a single-file run, or twice in one. *)
Lemma translateSingle_batches_distinct H translator o sourceFilePath lang
    sourceLang loaded sourcePathMap :
  NoDup (concat (batches (translateSingle H translator o sourceFilePath lang
                            sourceLang loaded
                            (allSourceStringsOf sourcePathMap)))).
Proof.
  unfold translateSingle.
  set (all := allSourceStringsOf sourcePathMap).
  assert (NoDup (if useCache o
                 then compareWithCache H
                        (langCacheOf loaded sourceFilePath lang) all
                 else (∅, all)).2) as Hnd.
  { destruct (useCache o); [|apply NoDup_set_of].
    apply compareWithCache_fold, NoDup_nil_2. }
  destruct (if useCache o then _ else _) as [cached toTranslate].
  cbn [snd] in Hnd.
  destruct (mergeBatches _ _ _ _ _ _) as [[merged cache1] count].
  destruct (if useCache o then pruneCache _ _ _ _ else _) as [cache2 pruned].
  cbn [batches].
  by destruct (singleFileBatches_shape toTranslate) as (_ & -> & _).
Qed.

(** With the cache enabled, what a single-file run keeps for its document
    and language are entries of current strings only. *)
Lemma translateSingle_pruned H translator o sourceFilePath lang sourceLang
    loaded allSourceStrings hash translated :
  useCache o = true →
  cacheLookup (translationCache
                 (translateSingle H translator o sourceFilePath lang
                    sourceLang loaded allSourceStrings))
    sourceFilePath lang hash = Some translated →
  hash ∈ map (hashString H) allSourceStrings.
Proof.
  intros Hcache. unfold translateSingle. rewrite Hcache.
  destruct (compareWithCache _ _ _) as [cached toTranslate].
  destruct (mergeBatches _ _ _ _ _ _) as [[merged cache1] count].
  pose proof (pruneCache_lookup cache1 sourceFilePath lang
                (map (hashString H) allSourceStrings) hash) as Hprune.
  destruct (pruneCache _ _ _ _) as [cache2 pruned].
  cbn [translationCache fst] in *. rewrite Hprune.
  by destruct (decide (hash ∈ map (hashString H) allSourceStrings)).
Qed.

(** Where an entry of the translation table comes from: the table the
    merge started with, or a pair of some batch's result. *)
Lemma mergeBatches_sources H o sourceFilePath lang st results hash translated :
  (mergeBatches H o sourceFilePath lang st results).1.1 !! hash
  = Some translated →
  st.1.1 !! hash = Some translated
  ∨ ∃ batchMap original,
      batchMap ∈ results ∧ (original, translated) ∈ batchMap
      ∧ hashString H original = hash.
Proof.
  unfold mergeBatches. revert st.
  induction results as [|batchMap results IH]; intros st; cbn [foldl].
  - by left.
  - intros Hfinal. destruct (IH _ Hfinal) as [Hinner|(bm & orig & Hbm & Hpair & Hh)].
    + clear IH Hfinal. revert st Hinner.
      assert (∀ pairs st,
        (foldl (mergeOne H o sourceFilePath lang) st pairs).1.1 !! hash
        = Some translated →
        st.1.1 !! hash = Some translated
        ∨ ∃ original, (original, translated) ∈ pairs
                      ∧ hashString H original = hash) as Hone.
      { induction pairs as [|[orig tr] pairs IHp]; intros st; cbn [foldl];
          [by left|].
        intros Hget. destruct (IHp _ Hget) as [Hst|(orig' & Hin & Hh)].
        - destruct st as [[table cache] count]. cbn [mergeOne fst] in Hst.
          destruct (decide (hashString H orig = hash)) as [<-|Hne].
          + rewrite lookup_insert_eq in Hst. injection Hst as ->.
            right. exists orig. split; [apply list_elem_of_here|done].
          + rewrite lookup_insert_ne in Hst by done. by left.
        - right. exists orig'. split; [by apply list_elem_of_further|done]. }
      intros st Hinner. destruct (Hone batchMap st Hinner)
        as [Hst|(orig & Hin & Hh)]; [by left|].
      right. exists batchMap, orig. split; [apply list_elem_of_here|done].
    + right. exists bm, orig. split; [by apply list_elem_of_further|done].
Qed.

End SingleFileFacts.

(** ** FormatGuard: restoring what was protected *)

Module FormatGuardFacts.
Import JsString FormatGuard JsStringFacts.

Lemma substring_full (t : string) : String.substring 0 (String.length t) t = t.
Proof. induction t as [|c t IH]; cbn; [done|by rewrite IH]. Qed.

Lemma substring_add (n a b : nat) (t : string) :
  String.substring n (a + b) t
  = String.substring n a t +:+ String.substring (n + a) b t.
Proof.
  revert n a. induction t as [|c t IH]; intros n a.
  - destruct n, a, b; done.
  - destruct n as [|n].
    + destruct a as [|a]; cbn [String.substring Nat.add]; [done|].
      rewrite (IH 0 a). done.
    + cbn [String.substring Nat.add]. apply IH.
Qed.

Lemma splitFirst_text cls text before matched after :
  splitFirst cls text = Some (before, matched, after) →
  before +:+ matched +:+ after = text.
Proof.
  unfold splitFirst. destruct (cls text) as [[off len]|]; [|done].
  destruct (0 <? len) eqn:Hlen; [|done]. cbn [andb].
  destruct (off + len <=? String.length text) eqn:Hfit; [|done].
  intros [= <- <- <-]. apply Nat.leb_le in Hfit.
  rewrite <- (substring_add off len), <- (substring_add 0 off).
  replace (off + (len + (String.length text - (off + len))))
    with (String.length text) by lia.
  apply substring_full.
Qed.

Lemma textOf_app segs1 segs2 :
  textOf (segs1 ++ segs2) = textOf segs1 +:+ textOf segs2.
Proof.
  induction segs1 as [|[t|t] segs1 IH]; cbn [textOf app]; [done|..];
    by rewrite IH, append_assoc.
Qed.

Lemma textOf_scanLit fuel cls text : textOf (scanLit fuel cls text) = text.
Proof.
  revert text. induction fuel as [|fuel IH]; intros text; cbn [scanLit].
  - apply append_nil_r.
  - destruct (splitFirst cls text) as [[[before matched] after]|] eqn:Hs.
    + cbn [textOf]. rewrite IH. by apply splitFirst_text in Hs.
    + apply append_nil_r.
Qed.

Lemma textOf_scanClass cls segs : textOf (scanClass cls segs) = textOf segs.
Proof.
  unfold scanClass. induction segs as [|seg segs IH]; [done|].
  cbn [map concat]. rewrite textOf_app, IH. destruct seg as [t|t].
  - by rewrite textOf_scanLit.
  - cbn [textOf]. by rewrite append_nil_r.
Qed.

(** The scan cuts the string up and loses nothing. *)
Lemma textOf_scan classes s : textOf (scan classes s) = s.
Proof.
  unfold scan.
  assert (Hgen : ∀ segs, textOf (foldl (λ segs cls, scanClass cls segs) segs
                                   classes) = textOf segs).
  { induction classes as [|cls classes IH]; intros segs; [done|].
    cbn [foldl]. by rewrite IH, textOf_scanClass. }
  rewrite Hgen. apply append_nil_r.
Qed.

Lemma includes_app c (a b : string) :
  includes c (a +:+ b) = includes c a || includes c b.
Proof.
  induction a as [|x a IH]; [done|].
  rewrite append_cons. cbn [includes]. by rewrite IH, orb_assoc.
Qed.

Lemma isPrefix_app (a b : string) : isPrefix a (a +:+ b) = true.
Proof.
  induction a as [|x a IH]; [reflexivity|].
  rewrite append_cons. cbn [isPrefix].
  by rewrite bool_decide_eq_true_2.
Qed.

Lemma dropChars_app (a b : string) : dropChars (String.length a) (a +:+ b) = b.
Proof.
  induction a as [|x a IH]; [by destruct b|].
  rewrite append_cons. exact IH.
Qed.

(** Where nothing before it contains the first character of the needle,
    the first occurrence of the needle is the one we know of. *)
Lemma replaceFirst_here m needle replacement (before after : string) :
  startsWith m needle = true → includes m before = false →
  replaceFirst needle replacement (before +:+ needle +:+ after)
  = before +:+ replacement +:+ after.
Proof.
  intros Hm. induction before as [|c before IH]; intros Hfresh.
  - rewrite !append_nil_l. destruct needle as [|x needle]; [done|].
    rewrite append_cons. cbn [replaceFirst]. rewrite <- append_cons.
    rewrite isPrefix_app. by rewrite dropChars_app.
  - cbn [includes] in Hfresh. apply orb_false_iff in Hfresh as [Hc Hrest].
    apply bool_decide_eq_false in Hc.
    destruct needle as [|x needle]; [done|].
    cbn [startsWith] in Hm. apply bool_decide_eq_true in Hm. subst x.
    rewrite !append_cons. cbn [replaceFirst isPrefix].
    rewrite bool_decide_eq_false_2 by congruence. cbn [andb].
    f_equal. rewrite <- append_cons. apply IH. exact Hrest.
Qed.

Lemma render_restore sentinel m segs k (before : string) :
  (∀ k, startsWith m (sentinel k) = true) →
  includes m before = false → includes m (textOf segs) = false →
  restore (before +:+ (render sentinel k segs).1) (render sentinel k segs).2
  = before +:+ textOf segs.
Proof.
  intros Hm. revert k before.
  induction segs as [|[text|original] segs IH]; intros k before Hb Hs.
  - done.
  - cbn [render textOf] in *. destruct (render sentinel k segs) as [p tok] eqn:Hr.
    cbn [fst snd]. rewrite includes_app in Hs.
    apply orb_false_iff in Hs as [Ht Hs].
    rewrite <- !append_assoc.
    specialize (IH k (before +:+ text)). rewrite Hr in IH. apply IH; [|done].
    rewrite includes_app. by rewrite Hb, Ht.
  - cbn [render textOf] in *.
    destruct (render sentinel (S k) segs) as [p tok] eqn:Hr.
    cbn [fst snd]. rewrite includes_app in Hs.
    apply orb_false_iff in Hs as [Ho Hs].
    unfold restore. cbn [foldl].
    rewrite (replaceFirst_here m) by auto.
    rewrite <- !append_assoc.
    specialize (IH (S k) (before +:+ original)). rewrite Hr in IH.
    apply IH; [|done]. rewrite includes_app. by rewrite Hb, Ho.
Qed.



(** With sentinels of the form [#k#], for one: a string that already
    contains the text of a sentinel does not come back. *)
Lemma restore_protect_sentinel_text :
  restore (protect [firstBraced] hashSentinel "#0# says {name}").1
    (protect [firstBraced] hashSentinel "#0# says {name}").2
  = "{name} says #0#"
  ∧ restore (protect [firstBraced] hashSentinel "#0# says {name}").1
      (protect [firstBraced] hashSentinel "#0# says {name}").2
    ≠ "#0# says {name}".
Proof. split; [vm_compute; reflexivity|vm_compute; discriminate]. Qed.

(** *** What [protect] forgets *)

Lemma length_app (a b : string) :
  String.length (a +:+ b) = String.length a + String.length b.
Proof.
  induction a as [|c a IH]; [done|]. rewrite append_cons. cbn. by rewrite IH.
Qed.

Lemma substring_nothing (t : string) (n : nat) : String.substring n 0 t = "".
Proof. revert n. induction t as [|c t IH]; intros [|n]; cbn; auto. Qed.

Lemma substring_app_l (a b : string) :
  String.substring 0 (String.length a) (a +:+ b) = a.
Proof.
  induction a as [|c a IH]; [by destruct b|].
  rewrite append_cons. cbn. by rewrite IH.
Qed.

Lemma substring_app_r (a b : string) (n : nat) :
  String.substring (String.length a) n (a +:+ b) = String.substring 0 n b.
Proof.
  induction a as [|c a IH]; [done|]. rewrite append_cons. exact IH.
Qed.

Lemma firstBraced_fresh (a : string) :
  includes "{" a = false → firstBraced a = None.
Proof.
  induction a as [|c a IH]; [done|]. cbn [includes firstBraced].
  intros [Hc Ha]%orb_false_iff. rewrite Hc. by rewrite IH.
Qed.

Lemma firstBraced_skip (a b : string) :
  includes "{" a = false →
  firstBraced (a +:+ b)
  = match firstBraced b with
    | Some (off, len) => Some (String.length a + off, len)
    | None => None
    end.
Proof.
  induction a as [|c a IH].
  - intros _. rewrite append_nil_l. by destruct (firstBraced b) as [[]|].
  - cbn [includes]. intros [Hc Ha]%orb_false_iff.
    rewrite append_cons. cbn [firstBraced]. rewrite Hc, (IH Ha).
    by destruct (firstBraced b) as [[]|].
Qed.

(** A literal text that holds no opening brace, before or after a
    templated variable: both are protected to the same placeholder string
    when the text is that of the sentinel. *)
Lemma protect_literal_then_variable (sentinel : nat → string) (a : string) :
  includes "{" a = false →
  protect [firstBraced] sentinel (a +:+ "{x}")
  = (a +:+ sentinel 0, [(sentinel 0, "{x}")]).
Proof.
  intros Ha. unfold protect, scan. cbn [foldl scanClass map concat].
  rewrite app_nil_r.
  assert (Hsplit : splitFirst firstBraced (a +:+ "{x}")
                   = Some (a, "{x}", "")).
  { unfold splitFirst. rewrite (firstBraced_skip a "{x}" Ha).
    replace (firstBraced "{x}") with (Some (0, 3)) by (vm_compute; reflexivity).
    rewrite Nat.add_0_r, length_app.
    replace (String.length a + String.length "{x}"
             - (String.length a + 3)) with 0 by (cbn; lia).
    replace (String.length a + 3 <=? String.length a + String.length "{x}")
      with true by (symmetry; apply Nat.leb_le; cbn; lia).
    cbn [Nat.ltb Nat.leb andb].
    rewrite substring_app_l, !substring_app_r.
    by rewrite substring_nothing. }
  destruct (String.length (a +:+ "{x}")) as [|fuel] eqn:Hlen.
  { rewrite length_app in Hlen. cbn in Hlen. lia. }
  cbn [scanLit]. rewrite Hsplit.
  assert (scanLit fuel firstBraced "" = [Lit ""]) as ->
    by by destruct fuel.
  cbn [render fst snd]. by rewrite !append_nil_r.
Qed.

Lemma protect_variable_then_literal (sentinel : nat → string) (a : string) :
  includes "{" a = false →
  protect [firstBraced] sentinel ("{x}" +:+ a)
  = (sentinel 0 +:+ a, [(sentinel 0, "{x}")]).
Proof.
  intros Ha. unfold protect, scan. cbn [foldl scanClass map concat].
  rewrite app_nil_r.
  assert (Hsplit : splitFirst firstBraced ("{x}" +:+ a)
                   = Some ("", "{x}", a)).
  { unfold splitFirst.
    replace (firstBraced ("{x}" +:+ a)) with (Some (0, 3))
      by (rewrite !append_cons, append_nil_l; cbn [firstBraced closingBrace];
          by rewrite !bool_decide_eq_true_2, ?bool_decide_eq_false_2 by done).
    rewrite (length_app "{x}" a).
    replace (0 + 3 <=? String.length "{x}" + String.length a) with true
      by (symmetry; apply Nat.leb_le; cbn; lia).
    cbn [Nat.ltb Nat.leb andb].
    change (String.substring 0 0 ("{x}" +:+ a)) with "".
    replace (String.substring 0 3 ("{x}" +:+ a)) with "{x}"
      by (symmetry; exact (substring_app_l "{x}" a)).
    change (String.substring (0 + 3) ?n ("{x}" +:+ a))
      with (String.substring 0 n a).
    replace (String.length "{x}" + String.length a - (0 + 3))
      with (String.length a) by (cbn; lia).
    by rewrite substring_full. }
  destruct (String.length ("{x}" +:+ a)) as [|fuel] eqn:Hlen.
  { rewrite length_app in Hlen. cbn in Hlen. lia. }
  cbn [scanLit]. rewrite Hsplit.
  assert (scanLit fuel firstBraced a = [Lit a]) as ->.
  { destruct fuel; [done|]. cbn [scanLit]. unfold splitFirst.
    by rewrite (firstBraced_fresh a Ha). }
  cbn [render fst snd]. by rewrite append_nil_l, !append_nil_r.
Qed.


End FormatGuardFacts.

(** ** Runs on explicit inputs *)

Module Runs.
Import JsString Json Reconstruct Batch Provider Store Pipeline FormatGuard.
Import Demo StoreFacts PipelineFacts MultiFileFacts.

(** C3 fails on the code.  The document is [{"[x]": "Hello"}] and the
    table translates "Hello" as "Hola".  The key of the leaf begins with a
    bracket and ends with one, so the assignment takes it for an array
    index, and [parent[parseInt("x")] = "Hola"] creates the property
    [NaN]: the leaf keeps "Hello" and the document gains a key, where the
    claim wants [{"[x]": "Hola"}]. *)
Theorem rebuild_misplaces_bracket_key :
  let sourcePathMap := flattenObjectWithPaths docBracket in
  let translations : gmap string string := {[ demoHash "Hello" := "Hola" ]} in
  rebuildDocument demoHash sourcePathMap translations docBracket
  = Ok (JObject [("[x]", JString "Hello"); ("NaN", JString "Hola")])
  ∧ resolveAll demoHash sourcePathMap translations [] docBracket
    = JObject [("[x]", JString "Hola")].
Proof. split; vm_compute; reflexivity. Qed.

(** C1 fails on the code, by the same defect.  The document is
    [{"[x]": "Hello", "b": "Hello"}]; the run makes one request, for
    ["Hello"], and writes a document in which one occurrence of the string
    is "Hello" and the other is "Hola". *)
Theorem run_translates_one_occurrence_of_two :
  let run :=
    processSingleFile demoNode demoHelpers "/i18n/twice.json" "es"
      (Some "/out/twice.{lang}.json") (demoOptions false) goodBackend
      (demoWorld None) in
  run.1 = Returned
  ∧ events run.2
    = [ EvTranslate ["Hello"] "es" "English" None;
        EvWriteFile "/out/twice.es.json"
          (demoStringify
             (JObject [("[x]", JString "Hello"); ("b", JString "Hola");
                       ("NaN", JString "Hola")])) ].
Proof. split; vm_compute; reflexivity. Qed.

(** C4 fails on the code, by the same defect.  The document is
    [{"[x]": "Hello", "NaN": "World"}]; "Hello" is in the cache, and the
    backend answers the batch ["World"] with no translation at all.  The
    batch is rejected and contributes nothing, but the value of the leaf
    "World" is not retained: the translation of "Hello" lands on it. *)
Theorem run_overwrites_string_of_failed_batch :
  let run :=
    processSingleFile demoNode demoHelpers "/i18n/shadow.json" "es"
      (Some "/out/shadow.{lang}.json") (demoOptions true) shortBackend
      (demoWorld (Some "<cache hello>")) in
  translateBatch demoHelpers 0 ["World"] "es" shortBackend "English" false None
  = []
  ∧ run.1 = Returned
  ∧ events run.2
    = [ EvTranslate ["World"] "es" "English" None;
        EvWriteFile "/out/shadow.es.json"
          (demoStringify
             (JObject [("[x]", JString "Hello"); ("NaN", JString "Hola")])) ].
Proof. split; [|split]; vm_compute; reflexivity. Qed.

(** The run of C6: [/i18n/a.json] is [{"x": "Save"}] now, and the cache
    still has the translation of a string "Old" for it.  After the
    multi-file run the saved cache has it too. *)
Lemma multi_file_run_keeps_stale_entries_witness :
  match cacheToSave
          (multiRunState demoNode demoHelpers ["/i18n/*.json"] "es"
             (Some "/out/{name}.{lang}.json") (demoOptions true) goodBackend
             (demoWorld (Some "<cache stale>"))) with
  | Some saved =>
      cacheLookup saved "/i18n/a.json" "es" (demoHash "Old") = Some "Viejo"
  | None => False
  end.
Proof.
  destruct (cacheToSave _) as [saved|] eqn:Hsave.
  - unfold multiRunState in Hsave.
    apply (multi_file_run_keeps_stale_entries _ _ _ _ _ _ _ _ _ _ _ Hsave).
    + intros str Hstr. vm_compute in Hstr.
      repeat (apply elem_of_cons in Hstr as [->|Hstr];
              [intros Heq; vm_compute in Heq; discriminate|]).
      by apply elem_of_nil in Hstr.
    + vm_compute. reflexivity.
  - vm_compute in Hsave. discriminate.
Defined.

(** C7 as stated fails: a save that is interrupted loses what was
    persisted before.  The cache file holds an entry for "Hello"; the write
    of a new cache stops after ten characters; the file then holds
    neither the old text nor the new one, and the next load finds no
    entry. *)
Lemma interrupted_persist_loses_entries :
  let w := demoWorld (Some "<cache hello>") in
  let data := stringifyCache demoNode cacheStale in
  let w' := interruptedWrite w "/cache.json" data 10 in
  cacheLookup (loadCache demoNode w "/cache.json") "/i18n/shadow.json" "es"
    (demoHash "Hello") = Some "Hola"
  ∧ fs_readFile w' "/cache.json" = Some "/i18n/a.js"
  ∧ fs_readFile w' "/cache.json" ≠ fs_readFile w "/cache.json"
  ∧ fs_readFile w' "/cache.json" ≠ Some data
  ∧ cacheLookup (loadCache demoNode w' "/cache.json") "/i18n/shadow.json" "es"
      (demoHash "Hello") = None.
Proof.
  split; [vm_compute; reflexivity|]. split; [vm_compute; reflexivity|].
  split; [vm_compute; discriminate|]. split; [vm_compute; discriminate|].
  vm_compute. reflexivity.
Qed.

(** The run of C10: a dry run over [/i18n/a.json] with a cache file. *)
Lemma dry_run_single_is_read_only_witness :
  let w := demoWorld (Some "<cache stale>") in
  let run :=
    processSingleFile demoNode demoHelpers "/i18n/a.json" "es"
      (Some "/out/a.{lang}.json") dryOptions goodBackend w in
  files run.2 = files w ∧ run.1 = Returned.
Proof.
  destruct (dry_run_single_is_read_only demoNode demoHelpers "/i18n/a.json"
              "es" (Some "/out/a.{lang}.json") dryOptions goodBackend
              (demoWorld (Some "<cache stale>"))) as (Hfiles & _ & Hret).
  - reflexivity.
  - split; [exact Hfiles|]. apply Hret. vm_compute. by eexists.
Defined.

End Runs.

(** ** The rebuild: what [applyTranslations] guarantees *)

Module RebuildProperties.
Import JsString Json JsColl Reconstruct.
Import JsCollFacts JsStringFacts JsonFacts ReconstructFacts Demo.

(** X1.  The segment [`[${index}]`] that [applyTranslations] writes for an
    array element is read back as that index: it begins and ends with a
    bracket, and [parseInt] of what is between them is the index, which
    then names the element itself. *)
Theorem index_segment_round_trip (index : nat) :
  decode (indexSegment index) = KNum (Some (Z.of_nat index))
  ∧ ((N.of_nat index < indexLimit)%N →
     keyIndex (decode (indexSegment index)) = Some index).
Proof.
  split; [apply decode_indexSegment|apply keyIndex_indexSegment].
Qed.

(** X2.  On a document as [JSON.parse] returns it, with no object key that
    begins with [[] and ends with []], and whose root is not a bare
    string, the rebuild returns the document in which every string leaf
    that has a translation holds it and everything else is as it was. *)
Theorem rebuild_replaces_covered_leaves (hashString : string → string)
    (sourcePathMap : list (string * string))
    (translations : gmap string string) (sourceJson : JsonValue) :
  plainDocument sourceJson = true →
  (∀ s, sourceJson ≠ JString s) →
  rebuildDocument hashString sourcePathMap translations sourceJson
  = Ok (resolveAll hashString sourcePathMap translations [] sourceJson).
Proof. apply rebuildDocument_plain. Qed.

Lemma rebuild_replaces_covered_leaves_witness :
  rebuildDocument demoHash (flattenObjectWithPaths docB)
    {[ demoHash "Save" := "Guardar" ]} docB
  = Ok (resolveAll demoHash (flattenObjectWithPaths docB)
          {[ demoHash "Save" := "Guardar" ]} [] docB).
Proof.
  apply rebuild_replaces_covered_leaves; [vm_compute; reflexivity|done].
Defined.

Section Untouched.
Context (hashString : string → string).
Context (sourcePathMap : list (string * string)).
Context (translations : gmap string string).
Context (Hnone : ∀ str, str ∈ map snd sourcePathMap →
                        translations !! hashString str = None).

Lemma visitLeaf_untouched path root :
  visitLeaf hashString sourcePathMap translations path root = Ok root.
Proof.
  unfold visitLeaf.
  destruct (map_get sourcePathMap (flatPath path)) as [str|] eqn:Hget;
    [|done].
  rewrite Hnone; [done|].
  apply map_get_Some_elem in Hget. apply list_elem_of_fmap.
  by exists (flatPath path, str).
Qed.

Lemma forEachM_untouched {B} (f : B → JsonValue → Result JsonValue)
    (xs : list B) (root : JsonValue) :
  (∀ x, f x root = Ok root ∨ f x root = OutOfFuel) →
  forEachM f xs root = Ok root ∨ forEachM f xs root = OutOfFuel.
Proof.
  intros Hf. induction xs as [|x xs IH]; cbn [forEachM]; [by left|].
  destruct (Hf x) as [-> | ->]; [exact IH|by right].
Qed.

Lemma applyTranslations_untouched fuel :
  ∀ loc path root,
    applyTranslations hashString sourcePathMap translations fuel loc path root
    = Ok root
    ∨ applyTranslations hashString sourcePathMap translations fuel loc path
        root = OutOfFuel.
Proof.
  induction fuel as [|fuel IH]; intros loc path root; [by right|].
  cbn [applyTranslations].
  destruct (locate root loc) as [[| | |s|items|fields]|]; try by left.
  - left. apply visitLeaf_untouched.
  - apply forEachM_untouched. intros index. apply IH.
  - apply forEachM_untouched. intros key. apply IH.
Qed.

End Untouched.

(** X3.  When no string of the document has a translation in the table,
    the rebuild returns the document as it is, whatever its keys are:
    nothing is written unless a translation is found. *)
Theorem rebuild_without_translation_keeps_document
    (hashString : string → string) (sourcePathMap : list (string * string))
    (translations : gmap string string) (sourceJson : JsonValue) :
  (∀ str, str ∈ map snd sourcePathMap →
          translations !! hashString str = None) →
  rebuildDocument hashString sourcePathMap translations sourceJson
  = Ok sourceJson.
Proof.
  intros Hnone.
  pose proof (rebuildDocument_fuel hashString sourcePathMap translations
                sourceJson) as Hfuel.
  unfold rebuildDocument in *.
  by destruct (applyTranslations_untouched hashString sourcePathMap
                 translations Hnone (S (depth sourceJson)) [] [] sourceJson).
Qed.

Lemma rebuild_without_translation_keeps_document_witness :
  rebuildDocument demoHash (flattenObjectWithPaths docBracket) ∅ docBracket
  = Ok docBracket.
Proof.
  apply rebuild_without_translation_keeps_document.
  intros str _. apply lookup_empty.
Defined.

End RebuildProperties.

(** ** Backends and [translateBatch]: what a batch can come back as *)

Module BackendProperties.
Import JsString Json JsColl Provider.
Import JsCollFacts ProviderFacts Demo.

Lemma isBlank_truthy (t : string) : isBlank t = false → truthy t = true.
Proof. by destruct t. Qed.

Lemma acceptable_stringOf (t : JsonValue) :
  acceptable t = true → isBlank (stringOf t) = false.
Proof.
  destruct t as [| | |s| |]; try done. cbn [acceptable stringOf].
  by intros ->%negb_true_iff.
Qed.

Lemma validated_strings strings translations :
  validateResponse strings translations = true →
  length (map stringOf translations) = length strings
  ∧ Forall (λ t, isBlank t = false) (map stringOf translations).
Proof.
  intros [Hlen Hall]%validateResponse_true. split.
  - by rewrite length_map.
  - apply Forall_forall. intros t Ht.
    change (map stringOf translations) with (stringOf <$> translations) in Ht.
    apply list_elem_of_fmap in Ht as (x & -> & Hx).
    apply acceptable_stringOf. by eapply Forall_forall in Hall.
Qed.

Lemma retryLoop_resolved reply requestNo strings remaining :
  ∀ attempt translations,
    retryLoop reply requestNo strings attempt remaining
    = Resolved translations →
    ∃ k parsed,
      attempt ≤ k < attempt + remaining
      ∧ reply requestNo k strings = Parsed parsed
      ∧ validateResponse strings parsed = true
      ∧ translations = map stringOf parsed
      ∧ ∀ j, attempt ≤ j < k → attemptOk reply requestNo j strings = false.
Proof.
  induction remaining as [|remaining IH]; intros attempt translations;
    cbn [retryLoop]; [done|].
  assert (retryLoop reply requestNo strings (S attempt) remaining
          = Resolved translations →
          attemptOk reply requestNo attempt strings = false →
          ∃ k parsed,
            attempt ≤ k < attempt + S remaining
            ∧ reply requestNo k strings = Parsed parsed
            ∧ validateResponse strings parsed = true
            ∧ translations = map stringOf parsed
            ∧ ∀ j, attempt ≤ j < k →
                   attemptOk reply requestNo j strings = false) as Hlater.
  { intros Hrest Hbad.
    destruct (IH _ _ Hrest) as (k & parsed & Hk & Hreply & Hvalid & -> & Hfirst).
    exists k, parsed. split; [lia|]. split; [done|]. split; [done|].
    split; [done|]. intros j Hj.
    destruct (decide (j = attempt)) as [->|Hne]; [done|]. apply Hfirst. lia. }
  unfold attemptOk in Hlater.
  destruct (reply requestNo attempt strings) as [|parsed] eqn:Hreply;
    [by auto|].
  destruct (validateResponse strings parsed) eqn:Hvalid; [|by auto].
  intros [= <-]. exists attempt, parsed. split; [lia|].
  split; [done|]. split; [done|]. split; [done|]. intros j Hj. lia.
Qed.

Lemma retryLoop_rejected_inv reply requestNo strings remaining :
  ∀ attempt,
    retryLoop reply requestNo strings attempt remaining = Rejected →
    ∀ k, attempt ≤ k < attempt + remaining →
         attemptOk reply requestNo k strings = false.
Proof.
  induction remaining as [|remaining IH]; intros attempt; cbn [retryLoop];
    [intros _ k Hk; lia|].
  intros Hrej k Hk.
  assert (retryLoop reply requestNo strings (S attempt) remaining = Rejected
          ∧ attemptOk reply requestNo attempt strings = false)
    as [Hrest Hfirst].
  { unfold attemptOk.
    destruct (reply requestNo attempt strings) as [|parsed]; [done|].
    by destruct (validateResponse strings parsed). }
  destruct (decide (k = attempt)) as [->|Hne]; [done|].
  apply (IH _ Hrest). lia.
Qed.

Lemma resolved_translate_shape (reply : nat → list string → RawReply)
    (replies : nat → nat → list string → RawReply) (requestNo : nat)
    (strings : list string) (targetLang sourceLang : string)
    (context : option string) (translations : list string) :
  validatingTranslate reply requestNo strings targetLang sourceLang context
  = Resolved translations
  ∨ retryingTranslate replies requestNo strings targetLang sourceLang context
    = Resolved translations →
  length translations = length strings
  ∧ Forall (λ t, isBlank t = false) translations.
Proof.
  intros [Hone|Hretry].
  - unfold validatingTranslate in Hone.
    destruct (reply requestNo strings) as [|parsed]; [done|].
    destruct (validateResponse strings parsed) eqn:Hvalid; [|done].
    injection Hone as <-. by apply validated_strings.
  - apply retryLoop_resolved in Hretry
      as (k & parsed & _ & _ & Hvalid & -> & _).
    by apply validated_strings.
Qed.

(** X4.  A [translate] that resolves, of a provider that answers from one
    validated response or of the provider that retries, gives one
    translation per request string, none of them empty or blank. *)
Theorem resolved_translate_is_valid (reply : nat → list string → RawReply)
    (replies : nat → nat → list string → RawReply) (requestNo : nat)
    (strings : list string) (targetLang sourceLang : string)
    (context : option string) (translations : list string) :
  validatingTranslate reply requestNo strings targetLang sourceLang context
  = Resolved translations
  ∨ retryingTranslate replies requestNo strings targetLang sourceLang context
    = Resolved translations →
  length translations = length strings
  ∧ Forall (λ t, isBlank t = false) translations.
Proof. apply resolved_translate_shape. Qed.

Lemma resolved_translate_is_valid_witness :
  length (map stringOf (map demoWord ["Save"; "Open"])) = 2
  ∧ Forall (λ t, isBlank t = false)
      (map stringOf (map demoWord ["Save"; "Open"])).
Proof.
  apply (resolved_translate_is_valid goodReply (λ _ _ _, ApiFailure) 0
           ["Save"; "Open"] "es" "English" None).
  left. reflexivity.
Defined.

(** X5.  The provider that retries rejects a request exactly when each of
    its five attempts fails; and when it resolves, the result is the
    validated response of the first attempt that passes. *)
Theorem retry_rejects_after_five_failures
    (replies : nat → nat → list string → RawReply) (requestNo : nat)
    (strings : list string) (targetLang sourceLang : string)
    (context : option string) :
  (retryingTranslate replies requestNo strings targetLang sourceLang context
   = Rejected
   ↔ ∀ attempt, 1 ≤ attempt ≤ 5 →
                attemptOk replies requestNo attempt strings = false)
  ∧ (∀ translations,
       retryingTranslate replies requestNo strings targetLang sourceLang
         context = Resolved translations →
       ∃ attempt parsed,
         1 ≤ attempt ≤ 5
         ∧ replies requestNo attempt strings = Parsed parsed
         ∧ validateResponse strings parsed = true
         ∧ translations = map stringOf parsed
         ∧ ∀ earlier, 1 ≤ earlier < attempt →
                      attemptOk replies requestNo earlier strings = false).
Proof.
  unfold retryingTranslate, maxRetries. split; [split|].
  - intros Hrej attempt Hattempt.
    apply (retryLoop_rejected_inv _ _ _ _ _ Hrej). lia.
  - intros Hall. apply retryLoop_rejected. intros k Hk.
    specialize (Hall k ltac:(lia)). unfold attemptOk in Hall.
    by destruct (replies requestNo k strings).
  - intros translations Hres.
    apply retryLoop_resolved in Hres
      as (k & parsed & Hk & Hreply & Hvalid & -> & Hfirst).
    exists k, parsed. split; [lia|]. by repeat (split; [done|]).
Qed.

Section Collect.
Context (H : Helpers) (shouldPreserveFormats : bool).
Context (translations : list string).

Lemma collectTranslation_keys :
  ∀ entries acc,
    NoDup (map fst acc) →
    NoDup (map fst (foldl (collectTranslation H shouldPreserveFormats
                             translations) acc entries))
    ∧ ∀ k, k ∈ map fst (foldl (collectTranslation H shouldPreserveFormats
                                 translations) acc entries) →
           k ∈ map fst acc ∨ k ∈ map snd entries.
Proof.
  induction entries as [|[index original] entries IH]; intros acc Hnd;
    cbn [foldl].
  - split; [done|]. by left.
  - assert (NoDup (map fst (collectTranslation H shouldPreserveFormats
                              translations acc (index, original)))
            ∧ ∀ k, k ∈ map fst (collectTranslation H shouldPreserveFormats
                                  translations acc (index, original)) →
                   k ∈ map fst acc ∨ k = original) as [Hnd1 Hin1].
    { unfold collectTranslation.
      destruct (translations !! index) as [translated|]; [|by auto].
      destruct (truthy translated); [|by auto]. split.
      - by apply NoDup_map_set_keys.
      - intros k. rewrite map_set_keys. case_decide; [by left|].
        intros [?| ->%list_elem_of_singleton]%elem_of_app; by auto. }
    destruct (IH _ Hnd1) as [Hnd2 Hin2]. split; [done|].
    intros k Hk. cbn [map snd]. destruct (Hin2 k Hk) as [Hk1|Hk2].
    + destruct (Hin1 k Hk1) as [?| ->]; [by left|].
      right. apply list_elem_of_here.
    + right. by apply list_elem_of_further.
Qed.

Lemma collectTranslation_complete :
  ∀ entries acc,
    (∀ index original, (index, original) ∈ entries →
       ∃ translated, translations !! index = Some translated
                     ∧ truthy translated = true) →
    ∀ s, s ∈ map snd entries ∨ is_Some (map_get acc s) →
         is_Some (map_get (foldl (collectTranslation H shouldPreserveFormats
                                    translations) acc entries) s).
Proof.
  induction entries as [|[index original] entries IH]; intros acc Hall s Hs;
    cbn [foldl].
  - destruct Hs as [Hs|Hs]; [by apply elem_of_nil in Hs|done].
  - destruct (Hall index original (list_elem_of_here _ _))
      as (translated & Hget & Htruthy).
    apply IH.
    { intros i o Hio. apply (Hall i o). by apply list_elem_of_further. }
    unfold collectTranslation. rewrite Hget, Htruthy.
    cbn [map snd] in Hs.
    destruct (decide (original = s)) as [->|Hne].
    + right. by rewrite map_get_set_eq.
    + rewrite map_get_set_ne by done.
      destruct Hs as [Hs|Hs]; [|by right].
      apply elem_of_cons in Hs as [->|Hs]; [done|by left].
Qed.

End Collect.

Lemma elem_of_imap_pair (strings : list string) index original :
  (index, original) ∈ imap pair strings ↔ strings !! index = Some original.
Proof.
  rewrite list_elem_of_lookup. split.
  - intros [i Hi]. rewrite list_lookup_imap in Hi.
    destruct (strings !! i) as [s|] eqn:Hs; [|done].
    cbn in Hi. by injection Hi as <- <-.
  - intros Hs. exists index. by rewrite list_lookup_imap, Hs.
Qed.

Lemma snd_imap_pair (strings : list string) :
  map snd (imap pair strings) = strings.
Proof.
  apply list_eq. intros i.
  change (map snd (imap pair strings)) with (snd <$> imap pair strings).
  rewrite list_lookup_fmap, list_lookup_imap.
  by destruct (strings !! i).
Qed.

Lemma translateBatch_keys (H : Helpers) (requestNo : nat)
    (strings : list string) (targetLang : string)
    (translator : TranslationProvider) (sourceLang : string)
    (shouldPreserveFormats : bool) (context : option string) :
  NoDup (map fst (translateBatch H requestNo strings targetLang translator
                    sourceLang shouldPreserveFormats context))
  ∧ ∀ original,
      original ∈ map fst (translateBatch H requestNo strings targetLang
                            translator sourceLang shouldPreserveFormats
                            context) →
      original ∈ strings.
Proof.
  unfold translateBatch.
  destruct (translate translator requestNo _ targetLang sourceLang context)
    as [translations|].
  - destruct (collectTranslation_keys H shouldPreserveFormats translations
                (imap pair strings) [] (NoDup_nil_2)) as [Hnd Hin].
    split; [done|]. intros original Ho.
    destruct (Hin original Ho) as [Hnil|Hs].
    + by apply elem_of_nil in Hnil.
    + by rewrite snd_imap_pair in Hs.
  - split; [apply NoDup_nil_2|]. by intros original ?%elem_of_nil.
Qed.

(** X6.  Whatever the backend answers, the map [translateBatch] returns
    has entries for strings of the batch only, one entry per string at
    most. *)
Theorem translateBatch_answers_the_batch (H : Helpers) (requestNo : nat)
    (strings : list string) (targetLang : string)
    (translator : TranslationProvider) (sourceLang : string)
    (shouldPreserveFormats : bool) (context : option string) :
  let translationMap :=
    translateBatch H requestNo strings targetLang translator sourceLang
      shouldPreserveFormats context in
  NoDup (map fst translationMap)
  ∧ ∀ original, original ∈ map fst translationMap → original ∈ strings.
Proof. apply translateBatch_keys. Qed.

(** X7.  With a provider that validates its response, a batch comes back
    whole or not at all: the map [translateBatch] returns is empty, or it
    has an entry for every string of the batch. *)
Theorem translateBatch_is_all_or_nothing (H : Helpers)
    (providerName : string) (reply : nat → list string → RawReply)
    (replies : nat → nat → list string → RawReply)
    (detect : option (list string → string)) (retries : bool)
    (requestNo : nat) (strings : list string) (targetLang sourceLang : string)
    (shouldPreserveFormats : bool) (context : option string) :
  let translator :=
    if retries then retryingProvider providerName replies detect
    else validatingProvider providerName reply detect in
  let translationMap :=
    translateBatch H requestNo strings targetLang translator sourceLang
      shouldPreserveFormats context in
  translationMap = []
  ∨ ∀ original, original ∈ strings →
                is_Some (map_get translationMap original).
Proof.
  cbn zeta. unfold translateBatch.
  set (processedStrings := requestStrings H shouldPreserveFormats strings).
  assert (length processedStrings = length strings) as Hlen.
  { unfold processedStrings, requestStrings.
    destruct shouldPreserveFormats; [apply length_map|done]. }
  destruct (translate _ requestNo processedStrings targetLang sourceLang
              context) as [translations|] eqn:Htr; [|by left].
  right. intros original Ho.
  assert (length translations = length processedStrings
          ∧ Forall (λ t, isBlank t = false) translations) as [Hl Hall].
  { apply (resolved_translate_shape reply replies requestNo processedStrings
             targetLang sourceLang context).
    destruct retries; [by right|by left]. }
  apply collectTranslation_complete.
  - intros index s Hs. apply elem_of_imap_pair in Hs.
    destruct (lookup_lt_is_Some_2 translations index) as [translated Ht].
    { apply lookup_lt_Some in Hs. lia. }
    exists translated. split; [done|]. apply isBlank_truthy.
    eapply Forall_forall in Hall; [done|].
    by eapply list_elem_of_lookup_2.
  - left. by rewrite snd_imap_pair.
Qed.

End BackendProperties.

(** ** The cache: saving, loading, recording and pruning *)

Module CacheProperties.
Import JsString Provider Store.
Import StoreFacts Demo.

(** X8.  A cache that was saved is the cache the next load returns, on a
    platform whose [JSON.parse] reads back what its [JSON.stringify]
    writes for it. *)
Theorem save_then_load (N : Node) (cache : TranslationCache) (w : World)
    (cacheFilePath : string) :
  (saveCache N cache w cacheFilePath).1 = true →
  parseCache N (stringifyCache N cache) = Some cache →
  loadCache N (saveCache N cache w cacheFilePath).2 cacheFilePath = cache.
Proof.
  intros Hsaved Hparse.
  destruct (saveCache N cache w cacheFilePath) as [saved w'] eqn:Hsave.
  cbn [fst snd] in *. subst saved.
  apply saveCache_resolved in Hsave as [Hread _].
  unfold loadCache, fs_access. rewrite Hread, Hparse.
  unfold fs_readFile in Hread.
  destruct (files w' !! cacheFilePath) as [file|]; [|done].
  by rewrite bool_decide_eq_true_2.
Qed.

Lemma save_then_load_witness :
  loadCache roundTripNode
    (saveCache roundTripNode cacheHello (demoWorld None) "/cache.json").2
    "/cache.json"
  = cacheHello.
Proof.
  apply save_then_load; vm_compute; reflexivity.
Defined.

(** X9.  Pruning removes from the language cache of the document exactly
    the entries whose hash is not among the current hashes, and leaves
    every other document and every other language as it was. *)
Theorem prune_is_exact_and_local (cache : TranslationCache)
    (file lang : string) (currentHashes : list string)
    (file' lang' hash : string) :
  cacheLookup (pruneCache cache file lang currentHashes).1 file' lang' hash
  = if decide ((file', lang') = (file, lang) ∧ hash ∉ currentHashes)
    then None
    else cacheLookup cache file' lang' hash.
Proof.
  destruct (decide ((file', lang') = (file, lang))) as [[= -> ->]|Hne].
  - rewrite pruneCache_lookup.
    destruct (decide (hash ∈ currentHashes)).
    + by rewrite decide_False by tauto.
    + by rewrite decide_True.
  - rewrite pruneCache_other by done. by rewrite decide_False by tauto.
Qed.

Lemma filter_current_twice (currentHashes : list string)
    (langCache : gmap string string) :
  filter (λ entry, entry.1 ∈ currentHashes)
    (filter (λ entry : string * string, entry.1 ∈ currentHashes) langCache)
  = filter (λ entry, entry.1 ∈ currentHashes) langCache.
Proof.
  apply map_eq. intros h.
  destruct (filter (λ entry : string * string, entry.1 ∈ currentHashes)
              langCache !! h) as [t|] eqn:Ht.
  - apply map_lookup_filter_Some_2; [done|].
    by apply map_lookup_filter_Some_1_2 in Ht.
  - apply map_lookup_filter_None. by left.
Qed.

Lemma pruneCache_zero (cache : TranslationCache) (file lang : string)
    (currentHashes : list string) :
  (pruneCache cache file lang currentHashes).2 = 0 →
  ∀ hash,
    cacheLookup (pruneCache cache file lang currentHashes).1 file lang hash
    = cacheLookup cache file lang hash.
Proof.
  unfold pruneCache, cacheLookup.
  destruct (langEntry cache file lang) as [langCache|] eqn:Hentry;
    cbn [fst snd]; [|by rewrite Hentry].
  intros Hzero hash.
  set (kept := filter (λ entry, entry.1 ∈ currentHashes) langCache) in *.
  assert (kept ⊆ langCache) as Hsub by apply map_filter_subseteq.
  pose proof (map_subseteq_size _ _ Hsub) as Hsize.
  assert (kept = langCache) as -> by (apply map_subseteq_size_eq; [done|lia]).
  unfold langEntry. by rewrite lookup_insert_eq, lookup_insert_eq.
Qed.

Lemma pruneCache_again (cache : TranslationCache) (file lang : string)
    (currentHashes : list string) :
  (pruneCache (pruneCache cache file lang currentHashes).1 file lang
     currentHashes).2 = 0.
Proof.
  unfold pruneCache at 2.
  destruct (langEntry cache file lang) as [langCache|] eqn:Hentry;
    cbn [fst].
  - unfold pruneCache, langEntry.
    rewrite lookup_insert_eq, lookup_insert_eq. cbn [snd].
    rewrite filter_current_twice. lia.
  - unfold pruneCache. by rewrite Hentry.
Qed.

(** X10.  The count that pruning reports is zero only when nothing was
    removed, so that a run that skips the save because the count is zero
    loses no deletion; and pruning a second time removes nothing. *)
Theorem prune_count_is_faithful (cache : TranslationCache)
    (file lang : string) (currentHashes : list string) :
  ((pruneCache cache file lang currentHashes).2 = 0 →
   ∀ file' lang' hash,
     cacheLookup (pruneCache cache file lang currentHashes).1 file' lang' hash
     = cacheLookup cache file' lang' hash)
  ∧ (pruneCache (pruneCache cache file lang currentHashes).1 file lang
       currentHashes).2 = 0.
Proof.
  split; [|apply pruneCache_again].
  intros Hzero file' lang' hash.
  destruct (decide ((file', lang') = (file, lang))) as [[= -> ->]|Hne].
  - by apply pruneCache_zero.
  - by apply pruneCache_other.
Qed.



End CacheProperties.

(** ** The single-file run: requests, estimates and the files it leaves *)

Module SingleFileProperties.
Import JsString JsColl Json Reconstruct Batch Provider Store Pipeline.
Import JsCollFacts BatchFacts StoreFacts PipelineFacts MultiFileFacts.
Import JsonFacts SingleFileFacts Demo.

Lemma langCacheOf_lookup cache file lang hash :
  langCacheOf cache file lang !! hash = cacheLookup cache file lang hash.
Proof.
  unfold langCacheOf, cacheLookup.
  by destruct (langEntry cache file lang).
Qed.

(** With a duplicate-free set of source strings, the strings to translate
    are the misses, in the order of the set. *)
Lemma compareWithCache_misses H langCache :
  ∀ strs table todo,
    NoDup (todo ++ strs) →
    (foldl (compareOne H langCache) (table, todo) strs).2
    = todo ++ filter (λ str, cacheHit (langCache !! hashString H str) = None)
                strs.
Proof.
  induction strs as [|str strs IH]; intros table todo Hnd; cbn [foldl].
  - by rewrite filter_nil, app_nil_r.
  - unfold compareOne at 2.
    assert (str ∉ todo) as Hfresh.
    { apply NoDup_app in Hnd as (_ & Hdisj & _). intros Hin.
      apply (Hdisj _ Hin), list_elem_of_here. }
    destruct (cacheHit (langCache !! hashString H str)) as [cached|] eqn:Hhit.
    + rewrite IH.
      * by rewrite filter_cons_False by (by rewrite Hhit).
      * apply NoDup_app in Hnd as (Hn1 & Hdisj & Hn2).
        apply NoDup_cons in Hn2 as [_ Hn2]. apply NoDup_app.
        split; [done|]. split; [|done]. intros x Hx Hx'.
        apply (Hdisj _ Hx). by apply list_elem_of_further.
    + unfold set_add. rewrite decide_False by done. rewrite IH.
      * rewrite filter_cons_True by done. by rewrite <- app_assoc.
      * by rewrite <- app_assoc.
Qed.

Lemma stringsToTranslateAPI_misses H translator o sourceFilePath lang
    sourceLang loaded allSourceStrings :
  NoDup allSourceStrings →
  stringsToTranslateAPI
    (translateSingle H translator o sourceFilePath lang sourceLang loaded
       allSourceStrings)
  = if useCache o
    then filter (λ str, cacheHit (langCacheOf loaded sourceFilePath lang
                                    !! hashString H str) = None)
           allSourceStrings
    else allSourceStrings.
Proof.
  intros Hnd. unfold translateSingle.
  pose proof (compareWithCache_misses H
                (langCacheOf loaded sourceFilePath lang) allSourceStrings
                ∅ [] Hnd) as Hmiss.
  fold (compareWithCache H (langCacheOf loaded sourceFilePath lang)
          allSourceStrings) in Hmiss.
  destruct (useCache o).
  - destruct (compareWithCache _ _ _) as [cached toTranslate].
    cbn [snd] in Hmiss.
    destruct (mergeBatches _ _ _ _ _ _) as [[merged cache1] count].
    by destruct (pruneCache _ _ _ _).
  - by destruct (mergeBatches _ _ _ _ _ _) as [[merged cache1] count].
Qed.

Lemma batches_of_translateSingle H translator o sourceFilePath lang
    sourceLang loaded allSourceStrings :
  batches (translateSingle H translator o sourceFilePath lang sourceLang
             loaded allSourceStrings)
  = singleFileBatches
      (stringsToTranslateAPI
         (translateSingle H translator o sourceFilePath lang sourceLang
            loaded allSourceStrings)).
Proof.
  unfold translateSingle.
  destruct (if useCache o then _ else _) as [cached toTranslate].
  destruct (mergeBatches _ _ _ _ _ _) as [[merged cache1] count].
  by destruct (if useCache o then pruneCache _ _ _ _ else _).
Qed.

(** X12.  In a single-file run that is not a dry run, the translate
    calls are one per batch and in order, and the strings of a call are
    those of its batch as [translateBatch] sends them: the strings
    themselves without format preservation, their protected forms with
    it.  No string is in two batches or twice in one, and every string
    of a batch is a string leaf of the document; so without format
    preservation no leaf string is sent twice. *)
Theorem single_file_sends_each_string_once (N : Node) (H : Helpers)
    (inputFile lang : string) (output : option string) (o : Options)
    (translator : TranslationProvider) (w : World) (sourceJson : JsonValue) :
  fs_readFile w (path_resolve N inputFile) ≫= JSON_parse N = Some sourceJson →
  dryRun o = false →
  let all := allSourceStringsOf (flattenObjectWithPaths sourceJson) in
  let sourceLang := (detectLanguageStep translator o all all w).1 in
  let sent := batches (singleRunState N H inputFile lang o translator w
                         sourceJson) in
  let run := processSingleFile N H inputFile lang output o translator w in
  requestsOf run.2
  = requestsOf w
    ++ map (λ batch,
              EvTranslate
                (if shouldPreserveFormats o
                 then map (λ str, processed H (preserveFormats H str)) batch
                 else batch)
                lang sourceLang (context o)) sent
  ∧ NoDup (concat sent)
  ∧ (∀ str, str ∈ concat sent →
            str ∈ map snd (flattenObjectWithPaths sourceJson))
  ∧ (shouldPreserveFormats o = false →
     requestsOf run.2
     = requestsOf w
       ++ map (λ batch, EvTranslate batch lang sourceLang (context o)) sent).
Proof.
  intros Hsrc Hdry all sourceLang sent run.
  assert (Hreq : requestsOf run.2
                 = requestsOf w ++ batchEvents H lang sourceLang o sent)
    by by apply processSingleFile_requests.
  split; [|split; [|split]].
  - rewrite Hreq. unfold batchEvents, requestStrings. done.
  - apply translateSingle_batches_distinct.
  - intros str Hstr. subst sent. unfold singleRunState in Hstr.
    rewrite batches_of_translateSingle in Hstr.
    destruct (singleFileBatches_shape
                (stringsToTranslateAPI
                   (translateSingle H translator o (path_resolve N inputFile)
                      lang (detectLanguageStep translator o all all w).1
                      (loadCache N (detectLanguageStep translator o all all w).2
                         (resolvedCacheFile N o)) all)))
      as (_ & Hconcat & _).
    fold all in Hstr. rewrite Hconcat in Hstr.
    rewrite stringsToTranslateAPI_misses in Hstr by apply NoDup_set_of.
    apply elem_of_set_of.
    destruct (useCache o); [|done].
    by apply list_elem_of_filter in Hstr as [_ Hstr].
  - intros Hplain. rewrite Hreq. unfold batchEvents, requestStrings.
    by rewrite Hplain.
Qed.

Lemma single_file_sends_each_string_once_witness :
  let run :=
    processSingleFile demoNode demoHelpers "/i18n/b.json" "es"
      (Some "/out/b.{lang}.json") (demoOptions false) goodBackend
      (demoWorld None) in
  let sent :=
    batches (singleRunState demoNode demoHelpers "/i18n/b.json" "es"
               (demoOptions false) goodBackend (demoWorld None) docB) in
  requestsOf run.2
  = map (λ batch, EvTranslate batch "es" "English" None) sent
  ∧ NoDup (concat sent).
Proof.
  intros run sent.
  destruct (single_file_sends_each_string_once demoNode demoHelpers
              "/i18n/b.json" "es" (Some "/out/b.{lang}.json")
              (demoOptions false) goodBackend (demoWorld None) docB)
    as (_ & Hnd & _ & Hplain); [vm_compute; reflexivity|reflexivity|].
  split; [|exact Hnd]. exact (Hplain eq_refl).
Defined.

(** X13.  The figures of a dry run are those of the run itself: on the
    same cache file, the new strings it counts are the strings the run
    would send, the calls it estimates are the batches the run would
    make, and hits and new strings add up to the strings of the
    document. *)
Theorem dry_run_estimate_is_exact (N : Node) (H : Helpers) (o : Options)
    (translator : TranslationProvider) (sourceFilePath lang sourceLang : string)
    (sourcePathMap : list (string * string)) (w : World) :
  let all := allSourceStringsOf sourcePathMap in
  let t := translateSingle H translator o sourceFilePath lang sourceLang
             (loadCache N w (resolvedCacheFile N o)) all in
  let '(cacheHits, newStrings, estimatedCalls) :=
    dryRunReport N H o sourceFilePath lang all w in
  newStrings = length (stringsToTranslateAPI t)
  ∧ estimatedCalls = length (batches t)
  ∧ (useCache o = true → cacheHits + newStrings = length all).
Proof.
  intros all t. subst t.
  rewrite batches_of_translateSingle.
  rewrite stringsToTranslateAPI_misses by apply NoDup_set_of.
  unfold dryRunReport.
  destruct (useCache o).
  - set (misses := filter _ all).
    destruct (singleFileBatches_shape misses) as (-> & _ & _).
    split; [done|]. split; [done|]. intros _.
    pose proof (length_filter
                  (λ str, cacheHit
                            (langCacheOf (loadCache N w (resolvedCacheFile N o))
                               sourceFilePath lang !! hashString H str) = None)
                  all) as Hle.
    fold misses in Hle. lia.
  - destruct (singleFileBatches_shape all) as (-> & _ & _). done.
Qed.

(** X14.  When every string of the document has a truthy entry in the
    cache under the document and the language, the run makes no call to
    the backend. *)
Theorem fully_cached_run_is_offline (N : Node) (H : Helpers)
    (inputFile lang : string) (output : option string) (o : Options)
    (translator : TranslationProvider) (w : World) (sourceJson : JsonValue) :
  fs_readFile w (path_resolve N inputFile) ≫= JSON_parse N = Some sourceJson →
  useCache o = true →
  (∀ str, str ∈ map snd (flattenObjectWithPaths sourceJson) →
     is_Some (cacheHit
                (cacheLookup (loadCache N w (resolvedCacheFile N o))
                   (path_resolve N inputFile) lang (hashString H str)))) →
  requestsOf (processSingleFile N H inputFile lang output o translator w).2
  = requestsOf w.
Proof.
  intros Hsrc Hcache Hall.
  destruct (dryRun o) eqn:Hdry.
  { unfold processSingleFile. rewrite Hsrc. cbn zeta.
    pose proof (requestsOf_detect translator o
                  (allSourceStringsOf (flattenObjectWithPaths sourceJson))
                  (allSourceStringsOf (flattenObjectWithPaths sourceJson)) w)
      as Hdet.
    destruct (detectLanguageStep translator o _ _ w) as [sourceLang w1].
    by rewrite Hdry. }
  rewrite (processSingleFile_requests N H inputFile lang output o translator
             w sourceJson Hsrc Hdry).
  unfold singleRunState. rewrite batches_of_translateSingle.
  rewrite stringsToTranslateAPI_misses by apply NoDup_set_of.
  rewrite Hcache.
  rewrite (loadCache_files N w (detectLanguageStep translator o _ _ w).2)
    by apply detectLanguageStep_world.
  set (all := allSourceStringsOf _).
  assert (filter (λ str, cacheHit
                           (langCacheOf (loadCache N w (resolvedCacheFile N o))
                              (path_resolve N inputFile) lang
                            !! hashString H str) = None) all = []) as ->.
  { destruct (filter _ all) as [|str rest] eqn:Hfilter; [done|].
    assert (str ∈ filter (λ str, cacheHit
                            (langCacheOf (loadCache N w (resolvedCacheFile N o))
                               (path_resolve N inputFile) lang
                             !! hashString H str) = None) all) as Hstr
      by (rewrite Hfilter; apply list_elem_of_here).
    apply list_elem_of_filter in Hstr as [Hmiss Hin].
    unfold all, allSourceStringsOf in Hin.
    apply (proj1 (elem_of_set_of _ _)) in Hin. specialize (Hall str Hin).
    rewrite langCacheOf_lookup in Hmiss. rewrite Hmiss in Hall.
    by destruct Hall. }
  unfold singleFileBatches. cbn [length]. rewrite decide_False by lia.
  cbn [batchEvents map]. by rewrite app_nil_r.
Qed.

Lemma fully_cached_run_is_offline_witness :
  requestsOf
    (processSingleFile cachedNode demoHelpers "/i18n/a.json" "es"
       (Some "/out/a.{lang}.json") (demoOptions true) goodBackend
       (demoWorld (Some "<cache save>"))).2
  = requestsOf (demoWorld (Some "<cache save>")).
Proof.
  apply (fully_cached_run_is_offline cachedNode demoHelpers "/i18n/a.json"
           "es" (Some "/out/a.{lang}.json") (demoOptions true) goodBackend
           (demoWorld (Some "<cache save>")) docA);
    [vm_compute; reflexivity|reflexivity|].
  intros str Hstr. vm_compute in Hstr.
  apply list_elem_of_singleton in Hstr as ->. vm_compute. by eexists.
Defined.

(** *** The cache after the run *)

Lemma mergeOne_cache_other H o sourceFilePath lang pairs :
  ∀ st file' lang' hash,
    (file', lang') ≠ (sourceFilePath, lang) →
    cacheLookup (foldl (mergeOne H o sourceFilePath lang) st pairs).1.2
      file' lang' hash
    = cacheLookup st.1.2 file' lang' hash.
Proof.
  induction pairs as [|[original translated] pairs IH];
    intros [[table cache] count] file' lang' hash Hne; cbn [foldl]; [done|].
  rewrite IH by done. cbn [mergeOne fst snd].
  destruct (useCache o); [|done].
  rewrite cacheLookup_record. rewrite decide_False; [done|].
  intros (-> & -> & _). done.
Qed.

Lemma mergeBatches_cache_other H o sourceFilePath lang results :
  ∀ st file' lang' hash,
    (file', lang') ≠ (sourceFilePath, lang) →
    cacheLookup (mergeBatches H o sourceFilePath lang st results).1.2
      file' lang' hash
    = cacheLookup st.1.2 file' lang' hash.
Proof.
  unfold mergeBatches.
  induction results as [|batchMap results IH]; intros st file' lang' hash Hne;
    cbn [foldl]; [done|].
  rewrite IH by done. by apply mergeOne_cache_other.
Qed.

(** X16.  A single-file run with the cache enabled changes the cache
    under its own document and language only: what the cache holds for
    any other document or any other language is what was loaded. *)
Theorem other_documents_and_languages_are_kept (H : Helpers)
    (translator : TranslationProvider) (o : Options)
    (sourceFilePath lang sourceLang : string) (loaded : TranslationCache)
    (allSourceStrings : list string) (file' lang' hash : string) :
  useCache o = true →
  (file', lang') ≠ (sourceFilePath, lang) →
  cacheLookup
    (translationCache
       (translateSingle H translator o sourceFilePath lang sourceLang loaded
          allSourceStrings)) file' lang' hash
  = cacheLookup loaded file' lang' hash.
Proof.
  intros Hcache Hne. unfold translateSingle. rewrite Hcache.
  destruct (compareWithCache _ _ _) as [cached toTranslate].
  pose proof (mergeBatches_cache_other H o sourceFilePath lang
                (runBatches H translator lang sourceLang o
                   (singleFileBatches toTranslate))
                (cached, loaded, 0) file' lang' hash Hne) as Hmerge.
  destruct (mergeBatches _ _ _ _ _ _) as [[merged cache1] count].
  cbn [fst snd] in Hmerge.
  pose proof (pruneCache_other cache1 sourceFilePath lang
                (map (hashString H) allSourceStrings) file' lang' hash Hne)
    as Hprune.
  destruct (pruneCache _ _ _ _) as [cache2 pruned].
  cbn [translationCache fst] in *. by rewrite Hprune.
Qed.

Lemma other_documents_and_languages_are_kept_witness :
  cacheLookup
    (translationCache
       (translateSingle demoHelpers goodBackend (demoOptions true)
          "/i18n/a.json" "es" "English" cacheStale ["Save"]))
    "/i18n/b.json" "es" (demoHash "Save")
  = cacheLookup cacheStale "/i18n/b.json" "es" (demoHash "Save").
Proof.
  apply other_documents_and_languages_are_kept; [reflexivity|discriminate].
Defined.

Lemma mergeOne_cache_same H o sourceFilePath lang hash pairs :
  ∀ st file' lang',
    (∀ original translated, (original, translated) ∈ pairs →
       hashString H original ≠ hash) →
    cacheLookup (foldl (mergeOne H o sourceFilePath lang) st pairs).1.2
      file' lang' hash
    = cacheLookup st.1.2 file' lang' hash.
Proof.
  induction pairs as [|[original translated] pairs IH];
    intros [[table cache] count] file' lang' Hfresh; cbn [foldl]; [done|].
  rewrite IH.
  - cbn [mergeOne fst snd]. destruct (useCache o); [|done].
    rewrite cacheLookup_record. rewrite decide_False; [done|].
    intros (_ & _ & Heq).
    by apply (Hfresh original translated (list_elem_of_here _ _)).
  - intros o' t' Hin. apply (Hfresh o' t'). by apply list_elem_of_further.
Qed.

Lemma mergeBatches_cache_same H o sourceFilePath lang hash results :
  ∀ st file' lang',
    (∀ batchMap original translated,
       batchMap ∈ results → (original, translated) ∈ batchMap →
       hashString H original ≠ hash) →
    cacheLookup (mergeBatches H o sourceFilePath lang st results).1.2
      file' lang' hash
    = cacheLookup st.1.2 file' lang' hash.
Proof.
  unfold mergeBatches.
  induction results as [|batchMap results IH]; intros st file' lang' Hfresh;
    cbn [foldl]; [done|].
  rewrite IH.
  - apply mergeOne_cache_same. intros original translated.
    apply (Hfresh batchMap), list_elem_of_here.
  - intros bm original translated Hbm. apply (Hfresh bm).
    by apply list_elem_of_further.
Qed.

(** Every pair of a batch result is for a string of some batch. *)
Lemma runBatches_keys H translator lang sourceLang o bs batchMap original
    translated :
  batchMap ∈ runBatches H translator lang sourceLang o bs →
  (original, translated) ∈ batchMap →
  original ∈ concat bs.
Proof.
  unfold runBatches. intros Hbm Hpair.
  apply list_elem_of_lookup in Hbm as [i Hi].
  rewrite list_lookup_imap in Hi.
  destruct (bs !! i) as [batch|] eqn:Hbatch; [|done].
  cbn in Hi. injection Hi as <-.
  apply elem_of_concat. exists batch.
  split; [by eapply list_elem_of_lookup_2|].
  apply (BackendProperties.translateBatch_keys H i batch lang translator
           sourceLang (shouldPreserveFormats o) (context o)).
  apply list_elem_of_fmap. by exists (original, translated).
Qed.

(** X17.  After a single-file run with the cache enabled, the cache holds
    under the document and the language an entry only for hashes of
    strings the document has now, and every string that was answered from
    the cache still has its entry. *)
Theorem single_file_cache_after_run (H : Helpers)
    (translator : TranslationProvider) (o : Options)
    (sourceFilePath lang sourceLang : string) (loaded : TranslationCache)
    (sourcePathMap : list (string * string)) :
  useCache o = true →
  let all := allSourceStringsOf sourcePathMap in
  let saved :=
    translationCache
      (translateSingle H translator o sourceFilePath lang sourceLang loaded
         all) in
  (∀ hash translated,
     cacheLookup saved sourceFilePath lang hash = Some translated →
     hash ∈ map (hashString H) all)
  ∧ (∀ str translated,
       str ∈ all →
       cacheHit (cacheLookup loaded sourceFilePath lang (hashString H str))
       = Some translated →
       cacheLookup saved sourceFilePath lang (hashString H str)
       = cacheLookup loaded sourceFilePath lang (hashString H str)).
Proof.
  intros Hcache all saved. split.
  - intros hash translated. by apply translateSingle_pruned.
  - intros str translated Hstr Hhit. subst saved.
    pose proof (stringsToTranslateAPI_misses H translator o sourceFilePath
                  lang sourceLang loaded all (NoDup_set_of _)) as Hmiss.
    pose proof (batches_of_translateSingle H translator o sourceFilePath lang
                  sourceLang loaded all) as Hbs.
    rewrite Hcache in Hmiss. revert Hmiss Hbs.
    unfold translateSingle. rewrite Hcache.
    destruct (compareWithCache _ _ _) as [cached toTranslate].
    pose proof (mergeBatches_cache_same H o sourceFilePath lang
                  (hashString H str)
                  (runBatches H translator lang sourceLang o
                     (singleFileBatches toTranslate))
                  (cached, loaded, 0) sourceFilePath lang) as Hmerge.
    destruct (mergeBatches _ _ _ _ _ _) as [[merged cache1] count].
    pose proof (pruneCache_lookup cache1 sourceFilePath lang
                  (map (hashString H) all) (hashString H str)) as Hprune.
    destruct (pruneCache _ _ _ _) as [cache2 pruned].
    cbn [stringsToTranslateAPI batches translationCache fst snd] in *.
    intros -> _. rewrite Hprune.
    rewrite decide_True
      by (apply list_elem_of_fmap; by exists str).
    apply Hmerge. intros batchMap original tr Hbm Hpair Heq.
    apply (runBatches_keys _ _ _ _ _ _ _ _ _ Hbm) in Hpair.
    destruct (singleFileBatches_shape
                (filter (λ str0, cacheHit
                                   (langCacheOf loaded sourceFilePath lang
                                    !! hashString H str0) = None) all))
      as (_ & Hconcat & _).
    rewrite Hconcat in Hpair.
    apply list_elem_of_filter in Hpair as [Hnone _].
    rewrite Heq, langCacheOf_lookup in Hnone. congruence.
Qed.

Lemma single_file_cache_after_run_witness :
  demoHash "Save"
  ∈ map demoHash (allSourceStringsOf (flattenObjectWithPaths docA)).
Proof.
  apply (proj1 (single_file_cache_after_run demoHelpers goodBackend
                  (demoOptions true) "/i18n/a.json" "es" "English" cacheStale
                  (flattenObjectWithPaths docA) eq_refl)
           (demoHash "Save") "Guardar").
  vm_compute. reflexivity.
Defined.

(** *** Metadata *)

Lemma foldl_objSet_get :
  ∀ (props acc : list (string * JsonValue)) (k : string),
    NoDup (map fst props) →
    map_get (foldl (λ fields '(k, x), objSet fields k x) acc props) k
    = match map_get props k with
      | Some v => Some v
      | None => map_get acc k
      end.
Proof.
  induction props as [|[k1 x1] props IH]; intros acc k Hnd; cbn [foldl];
    [done|].
  cbn [map fst] in Hnd. apply NoDup_cons in Hnd as [Hfresh Hnd].
  rewrite IH by done. rewrite map_get_objSet. cbn [map_get].
  destruct (decide (k1 = k)) as [->|Hne]; [|done].
  apply map_get_None in Hfresh. by rewrite Hfresh.
Qed.

(** X18.  Adding the metadata keeps the document: every property of the
    translated object is in the output with its value, also a property
    named [_translator_metadata], and the output has no other property
    than these and the metadata. *)
Theorem metadata_keeps_the_document (N : Node)
    (translator : TranslationProvider) (o : Options)
    (sourceLang lang : string) (totalStrings : nat) (sourceFile : string)
    (fields : list (string * JsonValue)) :
  NoDup (map fst fields) →
  ∃ out,
    withMetadata N translator o sourceLang lang totalStrings sourceFile
      (JObject fields) = JObject out
    ∧ (∀ k v, map_get fields k = Some v → map_get out k = Some v)
    ∧ is_Some (map_get out "_translator_metadata")
    ∧ (∀ k, map_get fields k = None → k ≠ "_translator_metadata" →
            map_get out k = None).
Proof.
  intros Hnd. unfold withMetadata. cbn [ownProperties].
  eexists. split; [reflexivity|]. split; [|split].
  - intros k v Hk. by rewrite foldl_objSet_get, Hk.
  - rewrite foldl_objSet_get by done.
    destruct (map_get fields "_translator_metadata"); [done|].
    cbn [map_get]. by rewrite decide_True.
  - intros k Hk Hne. rewrite foldl_objSet_get, Hk by done.
    cbn [map_get]. by rewrite decide_False.
Qed.

Lemma metadata_keeps_the_document_witness :
  ∃ out,
    withMetadata demoNode goodBackend (demoOptions true) "English" "es" 2
      "/i18n/b.json" docB = JObject out
    ∧ (∀ k v, map_get [("y", JString "Save"); ("z", JString "Open")] k
              = Some v → map_get out k = Some v)
    ∧ is_Some (map_get out "_translator_metadata")
    ∧ (∀ k, map_get [("y", JString "Save"); ("z", JString "Open")] k = None →
            k ≠ "_translator_metadata" → map_get out k = None).
Proof.
  apply (metadata_keeps_the_document demoNode goodBackend (demoOptions true)
           "English" "es" 2 "/i18n/b.json"
           [("y", JString "Save"); ("z", JString "Open")]).
  apply (bool_decide_unpack _). vm_compute. exact I.
Defined.

End SingleFileProperties.

(** ** The multi-file run: reading, counting and estimating *)

Module MultiFileProperties.
Import JsString JsColl Json Reconstruct Batch Provider Store Pipeline.
Import JsCollFacts BatchFacts StoreFacts PipelineFacts MultiFileFacts Demo.

(** X19.  A file that cannot be read or does not parse is left out and
    the others are processed: reading a list of files gives what reading
    its readable files gives. *)
Theorem unreadable_files_are_skipped (N : Node) (o : Options) (lang : string)
    (outputPattern : option string) (w : World) (uniqueFiles : list string) :
  readAll N o lang outputPattern w uniqueFiles
  = readAll N o lang outputPattern w
      (filter (λ filePath,
                 is_Some (fs_readFile w filePath ≫= JSON_parse N))
         uniqueFiles).
Proof.
  unfold readAll.
  generalize ([] : list (string * FileData),
              [] : list (string * list string), 0) as st.
  induction uniqueFiles as [|filePath rest IH]; intros st; [done|].
  cbn [foldl].
  destruct (fs_readFile w filePath ≫= JSON_parse N) as [doc|] eqn:Hdoc.
  - rewrite filter_cons_True by (by rewrite Hdoc). cbn [foldl]. apply IH.
  - rewrite filter_cons_False by (rewrite Hdoc; by intros [? ?]).
    replace (readOne N o lang outputPattern w st filePath) with st; [apply IH|].
    destruct st as [[fdm gsm] total]. unfold readOne. by rewrite Hdoc.
Qed.

Lemma collectStrings_length file strs :
  ∀ gsm, length (collectStrings file gsm strs) ≤ length gsm + length strs.
Proof.
  unfold collectStrings.
  induction strs as [|str strs IH]; intros gsm; cbn [foldl length]; [lia|].
  specialize (IH (collectOne file gsm str)).
  assert (length (collectOne file gsm str) ≤ S (length gsm)); [|lia].
  unfold collectOne.
  rewrite <- (length_map fst (map_set _ _ _)), map_set_keys.
  case_decide; rewrite ?length_app, !length_map; cbn [length]; lia.
Qed.

(** X20.  The unique strings of a multi-file run are distinct and are at
    most as many as the string leaves counted, so that the savings by
    de-duplication it reports, their difference, are never negative. *)
Theorem unique_strings_at_most_total (N : Node) (o : Options) (lang : string)
    (outputPattern : option string) (w : World) (uniqueFiles : list string) :
  let '(fileDataMap, globalStringMap, totalStrings) :=
    readAll N o lang outputPattern w uniqueFiles in
  NoDup (map fst globalStringMap)
  ∧ length globalStringMap ≤ totalStrings.
Proof.
  pose proof (readAll_keys N o lang outputPattern w uniqueFiles) as Hkeys.
  assert (∀ st, length st.1.2 ≤ st.2 →
            length (foldl (readOne N o lang outputPattern w) st
                      uniqueFiles).1.2
            ≤ (foldl (readOne N o lang outputPattern w) st uniqueFiles).2)
    as Hlen.
  { induction uniqueFiles as [|filePath rest IH]; intros st Hst; [done|].
    cbn [foldl]. apply IH; [apply readAll_keys|].
    destruct st as [[fdm gsm] total]. unfold readOne.
    destruct (fs_readFile w filePath ≫= JSON_parse N) as [doc|]; [|done].
    cbn [fst snd] in *.
    pose proof (collectStrings_length filePath
                  (map snd (flattenObjectWithPaths doc)) gsm) as Hc.
    rewrite length_map in Hc. lia. }
  specialize (Hlen ([], [], 0)). unfold readAll in *.
  destruct (foldl _ _ uniqueFiles) as [[fdm gsm] total].
  cbn [fst snd] in *. split; [done|]. apply Hlen. cbn. lia.
Qed.

(** With distinct unique strings, the strings to translate are the
    misses, in the order of [globalStringMap]. *)
Lemma checkCache_misses H translationCache lang :
  ∀ gsm table todo,
    NoDup (todo ++ map fst gsm) →
    (foldl (checkOne H translationCache lang) (table, todo) gsm).2
    = todo ++ map fst
                (filter (λ entry, firstHit translationCache lang
                                    (hashString H entry.1) entry.2 = None)
                   gsm).
Proof.
  induction gsm as [|[str filesOfString] gsm IH]; intros table todo Hnd;
    cbn [foldl].
  - by rewrite filter_nil, app_nil_r.
  - cbn [map fst] in Hnd.
    assert (str ∉ todo) as Hfresh.
    { apply NoDup_app in Hnd as (_ & Hdisj & _). intros Hin.
      apply (Hdisj _ Hin), list_elem_of_here. }
    unfold checkOne at 2.
    destruct (firstHit translationCache lang (hashString H str) filesOfString)
      as [cached|] eqn:Hhit.
    + rewrite IH.
      * by rewrite filter_cons_False by (cbn [fst snd]; by rewrite Hhit).
      * apply NoDup_app in Hnd as (Hn1 & Hdisj & Hn2).
        apply NoDup_cons in Hn2 as [_ Hn2]. apply NoDup_app.
        split; [done|]. split; [|done]. intros x Hx Hx'.
        apply (Hdisj _ Hx). by apply list_elem_of_further.
    + unfold set_add. rewrite decide_False by done. rewrite IH.
      * rewrite filter_cons_True by done. cbn [map fst].
        by rewrite <- app_assoc.
      * by rewrite <- app_assoc.
Qed.

Lemma stringsToTranslate_misses H translator o lang sourceLang loaded gsm :
  NoDup (map fst gsm) →
  stringsToTranslate (translateMultiple H translator o lang sourceLang loaded
                        gsm)
  = if useCache o
    then map fst (filter (λ entry, firstHit loaded lang
                                     (hashString H entry.1) entry.2 = None)
                    gsm)
    else map fst gsm.
Proof.
  intros Hnd. unfold translateMultiple.
  destruct (useCache o).
  - pose proof (checkCache_misses H loaded lang gsm ∅ [] Hnd) as Hmiss.
    fold (checkCache H loaded lang gsm) in Hmiss.
    destruct (checkCache H loaded lang gsm) as [cached toTranslate].
    done.
  - cbn [stringsToTranslate]. by apply foldl_set_add_fresh.
Qed.

Lemma batchesAll_of_translateMultiple H translator o lang sourceLang loaded
    gsm :
  batchesAll (translateMultiple H translator o lang sourceLang loaded gsm)
  = multiFileBatches
      (stringsToTranslate
         (translateMultiple H translator o lang sourceLang loaded gsm)).
Proof.
  unfold translateMultiple.
  by destruct (if useCache o then _ else _) as [cached toTranslate].
Qed.

(** X21.  The figures of a multi-file dry run are those of the run
    itself: on the same cache file, the new strings it counts are the
    strings the run would send, and the calls it estimates are the
    batches the run would make. *)
Theorem multi_file_dry_run_estimate_is_exact (N : Node) (H : Helpers)
    (o : Options) (translator : TranslationProvider) (lang sourceLang : string)
    (globalStringMap : list (string * list string)) (totalStrings : nat)
    (w : World) :
  NoDup (map fst globalStringMap) →
  let t := translateMultiple H translator o lang sourceLang
             (loadCache N w (resolvedCacheFile N o)) globalStringMap in
  let '(cacheHits, newStrings, estimatedCalls, savedCalls) :=
    dryRunReportMulti N H o lang globalStringMap totalStrings w in
  newStrings = length (stringsToTranslate t)
  ∧ estimatedCalls = length (batchesAll t)
  ∧ (useCache o = true → cacheHits + newStrings = length globalStringMap).
Proof.
  intros Hnd t. subst t.
  rewrite batchesAll_of_translateMultiple.
  rewrite stringsToTranslate_misses by done.
  unfold dryRunReportMulti.
  destruct (useCache o).
  - set (misses := filter _ globalStringMap).
    destruct (multiFileBatches_shape (map fst misses)) as (-> & _ & _).
    rewrite length_map. split; [done|]. split; [done|]. intros _.
    pose proof (length_filter
                  (λ entry : string * list string,
                     firstHit (loadCache N w (resolvedCacheFile N o)) lang
                       (hashString H entry.1) entry.2 = None)
                  globalStringMap) as Hle.
    fold misses in Hle. lia.
  - destruct (multiFileBatches_shape (map fst globalStringMap))
      as (-> & _ & _).
    by rewrite length_map.
Qed.

Lemma multi_file_dry_run_estimate_is_exact_witness :
  let gsm := [("Save", ["/i18n/a.json"; "/i18n/b.json"]);
              ("Open", ["/i18n/b.json"])] in
  let t := translateMultiple demoHelpers goodBackend (demoOptions true) "es"
             "English"
             (loadCache demoNode (demoWorld (Some "<cache stale>"))
                (resolvedCacheFile demoNode (demoOptions true))) gsm in
  let '(cacheHits, newStrings, estimatedCalls, savedCalls) :=
    dryRunReportMulti demoNode demoHelpers (demoOptions true) "es" gsm 3
      (demoWorld (Some "<cache stale>")) in
  newStrings = length (stringsToTranslate t)
  ∧ estimatedCalls = length (batchesAll t)
  ∧ (useCache (demoOptions true) = true →
     cacheHits + newStrings = length gsm).
Proof.
  apply (multi_file_dry_run_estimate_is_exact demoNode demoHelpers
           (demoOptions true) goodBackend "es" "English"
           [("Save", ["/i18n/a.json"; "/i18n/b.json"]);
            ("Open", ["/i18n/b.json"])] 3
           (demoWorld (Some "<cache stale>"))).
  apply (bool_decide_unpack _). vm_compute. exact I.
Defined.

(** What a dry run leaves, in either path. *)
Lemma processMultipleFiles_dry N H inputPatterns lang outputPattern o
    translator w :
  dryRun o = true →
  files (processMultipleFiles N H inputPatterns lang outputPattern o
           translator w).2 = files w
  ∧ requestsOf (processMultipleFiles N H inputPatterns lang outputPattern o
                  translator w).2 = requestsOf w.
Proof.
  intros Hdry. unfold processMultipleFiles.
  case_decide; [done|].
  destruct (readAll N o lang outputPattern w _) as [[fdm gsm] total].
  pose proof (detectLanguageStep_world translator o (map fst gsm)
                (take 10 (map fst gsm)) w) as [Hfiles _].
  pose proof (requestsOf_detect translator o (map fst gsm)
                (take 10 (map fst gsm)) w) as Hreq.
  destruct (detectLanguageStep translator o _ _ w) as [sourceLang w1].
  by rewrite Hdry.
Qed.

Lemma processSingleFile_dry N H inputFile lang output o translator w :
  dryRun o = true →
  files (processSingleFile N H inputFile lang output o translator w).2
  = files w
  ∧ requestsOf (processSingleFile N H inputFile lang output o translator w).2
    = requestsOf w.
Proof.
  intros Hdry. unfold processSingleFile.
  destruct (fs_readFile w (path_resolve N inputFile) ≫= JSON_parse N)
    as [sourceJson|]; [|done]. cbn zeta.
  pose proof (detectLanguageStep_world translator o
                (allSourceStringsOf (flattenObjectWithPaths sourceJson))
                (allSourceStringsOf (flattenObjectWithPaths sourceJson)) w)
    as [Hfiles _].
  pose proof (requestsOf_detect translator o
                (allSourceStringsOf (flattenObjectWithPaths sourceJson))
                (allSourceStringsOf (flattenObjectWithPaths sourceJson)) w)
    as Hreq.
  destruct (detectLanguageStep translator o _ _ w) as [sourceLang w1].
  by rewrite Hdry.
Qed.

End MultiFileProperties.

(** ** The provider factory *)

Module FactoryProperties.
Import JsString Factory.

(** X22.  With no provider chosen, [create] fails only when no API key is
    set at all and Ollama is not available: auto-detection never picks a
    provider whose key is missing. *)
Theorem auto_detection_never_lacks_a_key
    (ollamaAvailable : option string → option string → bool) (env : Env)
    (config : TranslatorConfig) (error : CreateError) :
  isTruthy (type config) = false →
  create ollamaAvailable env config = inr error →
  error = OllamaNotAvailable
  ∧ isTruthy (geminiApiKey config) = false
  ∧ isTruthy (GEMINI_API_KEY env) = false
  ∧ isTruthy (openaiApiKey config) = false
  ∧ isTruthy (OPENAI_API_KEY env) = false
  ∧ ollamaAvailable (ollamaBaseUrl config) (ollamaModel config) = false.
Proof.
  intros Htype. unfold create, detectType, orElse. rewrite Htype.
  destruct (isTruthy (geminiApiKey config)) eqn:Hg1; cbn [orb].
  { rewrite decide_False by done. rewrite decide_False by done.
    destruct (geminiApiKey config) as [key|]; [|done].
    cbn [isTruthy] in Hg1. by rewrite Hg1. }
  destruct (isTruthy (GEMINI_API_KEY env)) eqn:Hg2; cbn [orb].
  { rewrite decide_False by done. rewrite decide_False by done.
    destruct (GEMINI_API_KEY env) as [key|]; [|done].
    cbn [isTruthy] in Hg2. by rewrite Hg2. }
  destruct (isTruthy (openaiApiKey config)) eqn:Ho1; cbn [orb].
  { rewrite decide_False by done. rewrite decide_True by done.
    destruct (openaiApiKey config) as [key|]; [|done].
    cbn [isTruthy] in Ho1. by rewrite Ho1. }
  destruct (isTruthy (OPENAI_API_KEY env)) eqn:Ho2; cbn [orb].
  { rewrite decide_False by done. rewrite decide_True by done.
    destruct (OPENAI_API_KEY env) as [key|]; [|done].
    cbn [isTruthy] in Ho2. by rewrite Ho2. }
  rewrite decide_True by done.
  destruct (ollamaAvailable _ _) eqn:Havail; [done|].
  by intros [= <-].
Qed.

Lemma auto_detection_never_lacks_a_key_witness :
  OllamaNotAvailable = OllamaNotAvailable
  ∧ isTruthy (geminiApiKey emptyConfig) = false
  ∧ isTruthy (Some "") = false
  ∧ isTruthy (openaiApiKey emptyConfig) = false
  ∧ isTruthy None = false
  ∧ false = false.
Proof.
  apply (auto_detection_never_lacks_a_key (λ _ _, false)
           {| GEMINI_API_KEY := Some ""; OPENAI_API_KEY := None |}
           emptyConfig OllamaNotAvailable); reflexivity.
Defined.

(** X23.  A Gemini or OpenAI translator is never created with an empty
    key: the key is that of the configuration when it is set and not
    empty, and that of the environment otherwise. *)
Theorem created_translator_has_a_key
    (ollamaAvailable : option string → option string → bool) (env : Env)
    (config : TranslatorConfig) (translator : Translator) :
  create ollamaAvailable env config = inl translator →
  match translator with
  | GeminiTranslator apiKey modelName =>
      truthy apiKey = true
      ∧ Some apiKey = orElse (geminiApiKey config) (GEMINI_API_KEY env)
      ∧ modelName = geminiModel config
  | OpenAITranslator apiKey modelName =>
      truthy apiKey = true
      ∧ Some apiKey = orElse (openaiApiKey config) (OPENAI_API_KEY env)
      ∧ modelName = openaiModel config
  | OllamaTranslator baseUrl model timeout =>
      ollamaAvailable baseUrl model = true
  end.
Proof.
  unfold create.
  destruct (decide (_ = "ollama")).
  { destruct (ollamaAvailable _ _) eqn:Havail; [|done]. by intros [= <-]. }
  destruct (decide (_ = "openai")).
  - destruct (orElse (openaiApiKey config) (OPENAI_API_KEY env))
      as [key|]; [|done].
    destruct (truthy key) eqn:Hkey; [|done]. by intros [= <-].
  - destruct (orElse (geminiApiKey config) (GEMINI_API_KEY env))
      as [key|]; [|done].
    destruct (truthy key) eqn:Hkey; [|done]. by intros [= <-].
Qed.

Lemma created_translator_has_a_key_witness :
  truthy "k-env" = true
  ∧ Some "k-env" = orElse (geminiApiKey emptyConfig) (Some "k-env")
  ∧ None = geminiModel emptyConfig.
Proof.
  apply (created_translator_has_a_key (λ _ _, false)
           {| GEMINI_API_KEY := Some "k-env"; OPENAI_API_KEY := None |}
           emptyConfig (GeminiTranslator "k-env" None)).
  reflexivity.
Defined.

(** X24.  With the configuration [{}], [create] succeeds exactly when
    [listAvailableProviders] lists a provider. *)
Theorem default_create_succeeds_iff_listed
    (ollamaAvailable : option string → option string → bool) (env : Env) :
  (∃ translator, create ollamaAvailable env emptyConfig = inl translator)
  ↔ listAvailableProviders ollamaAvailable env ≠ [].
Proof.
  unfold create, listAvailableProviders, detectType, orElse.
  cbn [type geminiApiKey openaiApiKey ollamaBaseUrl ollamaModel emptyConfig
       isTruthy orb].
  destruct (isTruthy (GEMINI_API_KEY env)) eqn:Hg.
  { rewrite decide_False by done. rewrite decide_False by done.
    destruct (GEMINI_API_KEY env) as [key|]; [|done].
    cbn [isTruthy] in Hg. rewrite Hg. split; [done|]. by eexists. }
  destruct (isTruthy (OPENAI_API_KEY env)) eqn:Ho.
  { rewrite decide_False by done. rewrite decide_True by done.
    destruct (OPENAI_API_KEY env) as [key|]; [|done].
    cbn [isTruthy] in Ho. rewrite Ho. split; [done|]. by eexists. }
  rewrite decide_True by done.
  destruct (ollamaAvailable None None).
  - split; [done|]. by eexists.
  - split; [by intros [? ?]|done].
Qed.

End FactoryProperties.

(** ** Splitting, joining and trimming *)

Module SplitFacts.
Import JsString Cli JsStringFacts.

Lemma splitOn_cons (sep : ascii) (s : string) :
  ∃ piece pieces, splitOn sep s = piece :: pieces.
Proof.
  induction s as [|c s (piece & pieces & IH)]; cbn [splitOn]; [by eexists _, _|].
  case_bool_decide; [by eexists _, _|]. rewrite IH. by eexists _, _.
Qed.

Lemma splitOn_no_separator (sep : ascii) (s : string) :
  ∀ piece, piece ∈ splitOn sep s → includes sep piece = false.
Proof.
  induction s as [|c s IH]; cbn [splitOn]; intros piece Hpiece.
  - by apply list_elem_of_singleton in Hpiece as ->.
  - case_bool_decide as Hc.
    + apply elem_of_cons in Hpiece as [->|Hpiece]; [done|by apply IH].
    + destruct (splitOn sep s) as [|first rest] eqn:Hs.
      { apply list_elem_of_singleton in Hpiece as ->. cbn [includes].
        by rewrite bool_decide_eq_false_2. }
      apply elem_of_cons in Hpiece as [->|Hpiece].
      * cbn [includes]. rewrite bool_decide_eq_false_2 by done.
        apply IH, list_elem_of_here.
      * by apply IH, list_elem_of_further.
Qed.

(** A character of the string is the separator or a character of a
    piece. *)
Lemma includes_splitOn (sep c : ascii) (s : string) :
  includes c s = true →
  c = sep ∨ ∃ piece, piece ∈ splitOn sep s ∧ includes c piece = true.
Proof.
  induction s as [|c' s IH]; cbn [includes splitOn]; [done|].
  intros Hc. destruct (decide (c = sep)) as [?|Hne]; [by left|]. right.
  destruct (splitOn_cons sep s) as (first & rest & Hs). rewrite Hs in *.
  apply orb_true_iff in Hc as [Hhere|Hlater].
  - apply bool_decide_eq_true in Hhere as ->.
    rewrite bool_decide_eq_false_2 by done.
    exists (String c first). split; [apply list_elem_of_here|].
    cbn [includes]. by rewrite bool_decide_eq_true_2.
  - destruct (IH Hlater) as [?|(piece & Hin & Hp)]; [done|].
    destruct (bool_decide (c' = sep)).
    + exists piece. split; [by apply list_elem_of_further|done].
    + apply elem_of_cons in Hin as [->|Hin].
      * exists (String c' first). split; [apply list_elem_of_here|].
        cbn [includes]. by rewrite Hp, orb_true_r.
      * exists piece. split; [by apply list_elem_of_further|done].
Qed.

(** Splitting what was joined gives the parts back, when no part holds
    the separator. *)
Lemma splitOn_piece (sep : ascii) (part rest : string) :
  includes sep part = false →
  splitOn sep (part +:+ String sep rest) = part :: splitOn sep rest.
Proof.
  induction part as [|c part IH]; intros Hfree.
  - rewrite append_nil_l. cbn [splitOn]. by rewrite bool_decide_eq_true_2.
  - rewrite append_cons. cbn [splitOn]. cbn [includes] in Hfree.
    apply orb_false_iff in Hfree as [Hc Hfree].
    rewrite Hc. by rewrite IH.
Qed.

Lemma splitOn_whole (sep : ascii) (part : string) :
  includes sep part = false → splitOn sep part = [part].
Proof.
  induction part as [|c part IH]; intros Hfree; [done|].
  cbn [splitOn]. cbn [includes] in Hfree.
  apply orb_false_iff in Hfree as [Hc Hfree].
  rewrite Hc. by rewrite IH.
Qed.

Lemma splitOn_join (sep : ascii) (parts : list string) :
  parts ≠ [] →
  (∀ part, part ∈ parts → includes sep part = false) →
  splitOn sep (join (String sep "") parts) = parts.
Proof.
  unfold join. induction parts as [|part parts IH]; intros Hne Hfree; [done|].
  destruct parts as [|part' parts].
  - cbn [String.concat]. apply splitOn_whole, Hfree, list_elem_of_here.
  - change (String.concat (String sep "") (part :: part' :: parts))
      with (part +:+ String sep "" +:+ String.concat (String sep "")
                                          (part' :: parts)).
    change (String sep "" +:+ ?t) with (String sep t).
    rewrite splitOn_piece by (apply Hfree, list_elem_of_here).
    rewrite IH; [done|done|].
    intros p Hp. by apply Hfree, list_elem_of_further.
Qed.

Lemma trimStart_includes (c : ascii) (s : string) :
  includes c (trimStart s) = true → includes c s = true.
Proof.
  induction s as [|c' s IH]; cbn [trimStart includes]; [done|].
  destruct (isWhiteSpace c'); [|done].
  intros Hc. by rewrite IH, orb_true_r.
Qed.

Lemma trimEnd_includes (c : ascii) (s : string) :
  includes c (trimEnd s) = true → includes c s = true.
Proof.
  induction s as [|c' s IH]; cbn [trimEnd includes]; [done|].
  destruct (trimEnd s) as [|c'' t] eqn:Ht.
  - destruct (isWhiteSpace c'); [done|]. cbn [includes].
    rewrite orb_false_r. by intros ->.
  - cbn [includes] in *. intros [->|Hc]%orb_true_iff; [done|].
    by rewrite IH, orb_true_r.
Qed.

Lemma trimStart_shape (s : string) :
  trimStart s = ""
  ∨ ∃ c rest, trimStart s = String c rest ∧ isWhiteSpace c = false.
Proof.
  induction s as [|c s IH]; cbn [trimStart]; [by left|].
  destruct (isWhiteSpace c) eqn:Hc; [done|]. right. by eexists _, _.
Qed.

Lemma trimEnd_head (c : ascii) (rest : string) :
  isWhiteSpace c = false →
  trimEnd (String c rest) = String c (trimEnd rest).
Proof.
  intros Hc. cbn [trimEnd]. destruct (trimEnd rest); [by rewrite Hc|done].
Qed.

Lemma trimEnd_twice (s : string) : trimEnd (trimEnd s) = trimEnd s.
Proof.
  induction s as [|c s IH]; [done|]. cbn [trimEnd].
  destruct (trimEnd s) as [|c' t] eqn:Ht.
  - destruct (isWhiteSpace c) eqn:Hc; [done|]. cbn [trimEnd]. by rewrite Hc.
  - change (trimEnd (String c (String c' t)))
      with (match trimEnd (String c' t) with
            | "" => if isWhiteSpace c then "" else String c ""
            | trimmed => String c trimmed
            end).
    by rewrite IH.
Qed.

Lemma trim_twice (s : string) : trim (trim s) = trim s.
Proof.
  unfold trim. destruct (trimStart_shape s) as [->|(c & rest & -> & Hc)];
    [done|].
  rewrite trimEnd_head by done. cbn [trimStart]. rewrite Hc.
  rewrite trimEnd_head by done. by rewrite trimEnd_twice.
Qed.

Lemma trim_no_white (s : string) :
  (∀ c, includes c s = true → isWhiteSpace c = false) → trim s = s.
Proof.
  intros Hs. unfold trim.
  assert (trimStart s = s) as ->.
  { destruct s as [|c s]; [done|]. cbn [trimStart].
    rewrite Hs; [done|]. cbn [includes]. by rewrite bool_decide_eq_true_2. }
  induction s as [|c s IH]; [done|].
  rewrite trimEnd_head.
  - rewrite IH; [done|]. intros c' Hc'. apply Hs. cbn [includes].
    by rewrite Hc', orb_true_r.
  - apply Hs. cbn [includes]. by rewrite bool_decide_eq_true_2.
Qed.

End SplitFacts.

(** ** The command line *)

Module CliProperties.
Import JsString Provider Store Pipeline Cli.
Import PipelineFacts MultiFileProperties SplitFacts.

(** X25.  The target languages [main] works through are clean: none is
    empty, none holds a comma, and none begins or ends with white
    space. *)
Theorem target_languages_are_clean (lang targetLang : string) :
  targetLang ∈ targetLanguages lang →
  targetLang ≠ ""
  ∧ includes "," targetLang = false
  ∧ trim targetLang = targetLang.
Proof.
  unfold targetLanguages. intros Hin.
  apply list_elem_of_In, filter_In in Hin as [Hin Htruthy].
  apply list_elem_of_In in Hin.
  change (map trim (splitOn "," lang)) with (trim <$> splitOn "," lang) in Hin.
  apply list_elem_of_fmap in Hin as (piece & -> & Hpiece).
  split; [|split].
  - intros Hempty. by rewrite Hempty in Htruthy.
  - apply splitOn_no_separator in Hpiece.
    destruct (includes "," (trim piece)) eqn:Hc; [|done].
    unfold trim in Hc.
    apply trimEnd_includes, trimStart_includes in Hc. congruence.
  - apply trim_twice.
Qed.

Lemma target_languages_are_clean_witness :
  "fr" ≠ "" ∧ includes "," "fr" = false ∧ trim "fr" = "fr".
Proof.
  apply (target_languages_are_clean "es, fr ,,de").
  apply (bool_decide_unpack _). vm_compute. exact I.
Defined.

Lemma processLanguage_dry N H inputFiles output o translator several
    targetLang w :
  dryRun o = true →
  files (processLanguage N H inputFiles output o translator several
           targetLang w).2 = files w
  ∧ requestsOf (processLanguage N H inputFiles output o translator several
                  targetLang w).2 = requestsOf w.
Proof.
  intros Hdry. unfold processLanguage.
  set (w0 := if several then _ else w).
  assert (files w0 = files w ∧ requestsOf w0 = requestsOf w) as [Hf Hr].
  { subst w0. destruct several; [|done]. split; [done|].
    by apply requestsOf_emit. }
  destruct (isSingleFile inputFiles).
  - destruct (processSingleFile_dry N H (default "" (head inputFiles))
                targetLang output o translator w0 Hdry) as [-> ->]. done.
  - destruct (processMultipleFiles_dry N H inputFiles targetLang output o
                translator w0 Hdry) as [-> ->]. done.
Qed.

(** X26.  A dry run of [main], over whatever inputs and languages, leaves
    the file system as it was and makes no translate call. *)
Theorem dry_run_of_main_is_read_only (N : Node) (H : Helpers)
    (inputFiles : list string) (lang : string) (output : option string)
    (o : Options) (translator : TranslationProvider) (w : World) :
  dryRun o = true →
  files (mainRun N H inputFiles lang output o translator w).2 = files w
  ∧ requestsOf (mainRun N H inputFiles lang output o translator w).2
    = requestsOf w.
Proof.
  intros Hdry. unfold mainRun.
  destruct (negb (Factory.isTruthy output) && negb (stdout o)); [done|].
  destruct (Factory.isTruthy output && stdout o); [done|].
  case_decide; [done|].
  generalize (bool_decide (1 < length (targetLanguages lang))) as several.
  generalize (if Factory.isTruthy output then output else None) as out.
  intros out several. clear H0. revert w.
  induction (targetLanguages lang) as [|targetLang rest IH]; intros w;
    cbn [processLanguages]; [done|].
  destruct (processLanguage_dry N H inputFiles out o translator several
              targetLang w Hdry) as [Hf Hr].
  destruct (processLanguage N H inputFiles out o translator several
              targetLang w) as [[|exitCode] w']; cbn [snd] in *.
  - destruct (IH w') as [-> ->]. done.
  - done.
Qed.

Lemma dry_run_of_main_is_read_only_witness :
  files (mainRun Demo.demoNode Demo.demoHelpers ["/i18n/*.json"] "es,fr"
           (Some "/out/{name}.{lang}.json") Demo.dryOptions Demo.goodBackend
           (Demo.demoWorld None)).2
  = files (Demo.demoWorld None).
Proof.
  apply (dry_run_of_main_is_read_only Demo.demoNode Demo.demoHelpers
           ["/i18n/*.json"] "es,fr" (Some "/out/{name}.{lang}.json")
           Demo.dryOptions Demo.goodBackend (Demo.demoWorld None)).
  reflexivity.
Defined.

(** X27.  The loop over the languages stops at the first language whose
    processing exits: the languages after it are not processed, and the
    run ends as that language did. *)
Theorem run_stops_at_first_failing_language (N : Node) (H : Helpers)
    (inputFiles : list string) (output : option string) (o : Options)
    (translator : TranslationProvider) (several : bool)
    (before : list string) (targetLang : string) (after : list string)
    (w w' : World) (exitCode : nat) :
  processLanguages N H inputFiles output o translator several before w
  = (Returned, w') →
  (processLanguage N H inputFiles output o translator several targetLang w').1
  = Exited exitCode →
  processLanguages N H inputFiles output o translator several
    (before ++ targetLang :: after) w
  = processLanguage N H inputFiles output o translator several targetLang w'.
Proof.
  revert w. induction before as [|first before IH]; intros w;
    cbn [processLanguages app].
  - intros [= ->] Hexit.
    destruct (processLanguage N H inputFiles output o translator several
                targetLang w') as [[|code] w'']; [done|done].
  - destruct (processLanguage N H inputFiles output o translator several
                first w) as [[|code] w1]; [|done].
    apply IH.
Qed.

Lemma run_stops_at_first_failing_language_witness :
  processLanguages Demo.demoNode Demo.demoHelpers ["/missing.json"]
    (Some "/out/{lang}.json") (Demo.demoOptions false) Demo.goodBackend true
    ([] ++ "es" :: ["fr"]) (Demo.demoWorld None)
  = processLanguage Demo.demoNode Demo.demoHelpers ["/missing.json"]
      (Some "/out/{lang}.json") (Demo.demoOptions false) Demo.goodBackend true
      "es" (Demo.demoWorld None).
Proof.
  apply (run_stops_at_first_failing_language Demo.demoNode Demo.demoHelpers
           ["/missing.json"] (Some "/out/{lang}.json")
           (Demo.demoOptions false) Demo.goodBackend true [] "es" ["fr"]
           (Demo.demoWorld None) (Demo.demoWorld None) 1);
    vm_compute; reflexivity.
Defined.

End CliProperties.

(** ** The MCP server: language lists *)

Module McpProperties.
Import JsString Cli McpServer SplitFacts.

Lemma isLetter_not_white (c : ascii) :
  isLetter c = true → isWhiteSpace c = false.
Proof.
  unfold isLetter, isWhiteSpace. intros Hc.
  apply bool_decide_eq_false. intros Hin.
  repeat (apply elem_of_cons in Hin as [Hin|Hin];
          [rewrite Hin in Hc; discriminate Hc|]).
  by apply elem_of_nil in Hin.
Qed.

Lemma allLetters_includes (s : string) (c : ascii) :
  allLetters s = true → includes c s = true → isLetter c = true.
Proof.
  induction s as [|c' s IH]; cbn [allLetters includes]; [done|].
  intros [Hc' Hs]%andb_true_iff [Hhere|Hlater]%orb_true_iff.
  - by apply bool_decide_eq_true in Hhere as ->.
  - by apply IH.
Qed.

Lemma letters_all lo hi s : letters lo hi s = true → allLetters s = true.
Proof.
  unfold letters. by intros [[Hs _]%andb_true_iff _]%andb_true_iff.
Qed.

(** A code is not empty, and holds letters and at most one hyphen. *)
Lemma langCode_chars (code : string) :
  langCode code = true →
  code ≠ ""
  ∧ ∀ c, includes c code = true → isLetter c = true ∨ c = "-"%char.
Proof.
  intros Hcode. split.
  - intros ->. done.
  - intros c Hc.
    destruct (includes_splitOn "-" c code Hc) as [?|(piece & Hin & Hp)];
      [by right|].
    left. unfold langCode in Hcode.
    destruct (splitOn "-" code) as [|language [|region [|]]]; try done.
    + apply list_elem_of_singleton in Hin as ->.
      apply (allLetters_includes language c); [|done].
      by apply (letters_all 2 3).
    + apply andb_true_iff in Hcode as [Hl Hr].
      apply elem_of_cons in Hin as [->|Hin].
      * apply (allLetters_includes language c); [|done].
        by apply (letters_all 2 3).
      * apply list_elem_of_singleton in Hin as ->.
        apply (allLetters_includes region c); [|done].
        by apply (letters_all 2 4).
Qed.

Lemma langCode_trim (code : string) :
  langCode code = true → trim code = code ∧ truthy code = true.
Proof.
  intros [Hne Hchars]%langCode_chars. split.
  - apply trim_no_white. intros c Hc.
    destruct (Hchars c Hc) as [Hl| ->]; [by apply isLetter_not_white|done].
  - by destruct code.
Qed.

(** X28.  A language list that the MCP server lets through is parsed by
    the command line into exactly its comma-separated codes, none dropped
    and none changed; it holds letters, hyphens and commas only. *)
Theorem accepted_language_list_is_parsed_whole (lang accepted : string) :
  validateLanguageCode lang = Some accepted →
  accepted = lang
  ∧ targetLanguages lang = splitOn "," lang
  ∧ ∀ c, includes c lang = true →
         isLetter c = true ∨ c = "-"%char ∨ c = ","%char.
Proof.
  unfold validateLanguageCode, validLangPattern.
  destruct (forallb langCode (splitOn "," lang)) eqn:Hall; [|done].
  intros [= <-]. split; [done|].
  rewrite forallb_forall in Hall. split.
  - unfold targetLanguages.
    assert (∀ code, code ∈ splitOn "," lang → langCode code = true) as Hcodes
      by (intros code Hcode; by apply Hall, list_elem_of_In).
    clear Hall. induction (splitOn "," lang) as [|code codes IH]; [done|].
    destruct (langCode_trim code (Hcodes code (list_elem_of_here _ _)))
      as [Htrim Htruthy].
    cbn [map List.filter]. rewrite Htrim, Htruthy. f_equal.
    apply IH. intros code' Hcode'. by apply Hcodes, list_elem_of_further.
  - intros c Hc.
    destruct (includes_splitOn "," c lang Hc) as [?|(code & Hin & Hp)];
      [by right; right|].
    apply list_elem_of_In, Hall, langCode_chars in Hin as [_ Hchars].
    destruct (Hchars c Hp); [by left|by right; left].
Qed.

Lemma accepted_language_list_is_parsed_whole_witness :
  "es,pt-BR" = "es,pt-BR"
  ∧ targetLanguages "es,pt-BR" = splitOn "," "es,pt-BR"
  ∧ ∀ c, includes c "es,pt-BR" = true →
         isLetter c = true ∨ c = "-"%char ∨ c = ","%char.
Proof.
  apply accepted_language_list_is_parsed_whole. reflexivity.
Defined.

End McpProperties.

(** ** Flattened paths *)

Module PathProperties.
Import JsString Json Reconstruct Cli SplitFacts.

Lemma replaceChar_includes (x y c : ascii) (s : string) :
  c ≠ y → includes c s = false → includes c (replaceChar x y s) = false.
Proof.
  intros Hne. induction s as [|c' s IH]; cbn [includes replaceChar]; [done|].
  intros [Hc' Hs]%orb_false_iff. rewrite IH by done.
  rewrite orb_false_r. apply bool_decide_eq_false in Hc'.
  apply bool_decide_eq_false. by destruct (bool_decide (c' = x)).
Qed.

Lemma replaceChar_inj (x y : ascii) (s t : string) :
  includes y s = false → includes y t = false →
  replaceChar x y s = replaceChar x y t → s = t.
Proof.
  revert t. induction s as [|a s IH]; intros [|b t]; cbn [includes replaceChar];
    try done.
  intros [Ha Hs]%orb_false_iff [Hb Ht]%orb_false_iff [= Hhead Htail].
  apply bool_decide_eq_false in Ha, Hb.
  rewrite (IH t) by done. f_equal.
  destruct (bool_decide (a = x)) eqn:Hax, (bool_decide (b = x)) eqn:Hbx;
    try apply bool_decide_eq_true in Hax; try apply bool_decide_eq_true in Hbx;
    congruence.
Qed.

(** X29.  Two different paths of segments that hold neither the separator
    nor the character that stands for a dot have different flattened
    paths: the key of a leaf in [sourcePathMap] names one leaf. *)
Theorem flat_paths_are_distinct (path path' : list string) :
  path ≠ [] → path' ≠ [] →
  (∀ segment, segment ∈ path ++ path' →
     includes (ascii_of_nat 0) segment = false
     ∧ includes DOT_ESCAPE segment = false) →
  path ≠ path' →
  flatPath path ≠ flatPath path'.
Proof.
  intros Hne Hne' Hclean Hdiff Hflat. apply Hdiff. clear Hdiff.
  unfold flatPath, PATH_SEPARATOR in Hflat.
  apply (f_equal (splitOn (ascii_of_nat 0))) in Hflat.
  rewrite !splitOn_join in Hflat.
  - revert path' Hne' Hclean Hflat. clear Hne.
    induction path as [|segment path IH]; intros [|segment' path'] _ Hclean;
      cbn [map]; try done.
    intros [= Hhead Htail].
    destruct (Hclean segment) as [_ Hs].
    { apply elem_of_app. left. apply list_elem_of_here. }
    destruct (Hclean segment') as [_ Hs'].
    { apply elem_of_app. right. apply list_elem_of_here. }
    rewrite (replaceChar_inj _ _ _ _ Hs Hs' Hhead). f_equal.
    destruct path as [|s path], path' as [|s' path']; try done.
    apply IH; [done| |done].
    intros seg Hseg. apply Hclean.
    apply elem_of_app in Hseg as [Hseg|Hseg]; apply elem_of_app;
      [left|right]; by apply list_elem_of_further.
  - by destruct path'.
  - intros part Hpart.
    change (map ?f ?l) with (f <$> l) in Hpart.
    apply list_elem_of_fmap in Hpart as (segment & -> & Hseg).
    apply replaceChar_includes; [done|]. apply Hclean.
    apply elem_of_app. by right.
  - by destruct path.
  - intros part Hpart.
    change (map ?f ?l) with (f <$> l) in Hpart.
    apply list_elem_of_fmap in Hpart as (segment & -> & Hseg).
    apply replaceChar_includes; [done|]. apply Hclean.
    apply elem_of_app. by left.
Qed.

Lemma flat_paths_are_distinct_witness :
  flatPath ["a.b"] ≠ flatPath ["a"; "b"].
Proof.
  apply flat_paths_are_distinct; [done|done| |done].
  intros segment Hsegment.
  repeat (apply elem_of_cons in Hsegment as [->|Hsegment];
          [split; vm_compute; reflexivity|]).
  by apply elem_of_nil in Hsegment.
Defined.

End PathProperties.
(** ** The shape of a run: what it does, and in which order *)

Module RunShape.
Import JsString Json Reconstruct Batch Provider Store Pipeline JsColl Observe.
Import JsCollFacts BatchFacts StoreFacts PipelineFacts MultiFileFacts.

Lemma saveCache_events N cache w p :
  ∃ mk, (mk = [] ∨ mk = [EvMkdir (path_dirname N p)])
        ∧ events (saveCache N cache w p).2
          = events w ++ mk
            ++ (if (saveCache N cache w p).1
                then [EvWriteFile p (stringifyCache N cache)] else []).
Proof.
  unfold saveCache, ensureCacheDirectory.
  destruct (fs_access w (path_dirname N p)).
  - exists []. split; [by left|].
    destruct (fs_writeFile w p _) as [w'|] eqn:Hw; cbn [fst snd].
    + by apply fs_writeFile_same in Hw as [_ ->].
    + by rewrite app_nil_r.
  - destruct (fs_mkdir w (path_dirname N p)) as [w1|] eqn:Hm.
    + exists [EvMkdir (path_dirname N p)]. split; [by right|].
      apply fs_mkdir_events in Hm.
      destruct (fs_writeFile w1 p _) as [w'|] eqn:Hw; cbn [fst snd].
      * apply fs_writeFile_same in Hw as [_ ->]. by rewrite Hm, <- app_assoc.
      * by rewrite Hm, app_nil_r.
    + exists []. split; [by left|]. cbn [fst snd]. by rewrite app_nil_r.
Qed.

(** A directory in the place of the cache file makes the save fail. *)
Lemma saveCache_directory N cache w p :
  files w !! p = Some Directory → (saveCache N cache w p).1 = false.
Proof.
  intros Hdir. unfold saveCache, ensureCacheDirectory.
  destruct (fs_access w (path_dirname N p)).
  - unfold fs_writeFile. by rewrite Hdir.
  - destruct (fs_mkdir w (path_dirname N p)) as [w1|] eqn:Hm; [|done].
    unfold fs_writeFile.
    destruct (fs_mkdir_lookup _ _ _ Hm p) as [->|(Hnone & _)];
      [by rewrite Hdir|congruence].
Qed.

(** Where the directory of the cache file is there and the path is not a
    directory, the save resolves and changes that one path. *)
Lemma saveCache_ok N cache w p :
  files w !! p ≠ Some Directory → fs_access w (path_dirname N p) = true →
  saveCache N cache w p
  = (true, {| files := <[p := Readable (stringifyCache N cache)]> (files w);
              events := events w ++ [EvWriteFile p (stringifyCache N cache)] |}).
Proof.
  intros Hfile Hdir. unfold saveCache, ensureCacheDirectory. rewrite Hdir.
  unfold fs_writeFile. by destruct (files w !! p) as [[]|].
Qed.

Lemma writeOutput_events N H o lang output sourceJson outputJson w :
  ∃ out, events (writeOutput N H o lang output sourceJson outputJson w).2
         = events w ++ out
         ∧ (out = [] ∨ ∃ e, out = [e] ∧ isSingleOutput N o lang output e).
Proof.
  unfold writeOutput. destruct (stdout o) eqn:Hstd.
  - exists [EvStdout (JSON_stringify N outputJson)]. split.
    + by destruct (checkKeys o && _).
    + right. eexists. split; [done|]. exact Hstd.
  - destruct output as [pattern|].
    + destruct (fs_writeFile w _ _) as [w'|] eqn:Hw.
      * apply fs_writeFile_same in Hw as [_ He].
        exists [EvWriteFile (replaceToken N "lang" lang pattern)
                  (JSON_stringify N outputJson)]. split.
        -- by destruct (checkKeys o && _).
        -- right. eexists. split; [done|]. split; [done|]. by exists pattern.
      * exists []. split; [by rewrite app_nil_r|by left].
    + exists []. split; [|by left].
      destruct (checkKeys o && _); by rewrite app_nil_r.
Qed.

Lemma detect_events translator o strings sample w :
  ∃ es, events (detectLanguageStep translator o strings sample w).2
        = events w ++ es
        ∧ ∀ e, e ∈ es → isBackendCall e.
Proof.
  destruct (detectLanguageStep_world translator o strings sample w)
    as (_ & es & He & Hes).
  exists es. split; [done|]. intros e Hin. by rewrite (Hes e Hin).
Qed.

Lemma batchEvents_backend H lang sourceLang o bs e :
  e ∈ batchEvents H lang sourceLang o bs → isBackendCall e.
Proof.
  unfold batchEvents. rewrite map_fmap.
  by intros (batch & -> & _)%list_elem_of_fmap.
Qed.

(** A single-file run that is not a dry run: calls of the backend, then
    the save of the cache when there is something to save, then the
    output. *)
Lemma processSingleFile_shape N H inputFile lang output o translator w
    sourceJson :
  fs_readFile w (path_resolve N inputFile) ≫= JSON_parse N = Some sourceJson →
  dryRun o = false →
  let t := singleRunState N H inputFile lang o translator w sourceJson in
  let run := processSingleFile N H inputFile lang output o translator w in
  let p := resolvedCacheFile N o in
  ∃ before mk sv out,
    events run.2 = events w ++ before ++ mk ++ sv ++ out
    ∧ (∀ e, e ∈ before → isBackendCall e)
    ∧ (mk = [] ∨ mk = [EvMkdir (path_dirname N p)])
    ∧ (out = [] ∨ ∃ e, out = [e] ∧ isSingleOutput N o lang output e)
    ∧ if useCache o && (bool_decide (0 < successfullyTranslatedCount t)
                        || bool_decide (0 < prunedCount t))
      then (sv = [] ∧ out = [] ∧ run.1 = Exited 1)
           ∨ sv = [EvWriteFile p (stringifyCache N (translationCache t))]
      else mk = [] ∧ sv = [].
Proof.
  intros Hsrc Hdry t run p. subst t run p.
  unfold singleRunState, processSingleFile. rewrite Hsrc. cbn zeta.
  destruct (detect_events translator o
              (allSourceStringsOf (flattenObjectWithPaths sourceJson))
              (allSourceStringsOf (flattenObjectWithPaths sourceJson)) w)
    as (det & Hdet & Hdetb).
  destruct (detectLanguageStep translator o _ _ w) as [sourceLang w1].
  rewrite Hdry. cbn [fst snd] in *.
  set (t := translateSingle _ _ _ _ _ _ _ _).
  set (w2 := emitAll _ w1).
  assert (Hw2 : events w2
                = events w ++ det ++ batchEvents H lang sourceLang o (batches t)).
  { subst w2. unfold emitAll. cbn [events]. by rewrite Hdet, <- app_assoc. }
  assert (Hbefore : ∀ e, e ∈ det ++ batchEvents H lang sourceLang o (batches t)
                         → isBackendCall e).
  { intros e [?|?]%elem_of_app; [by apply Hdetb|by eapply batchEvents_backend]. }
  destruct (useCache o && (bool_decide (0 < successfullyTranslatedCount t)
                           || bool_decide (0 < prunedCount t))).
  - destruct (saveCache_events N (translationCache t) w2 (resolvedCacheFile N o))
      as (mk & Hmk & Hev).
    destruct (saveCache N (translationCache t) w2 (resolvedCacheFile N o))
      as [saved w3]. cbn [fst snd] in Hev. destruct saved.
    + destruct (rebuildDocument _ _ _ _) as [translatedJson| |].
      * destruct (writeOutput_events N H o lang output sourceJson
                    (finishOutput N H translator o sourceLang lang
                       (length (flattenObjectWithPaths sourceJson)) inputFile
                       translatedJson) w3) as (out & Hout & Hshape).
        exists (det ++ batchEvents H lang sourceLang o (batches t)), mk,
          [EvWriteFile (resolvedCacheFile N o)
             (stringifyCache N (translationCache t))], out.
        split; [by rewrite Hout, Hev, Hw2, <- !app_assoc|].
        split; [done|]. split; [done|]. split; [done|]. by right.
      * exists (det ++ batchEvents H lang sourceLang o (batches t)), mk,
          [EvWriteFile (resolvedCacheFile N o)
             (stringifyCache N (translationCache t))], [].
        cbn [fst snd].
        split; [by rewrite Hev, Hw2, <- !app_assoc, app_nil_r|].
        split; [done|]. split; [done|]. split; [by left|]. by right.
      * exists (det ++ batchEvents H lang sourceLang o (batches t)), mk,
          [EvWriteFile (resolvedCacheFile N o)
             (stringifyCache N (translationCache t))], [].
        cbn [fst snd].
        split; [by rewrite Hev, Hw2, <- !app_assoc, app_nil_r|].
        split; [done|]. split; [done|]. split; [by left|]. by right.
    + exists (det ++ batchEvents H lang sourceLang o (batches t)), mk, [], [].
      cbn [fst snd].
      split; [by rewrite Hev, Hw2, <- !app_assoc, !app_nil_r|].
      split; [done|]. split; [done|]. split; [by left|]. by left.
  - destruct (rebuildDocument _ _ _ _) as [translatedJson| |].
    + destruct (writeOutput_events N H o lang output sourceJson
                  (finishOutput N H translator o sourceLang lang
                     (length (flattenObjectWithPaths sourceJson)) inputFile
                     translatedJson) w2) as (out & Hout & Hshape).
      exists (det ++ batchEvents H lang sourceLang o (batches t)), [], [], out.
      split; [by rewrite Hout, Hw2, <- !app_assoc|].
      split; [done|]. split; [by left|]. by split.
    + exists (det ++ batchEvents H lang sourceLang o (batches t)), [], [], [].
      cbn [fst snd]. split; [by rewrite Hw2, <- !app_assoc, !app_nil_r|].
      split; [done|]. split; [by left|]. split; [by left|]. done.
    + exists (det ++ batchEvents H lang sourceLang o (batches t)), [], [], [].
      cbn [fst snd]. split; [by rewrite Hw2, <- !app_assoc, !app_nil_r|].
      split; [done|]. split; [by left|]. split; [by left|]. done.
Qed.

Lemma writeOne_events N H translator o lang sourceLang table w entry :
  ∃ out, events (writeOne N H translator o lang sourceLang table w entry).2
         = events w ++ out
         ∧ ∀ e, e ∈ out → isMultiOutput N o [entry] e.
Proof.
  destruct entry as [filePath fileData]. unfold writeOne.
  destruct (rebuildDocument _ _ _ _) as [translatedJson| |];
    try (exists []; split; [by rewrite app_nil_r|by intros e ?%elem_of_nil]).
  destruct (stdout o) eqn:Hstd.
  - eexists [_; _]. split; [cbn; by rewrite <- app_assoc|].
    intros e He. repeat (apply elem_of_cons in He as [->|He]; [exact Hstd|]).
    by apply elem_of_nil in He.
  - assert (Hentry : (filePath, fileData) ∈ [(filePath, fileData)])
      by apply list_elem_of_here.
    destruct (fs_mkdir w _) as [w'|] eqn:Hm.
    + apply fs_mkdir_events in Hm.
      destruct (fs_writeFile w' _ _) as [w''|] eqn:Hw.
      * apply fs_writeFile_same in Hw as [_ He].
        eexists [_; _]. split; [cbn [snd]; by rewrite He, Hm, <- app_assoc|].
        intros e Hin.
        apply elem_of_cons in Hin as [->|Hin];
          [split; [done|]; by eexists|].
        apply elem_of_cons in Hin as [->|Hin];
          [split; [done|]; by eexists|].
        by apply elem_of_nil in Hin.
      * eexists [_]. split; [cbn [snd]; exact Hm|].
        intros e ->%list_elem_of_singleton. split; [done|]. by eexists.
    + exists []. split; [by rewrite app_nil_r|by intros e ?%elem_of_nil].
Qed.

Lemma isMultiOutput_mono N o fdm fdm' e :
  (∀ entry, entry ∈ fdm → entry ∈ fdm') →
  isMultiOutput N o fdm e → isMultiOutput N o fdm' e.
Proof.
  intros Hsub. destruct e; cbn; try done.
  - intros [? (entry & Hin & ->)]. split; [done|]. exists entry. by auto.
  - intros [? (entry & Hin & ->)]. split; [done|]. exists entry. by auto.
Qed.

Lemma writeEach_events N H translator o lang sourceLang table fdm :
  ∀ w, ∃ out,
    events (writeEach N H translator o lang sourceLang table fdm w).2
    = events w ++ out
    ∧ ∀ e, e ∈ out → isMultiOutput N o fdm e.
Proof.
  induction fdm as [|entry fdm IH]; intros w; cbn [writeEach].
  - exists []. split; [by rewrite app_nil_r|by intros e ?%elem_of_nil].
  - destruct (writeOne_events N H translator o lang sourceLang table w entry)
      as (out1 & Hev1 & Hout1).
    assert (Hone : ∀ e, e ∈ out1 → isMultiOutput N o (entry :: fdm) e).
    { intros e He. apply (isMultiOutput_mono N o [entry]); [|by apply Hout1].
      intros x ->%list_elem_of_singleton. apply list_elem_of_here. }
    destruct (writeOne _ _ _ _ _ _ _ w entry) as [[] w'];
      cbn [snd] in Hev1.
    + destruct (IH w') as (out2 & Hev2 & Hout2).
      exists (out1 ++ out2). split; [by rewrite Hev2, Hev1, <- app_assoc|].
      intros e [?|?]%elem_of_app; [by apply Hone|].
      apply (isMultiOutput_mono N o fdm); [|by apply Hout2].
      intros x ?. by apply list_elem_of_further.
    + by exists out1.
Qed.

(** A multi-file run that is not a dry run: calls of the backend, then
    the save of the cache when there is one to save, then the outputs. *)
Lemma processMultipleFiles_shape N H inputPatterns lang outputPattern o
    translator w :
  collectFiles N w inputPatterns ≠ [] →
  dryRun o = false →
  let fileDataMap :=
    (readAll N o lang outputPattern w (collectFiles N w inputPatterns)).1.1 in
  let t := multiRunState N H inputPatterns lang outputPattern o translator w in
  let run :=
    processMultipleFiles N H inputPatterns lang outputPattern o translator w in
  let p := resolvedCacheFile N o in
  ∃ before mk sv out,
    events run.2 = events w ++ before ++ mk ++ sv ++ out
    ∧ (∀ e, e ∈ before → isBackendCall e)
    ∧ (mk = [] ∨ mk = [EvMkdir (path_dirname N p)])
    ∧ (∀ e, e ∈ out → isMultiOutput N o fileDataMap e)
    ∧ match cacheToSave t with
      | Some cache =>
          (sv = [] ∧ out = [] ∧ run.1 = Exited 1)
          ∨ sv = [EvWriteFile p (stringifyCache N cache)]
      | None => mk = [] ∧ sv = []
      end.
Proof.
  intros Hfiles Hdry fileDataMap t run p. subst fileDataMap t run p.
  unfold multiRunState, processMultipleFiles.
  rewrite decide_False by by destruct (collectFiles N w inputPatterns).
  destruct (readAll N o lang outputPattern w (collectFiles N w inputPatterns))
    as [[fdm gsm] total]. cbn [fst snd].
  destruct (detect_events translator o (map fst gsm) (take 10 (map fst gsm)) w)
    as (det & Hdet & Hdetb).
  destruct (detectLanguageStep translator o _ _ w) as [sourceLang w1].
  rewrite Hdry. cbn [fst snd] in *.
  set (t := translateMultiple _ _ _ _ _ _ _).
  set (w2 := emitAll _ w1).
  assert (Hw2 : events w2
                = events w ++ det
                  ++ batchEvents H lang sourceLang o (batchesAll t)).
  { subst w2. unfold emitAll. cbn [events]. by rewrite Hdet, <- app_assoc. }
  assert (Hbefore : ∀ e,
            e ∈ det ++ batchEvents H lang sourceLang o (batchesAll t)
            → isBackendCall e).
  { intros e [?|?]%elem_of_app; [by apply Hdetb|by eapply batchEvents_backend]. }
  assert (Hrest : ∀ w3, ∃ out,
            events
              (match writeEach N H translator o lang sourceLang
                       (globalTranslations t) fdm w3 with
               | (false, w4) => (Exited 1, w4)
               | (true, w4) =>
                   if checkKeys o && negb (stdout o)
                   then match verifyKeys N H w4 fdm with
                        | Some true => (Returned, w4)
                        | _ => (Exited 1, w4)
                        end
                   else (Returned, w4)
               end).2 = events w3 ++ out
            ∧ ∀ e, e ∈ out → isMultiOutput N o fdm e).
  { intros w3.
    destruct (writeEach_events N H translator o lang sourceLang
                (globalTranslations t) fdm w3) as (out & Hev & Hout).
    exists out. split; [|done].
    destruct (writeEach _ _ _ _ _ _ _ fdm w3) as [[] w4]; [|done].
    destruct (checkKeys o && negb (stdout o)); [|done].
    by destruct (verifyKeys N H w4 fdm) as [[]|]. }
  destruct (cacheToSave t) as [cache|].
  - destruct (saveCache_events N cache w2 (resolvedCacheFile N o))
      as (mk & Hmk & Hev).
    destruct (saveCache N cache w2 (resolvedCacheFile N o)) as [saved w3].
    cbn [fst snd] in Hev. destruct saved.
    + destruct (Hrest w3) as (out & Hout & Hshape).
      exists (det ++ batchEvents H lang sourceLang o (batchesAll t)), mk,
        [EvWriteFile (resolvedCacheFile N o) (stringifyCache N cache)], out.
      split; [by rewrite Hout, Hev, Hw2, <- !app_assoc|].
      split; [done|]. split; [done|]. split; [done|]. by right.
    + exists (det ++ batchEvents H lang sourceLang o (batchesAll t)), mk, [], [].
      cbn [fst snd].
      split; [by rewrite Hev, Hw2, <- !app_assoc, !app_nil_r|].
      split; [done|]. split; [done|].
      split; [by intros e ?%elem_of_nil|]. by left.
  - destruct (Hrest w2) as (out & Hout & Hshape).
    exists (det ++ batchEvents H lang sourceLang o (batchesAll t)), [], [], out.
    split; [by rewrite Hout, Hw2, <- !app_assoc|].
    split; [done|]. split; [by left|]. by split.
Qed.

End RunShape.
(** ** Persisting the cache *)

Module Persist.
Import JsString Json Reconstruct Batch Provider Store Pipeline JsColl Observe.
Import JsCollFacts StoreFacts PipelineFacts MultiFileFacts RunShape Demo.

Lemma loadCache_interrupted N w p data n :
  loadCache N (interruptedWrite w p data n) p
  = default ∅ (parseCache N (String.substring 0 n data)).
Proof.
  unfold loadCache, interruptedWrite, fs_access, fs_readFile. cbn [files].
  rewrite lookup_insert_eq.
  rewrite bool_decide_eq_true_2 by by eexists.
  by destruct (parseCache N _).
Qed.

Lemma cacheToSave_updated H translator o lang sourceLang loaded gsm cache :
  cacheToSave (translateMultiple H translator o lang sourceLang loaded gsm)
  = Some cache →
  cache
  = updateCache H lang
      (globalTranslations
         (translateMultiple H translator o lang sourceLang loaded gsm))
      gsm loaded.
Proof.
  unfold translateMultiple. destruct (useCache o); cbn [andb].
  - destruct (checkCache H loaded lang gsm) as [cached todo].
    cbn [cacheToSave globalTranslations].
    case_bool_decide; [|done]. by intros [= <-].
  - by cbn [cacheToSave].
Qed.

(** C7, as amended.  The save is one [fs.writeFile] of the whole
    serialised cache straight onto the cache file, after at most one
    [mkdir] of its directory: there is no temporary file and no replace
    step, and after a write that was interrupted the next load sees only
    what the prefix that was written parses to.  In a single-file run that
    recorded or pruned, and in a multi-file run that has a cache to save,
    the run first calls the backend, then saves the cache as the record
    and prune steps left it, and after the save it does nothing but
    produce its output; when the save fails the run exits with code 1 and
    has written nothing. *)
Theorem persist_is_last_and_in_place (N : Node) (H : Helpers) (lang : string)
    (o : Options) (translator : TranslationProvider) (w : World) :
  dryRun o = false →
  let p := resolvedCacheFile N o in
  (∀ cache w0,
     let saved := saveCache N cache w0 p in
     (∃ mk, (mk = [] ∨ mk = [EvMkdir (path_dirname N p)])
            ∧ events saved.2
              = events w0 ++ mk
                ++ (if saved.1 then [EvWriteFile p (stringifyCache N cache)]
                    else []))
     ∧ (saved.1 = true →
        fs_readFile saved.2 p = Some (stringifyCache N cache)))
  ∧ (∀ cache w0 n,
       loadCache N (interruptedWrite w0 p (stringifyCache N cache) n) p
       = default ∅
           (parseCache N (String.substring 0 n (stringifyCache N cache))))
  ∧ (∀ inputFile output sourceJson,
       fs_readFile w (path_resolve N inputFile) ≫= JSON_parse N
       = Some sourceJson →
       let t := singleRunState N H inputFile lang o translator w sourceJson in
       let run := processSingleFile N H inputFile lang output o translator w in
       useCache o = true →
       0 < successfullyTranslatedCount t ∨ 0 < prunedCount t →
       ∃ before mk after,
         events run.2 = events w ++ before ++ mk ++ after
         ∧ (∀ e, e ∈ before → isBackendCall e)
         ∧ (mk = [] ∨ mk = [EvMkdir (path_dirname N p)])
         ∧ ((after = [] ∧ run.1 = Exited 1)
            ∨ ∃ out,
                after
                = EvWriteFile p (stringifyCache N (translationCache t)) :: out
                ∧ (out = []
                   ∨ ∃ e, out = [e] ∧ isSingleOutput N o lang output e)))
  ∧ (∀ inputPatterns outputPattern cache,
       collectFiles N w inputPatterns ≠ [] →
       let read :=
         readAll N o lang outputPattern w (collectFiles N w inputPatterns) in
       let t :=
         multiRunState N H inputPatterns lang outputPattern o translator w in
       let run :=
         processMultipleFiles N H inputPatterns lang outputPattern o
           translator w in
       cacheToSave t = Some cache →
       cache = updateCache H lang (globalTranslations t) read.1.2
                 (loadCache N w p)
       ∧ ∃ before mk after,
           events run.2 = events w ++ before ++ mk ++ after
           ∧ (∀ e, e ∈ before → isBackendCall e)
           ∧ (mk = [] ∨ mk = [EvMkdir (path_dirname N p)])
           ∧ ((after = [] ∧ run.1 = Exited 1)
              ∨ ∃ out,
                  after = EvWriteFile p (stringifyCache N cache) :: out
                  ∧ ∀ e, e ∈ out → isMultiOutput N o read.1.1 e)).
Proof.
  intros Hdry p. split; [|split; [|split]].
  - intros cache w0 saved. split; [apply saveCache_events|].
    subst saved. intros Hok.
    destruct (saveCache N cache w0 p) as [ok w'] eqn:Hsave.
    cbn [fst snd] in *. subst ok. by apply saveCache_resolved in Hsave as [? _].
  - intros cache w0 n. apply loadCache_interrupted.
  - intros inputFile output sourceJson Hsrc t run Hcache Hmod.
    destruct (processSingleFile_shape N H inputFile lang output o translator w
                sourceJson Hsrc Hdry)
      as (before & mk & sv & out & Hev & Hbefore & Hmk & Hout & Hsave).
    fold t run p in Hev, Hsave.
    rewrite Hcache in Hsave.
    replace (bool_decide (0 < successfullyTranslatedCount t)
             || bool_decide (0 < prunedCount t)) with true in Hsave.
    2:{ symmetry. destruct Hmod as [Hc|Hp].
        - by rewrite (bool_decide_eq_true_2 _ Hc).
        - rewrite (bool_decide_eq_true_2 _ Hp). apply orb_true_r. }
    cbn [andb] in Hsave.
    exists before, mk, (sv ++ out). split; [done|]. split; [done|].
    split; [done|].
    destruct Hsave as [(-> & -> & Hexit)| ->]; [by left|].
    right. by exists out.
  - intros inputPatterns outputPattern cache Hfiles read t run Hsome.
    split.
    { subst t read. unfold multiRunState in *.
      apply cacheToSave_updated in Hsome. rewrite Hsome. f_equal.
      apply loadCache_files. apply detectLanguageStep_world. }
    destruct (processMultipleFiles_shape N H inputPatterns lang outputPattern o
                translator w Hfiles Hdry)
      as (before & mk & sv & out & Hev & Hbefore & Hmk & Hout & Hsave).
    fold t run p read in Hev, Hsave, Hout. rewrite Hsome in Hsave.
    exists before, mk, (sv ++ out). split; [done|]. split; [done|].
    split; [done|].
    destruct Hsave as [(-> & -> & Hexit)| ->]; [by left|].
    right. by exists out.
Qed.

(** The first run over [/i18n/a.json] with an empty cache: the cache file
    is written, and then the output. *)
Lemma persist_is_last_and_in_place_witness :
  let t :=
    singleRunState demoNode demoHelpers "/i18n/a.json" "es" (demoOptions true)
      goodBackend (demoWorld None) docA in
  let run :=
    processSingleFile demoNode demoHelpers "/i18n/a.json" "es"
      (Some "/out/a.{lang}.json") (demoOptions true) goodBackend
      (demoWorld None) in
  ∃ before out,
    events run.2
    = before
      ++ EvWriteFile "/cache.json"
           (demoStringifyCache (translationCache t)) :: out
    ∧ length out ≤ 1.
Proof.
  intros t run.
  destruct (persist_is_last_and_in_place demoNode demoHelpers "es"
              (demoOptions true) goodBackend (demoWorld None) eq_refl)
    as (_ & _ & Hsingle & _).
  destruct (Hsingle "/i18n/a.json" (Some "/out/a.{lang}.json") docA)
    as (before & mk & after & Hev & Hbefore & Hmk & Hafter).
  - vm_compute. reflexivity.
  - reflexivity.
  - left. apply (bool_decide_unpack _). vm_compute. exact I.
  - fold t run in Hev, Hafter.
    destruct Hafter as [[_ Hexit]|(out & -> & Hout)];
      [vm_compute in Hexit; discriminate|].
    exists (before ++ mk), out. split.
    + rewrite Hev. cbn [events demoWorld app]. by rewrite <- app_assoc.
    + destruct Hout as [->|(e & -> & _)]; cbn; lia.
Defined.

End Persist.

(** ** The file operations of a single-file run *)

Module FileOperations.
Import JsString Json Reconstruct Batch Provider Store Pipeline JsColl Observe.
Import JsCollFacts StoreFacts PipelineFacts RunShape.

(** X15.  Whatever its input, a single-file run does to the outside, after
    its calls of the backend, at most three things and in this order: a
    [mkdir] of the directory of the cache file and a write of the cache
    file, both only with the cache enabled, and one output, which is a
    print or a write of the output path.  A dry run does none of them. *)
Theorem single_file_run_file_operations (N : Node) (H : Helpers)
    (inputFile lang : string) (output : option string) (o : Options)
    (translator : TranslationProvider) (w : World) :
  let run := processSingleFile N H inputFile lang output o translator w in
  let p := resolvedCacheFile N o in
  ∃ before mk sv out,
    events run.2 = events w ++ before ++ mk ++ sv ++ out
    ∧ (∀ e, e ∈ before → isBackendCall e)
    ∧ (mk = []
       ∨ (useCache o = true ∧ dryRun o = false
          ∧ mk = [EvMkdir (path_dirname N p)]))
    ∧ (sv = []
       ∨ (useCache o = true ∧ dryRun o = false
          ∧ ∃ data, sv = [EvWriteFile p data]))
    ∧ (out = []
       ∨ (dryRun o = false
          ∧ ∃ e, out = [e] ∧ isSingleOutput N o lang output e)).
Proof.
  intros run p.
  destruct (fs_readFile w (path_resolve N inputFile) ≫= JSON_parse N)
    as [sourceJson|] eqn:Hsrc.
  2:{ exists [], [], [], []. subst run. unfold processSingleFile.
      rewrite Hsrc. cbn [snd]. rewrite !app_nil_r.
      split; [done|]. split; [by intros e ?%elem_of_nil|].
      split; [by left|]. split; by left. }
  destruct (dryRun o) eqn:Hdry.
  - destruct (dry_run_single_is_read_only N H inputFile lang output o
                translator w Hdry) as (_ & (es & Hev & Hes) & _).
    exists es, [], [], []. rewrite !app_nil_r. split; [exact Hev|].
    split; [|split; [by left|split; by left]].
    intros e He. by destruct (Hes e He) as [sample ->].
  - destruct (processSingleFile_shape N H inputFile lang output o translator w
                sourceJson Hsrc Hdry)
      as (before & mk & sv & out & Hev & Hbefore & Hmk & Hout & Hsave).
    exists before, mk, sv, out. split; [exact Hev|]. split; [exact Hbefore|].
    destruct (useCache o) eqn:Hcache; cbn [andb] in Hsave.
    + split; [destruct Hmk as [->| ->]; [by left|by right]|].
      split; [|destruct Hout as [->|?]; [by left|by right]].
      destruct (bool_decide _ || bool_decide _).
      * destruct Hsave as [(-> & _)| ->]; [by left|].
        right. split; [done|]. split; [done|]. by eexists.
      * destruct Hsave as [_ ->]. by left.
    + destruct Hsave as [-> ->]. split; [by left|]. split; [by left|].
      destruct Hout as [->|?]; [by left|by right].
Qed.

End FileOperations.
(** ** A cache that cannot be loaded *)

Module CacheLoad.
Import JsString Json Reconstruct Batch Provider Store Pipeline JsColl Observe.
Import JsCollFacts BatchFacts StoreFacts PipelineFacts MultiFileFacts RunShape.
Import Demo.

Lemma compareWithCache_nothing_cached H file lang strs :
  NoDup strs →
  compareWithCache H (langCacheOf ∅ file lang) strs = (∅, strs).
Proof.
  intros Hnd. unfold compareWithCache.
  rewrite langCacheOf_empty, compareWithCache_empty.
  by rewrite foldl_set_add_fresh.
Qed.

Lemma checkCache_nothing_cached H lang gsm :
  NoDup (map fst gsm) → checkCache H ∅ lang gsm = (∅, map fst gsm).
Proof.
  intros Hnd. unfold checkCache.
  rewrite checkCache_empty. by rewrite foldl_set_add_fresh.
Qed.

(** The table and the count of the merge do not depend on the cache. *)
Lemma mergeOne_table H o o' file lang pairs :
  ∀ st st',
    st.1.1 = st'.1.1 → st.2 = st'.2 →
    (foldl (mergeOne H o file lang) st pairs).1.1
    = (foldl (mergeOne H o' file lang) st' pairs).1.1
    ∧ (foldl (mergeOne H o file lang) st pairs).2
      = (foldl (mergeOne H o' file lang) st' pairs).2.
Proof.
  induction pairs as [|[original translated] pairs IH];
    intros [[table cache] count] [[table' cache'] count'] Ht Hc;
    cbn [foldl]; [done|].
  cbn [fst snd] in Ht, Hc. subst table' count'.
  apply IH; done.
Qed.

Lemma mergeBatches_table H o o' file lang results :
  ∀ st st',
    st.1.1 = st'.1.1 → st.2 = st'.2 →
    (mergeBatches H o file lang st results).1.1
    = (mergeBatches H o' file lang st' results).1.1
    ∧ (mergeBatches H o file lang st results).2
      = (mergeBatches H o' file lang st' results).2.
Proof.
  unfold mergeBatches.
  induction results as [|batchMap results IH]; intros st st' Ht Hc;
    cbn [foldl]; [done|].
  destruct (mergeOne_table H o o' file lang batchMap st st' Ht Hc).
  by apply IH.
Qed.

(** With nothing loaded, the cached run translates what the run without
    a cache translates, and ends with the same table. *)
Lemma translateSingle_nothing_loaded H translator o file lang sourceLang
    loaded' all :
  useCache o = true → NoDup all →
  let t := translateSingle H translator o file lang sourceLang ∅ all in
  let u :=
    translateSingle H translator (withoutCache o) file lang sourceLang loaded'
      all in
  stringsToTranslateAPI t = all
  ∧ batches t = singleFileBatches all
  ∧ batches u = singleFileBatches all
  ∧ translations u = translations t
  ∧ successfullyTranslatedCount u = successfullyTranslatedCount t.
Proof.
  intros Hcache Hnd t u. subst t u. unfold translateSingle.
  cbn [useCache withoutCache]. rewrite Hcache.
  rewrite compareWithCache_nothing_cached by done.
  change (runBatches H translator lang sourceLang (withoutCache o))
    with (runBatches H translator lang sourceLang o).
  destruct (mergeBatches_table H o (withoutCache o) file lang
              (runBatches H translator lang sourceLang o
                 (singleFileBatches all))
              (∅, ∅, 0) (∅, ∅, 0) eq_refl eq_refl) as [Htable Hcount].
  destruct (mergeBatches H o file lang _ _) as [[merged cache1] count].
  destruct (mergeBatches H (withoutCache o) file lang _ _)
    as [[merged' cache1'] count'].
  cbn [fst snd] in Htable, Hcount. subst merged' count'.
  by destruct (pruneCache cache1 file lang _) as [cache2 pruned].
Qed.

(** The output step does not depend on what a file that is no directory
    holds at the cache path. *)
Lemma writeOutput_after_save N H o lang output sourceJson outputJson w w'
    p data :
  files w !! p ≠ Some Directory →
  files w' = <[p := Readable data]> (files w) →
  (writeOutput N H o lang output sourceJson outputJson w').1
  = (writeOutput N H (withoutCache o) lang output sourceJson outputJson w).1
  ∧ ∃ out,
      events (writeOutput N H o lang output sourceJson outputJson w').2
      = events w' ++ out
      ∧ events
          (writeOutput N H (withoutCache o) lang output sourceJson outputJson
             w).2
        = events w ++ out.
Proof.
  intros Hnodir Hfiles. unfold writeOutput. cbn [stdout checkKeys withoutCache].
  destruct (stdout o).
  - cbn [emit events fst snd].
    destruct (checkKeys o && _); (split; [done|]); by eexists.
  - destruct output as [pattern|].
    + unfold fs_writeFile. rewrite Hfiles.
      destruct (decide (replaceToken N "lang" lang pattern = p)) as [->|Hne].
      * rewrite lookup_insert_eq.
        destruct (files w !! p) as [[]|] eqn:Hp; try done;
          destruct (checkKeys o && _); (split; [done|]); by eexists.
      * rewrite lookup_insert_ne by done.
        destruct (files w !! replaceToken N "lang" lang pattern) as [[]|];
          try (destruct (checkKeys o && _); (split; [done|]); by eexists).
        split; [done|]. exists []. by rewrite !app_nil_r.
    + destruct (checkKeys o && _); (split; [done|]); exists [];
        by rewrite !app_nil_r.
Qed.

Section SingleFile.
Context (N : Node) (H : Helpers) (inputFile lang : string)
  (output : option string) (o : Options) (translator : TranslationProvider)
  (w : World) (sourceJson : JsonValue).
Context (Hsrc : fs_readFile w (path_resolve N inputFile) ≫= JSON_parse N
                = Some sourceJson).
Context (Hdry : dryRun o = false) (Hcache : useCache o = true).
Context (Hload : loadCache N w (resolvedCacheFile N o) = ∅).

Local Abbreviation all :=
  (allSourceStringsOf (flattenObjectWithPaths sourceJson)).
Local Abbreviation run :=
  (processSingleFile N H inputFile lang output o translator w).
Local Abbreviation plain :=
  (processSingleFile N H inputFile lang output (withoutCache o) translator w).
Local Abbreviation t :=
  (singleRunState N H inputFile lang o translator w sourceJson).

Lemma single_state_nothing_loaded :
  stringsToTranslateAPI t = all ∧ batches t = singleFileBatches all.
Proof.
  unfold singleRunState.
  rewrite (loadCache_files N w) by apply detectLanguageStep_world.
  rewrite Hload.
  destruct (translateSingle_nothing_loaded H translator o
              (path_resolve N inputFile) lang
              (detectLanguageStep translator o all all w).1 ∅ all Hcache
              (NoDup_set_of _)) as (Htodo & Hbs & _).
  by split.
Qed.

(** Where the cache can be saved, the run is the run without a cache
    with the save put in. *)
Lemma single_run_as_without_cache :
  files w !! resolvedCacheFile N o ≠ Some Directory →
  fs_access w (path_dirname N (resolvedCacheFile N o)) = true →
  run.1 = plain.1
  ∧ ∃ before after,
      events plain.2 = events w ++ before ++ after
      ∧ events run.2
        = events w ++ before
          ++ (if bool_decide (0 < successfullyTranslatedCount t)
                 || bool_decide (0 < prunedCount t)
              then [EvWriteFile (resolvedCacheFile N o)
                      (stringifyCache N (translationCache t))]
              else [])
          ++ after.
Proof.
  intros Hnodir Hdir.
  unfold singleRunState, processSingleFile. rewrite Hsrc. cbn zeta.
  change (detectLanguageStep translator (withoutCache o))
    with (detectLanguageStep translator o).
  pose proof (detectLanguageStep_world translator o all all w)
    as (Hfiles & det & Hdet & _).
  destruct (detectLanguageStep translator o all all w) as [sourceLang w1].
  cbn [dryRun withoutCache fst snd] in *. rewrite Hdry.
  rewrite (loadCache_files N w w1 _ Hfiles), Hload.
  destruct (translateSingle_nothing_loaded H translator o
              (path_resolve N inputFile) lang sourceLang
              (loadCache N w1 (resolvedCacheFile N (withoutCache o))) all
              Hcache (NoDup_set_of _)) as (_ & Hbs & Hbs' & Htable & Hcount).
  set (t := translateSingle H translator o _ _ _ ∅ _) in *.
  set (u := translateSingle H translator (withoutCache o) _ _ _ _ _) in *.
  cbn [useCache withoutCache andb]. rewrite Hcache. cbn [andb].
  change (batchEvents H lang sourceLang (withoutCache o))
    with (batchEvents H lang sourceLang o).
  rewrite Hbs', Htable, <- Hbs.
  change (finishOutput N H translator (withoutCache o))
    with (finishOutput N H translator o).
  set (w2 := emitAll _ w1).
  assert (Hw2 : events w2
                = events w
                  ++ (det ++ batchEvents H lang sourceLang o (batches t))).
  { subst w2. unfold emitAll. cbn [events]. by rewrite Hdet, <- app_assoc. }
  assert (Hf2 : files w2 = files w) by (by subst w2).
  destruct (bool_decide (0 < successfullyTranslatedCount t)
            || bool_decide (0 < prunedCount t)).
  - rewrite (saveCache_ok N (translationCache t) w2 (resolvedCacheFile N o))
      by by rewrite ?Hf2; unfold fs_access in *; rewrite ?Hf2.
    set (w3 := {| files := _; events := _ |}).
    assert (Hnodir2 : files w2 !! resolvedCacheFile N o ≠ Some Directory)
      by by rewrite Hf2.
    destruct (rebuildDocument _ _ _ _) as [translatedJson| |].
    + destruct (writeOutput_after_save N H o lang output sourceJson
                  (finishOutput N H translator o sourceLang lang
                     (length (flattenObjectWithPaths sourceJson)) inputFile
                     translatedJson) w2 w3 (resolvedCacheFile N o)
                  (stringifyCache N (translationCache t)) Hnodir2 eq_refl)
        as (Hsame & out & Hrun & Hplain).
      split; [exact Hsame|].
      exists (det ++ batchEvents H lang sourceLang o (batches t)), out.
      rewrite Hrun, Hplain. subst w3. cbn [events]. rewrite Hw2.
      split; by rewrite <- ?app_assoc.
    + split; [done|].
      exists (det ++ batchEvents H lang sourceLang o (batches t)), [].
      subst w3. cbn [fst snd events]. rewrite Hw2.
      split; by rewrite <- ?app_assoc, ?app_nil_r.
    + split; [done|].
      exists (det ++ batchEvents H lang sourceLang o (batches t)), [].
      subst w3. cbn [fst snd events]. rewrite Hw2.
      split; by rewrite <- ?app_assoc, ?app_nil_r.
  - destruct (rebuildDocument _ _ _ _) as [translatedJson| |].
    + change (writeOutput N H (withoutCache o)) with (writeOutput N H o).
      split; [done|].
      destruct (writeOutput_events N H o lang output sourceJson
                  (finishOutput N H translator o sourceLang lang
                     (length (flattenObjectWithPaths sourceJson)) inputFile
                     translatedJson) w2) as (out & Hout & _).
      exists (det ++ batchEvents H lang sourceLang o (batches t)), out.
      rewrite Hout, Hw2. split; by rewrite <- ?app_assoc.
    + split; [done|].
      exists (det ++ batchEvents H lang sourceLang o (batches t)), [].
      cbn [fst snd]. rewrite Hw2. split; by rewrite <- ?app_assoc, ?app_nil_r.
    + split; [done|].
      exists (det ++ batchEvents H lang sourceLang o (batches t)), [].
      cbn [fst snd]. rewrite Hw2. split; by rewrite <- ?app_assoc, ?app_nil_r.
Qed.

(** With a directory in the place of the cache file, a run that has
    something to save stops at the save. *)
Lemma single_run_directory :
  files w !! resolvedCacheFile N o = Some Directory →
  0 < successfullyTranslatedCount t →
  run.1 = Exited 1
  ∧ ∃ before mk,
      events run.2 = events w ++ before ++ mk
      ∧ (∀ e, e ∈ before → isBackendCall e)
      ∧ (mk = [] ∨ mk = [EvMkdir (path_dirname N (resolvedCacheFile N o))]).
Proof.
  intros Hisdir. unfold singleRunState, processSingleFile.
  rewrite Hsrc. cbn zeta.
  pose proof (detectLanguageStep_world translator o all all w) as [Hfiles _].
  destruct (detect_events translator o all all w) as (det & Hdet & Hdetb).
  destruct (detectLanguageStep translator o all all w) as [sourceLang w1].
  rewrite Hdry, Hcache. cbn [fst snd andb] in *.
  set (t := translateSingle _ _ _ _ _ _ _ _).
  intros Hcount. rewrite (bool_decide_eq_true_2 _ Hcount). cbn [orb].
  set (w2 := emitAll _ w1).
  destruct (saveCache_events N (translationCache t) w2 (resolvedCacheFile N o))
    as (mk & Hmk & Hev).
  pose proof (saveCache_directory N (translationCache t) w2
                (resolvedCacheFile N o)) as Hfail.
  destruct (saveCache N (translationCache t) w2 (resolvedCacheFile N o))
    as [saved w3].
  cbn [fst snd] in Hfail, Hev.
  rewrite Hfail in * by (subst w2; cbn [emitAll files]; by rewrite Hfiles).
  split; [done|].
  exists (det ++ batchEvents H lang sourceLang o (batches t)), mk.
  cbn [snd]. rewrite Hev, app_nil_r. subst w2. cbn [emitAll events].
  rewrite Hdet. split; [by rewrite <- !app_assoc|]. split; [|done].
  intros e [?|?]%elem_of_app; [by apply Hdetb|by eapply batchEvents_backend].
Qed.

End SingleFile.

(** *** The multi-file run *)

Lemma translateMultiple_nothing_loaded H translator o lang sourceLang loaded'
    gsm :
  useCache o = true → NoDup (map fst gsm) →
  let t := translateMultiple H translator o lang sourceLang ∅ gsm in
  let u :=
    translateMultiple H translator (withoutCache o) lang sourceLang loaded'
      gsm in
  stringsToTranslate t = map fst gsm
  ∧ batchesAll t = multiFileBatches (map fst gsm)
  ∧ batchesAll u = multiFileBatches (map fst gsm)
  ∧ globalTranslations u = globalTranslations t
  ∧ cacheToSave u = None
  ∧ (gsm ≠ [] → is_Some (cacheToSave t)).
Proof.
  intros Hcache Hnd t u. subst t u. unfold translateMultiple.
  cbn [useCache withoutCache andb]. rewrite Hcache.
  rewrite checkCache_nothing_cached by done.
  rewrite foldl_set_add_fresh by done.
  cbn [stringsToTranslate batchesAll globalTranslations cacheToSave andb app].
  repeat (split; [done|]).
  intros Hne. rewrite bool_decide_eq_true_2; [by eexists|].
  destruct gsm; [done|cbn; lia].
Qed.

Section Agree.
Context (p : string).

(** Two file systems that differ at [p] only are treated alike by a
    recursive [mkdir] that does not pass through [p]. *)
Lemma mkdirAll_agree dirs :
  ∀ fs fs',
    p ∉ dirs → (∀ q, q ≠ p → fs !! q = fs' !! q) →
    match mkdirAll dirs fs, mkdirAll dirs fs' with
    | Some r, Some r' => ∀ q, q ≠ p → r !! q = r' !! q
    | None, None => True
    | _, _ => False
    end.
Proof.
  induction dirs as [|dir dirs IH]; intros fs fs' Hp Hagree;
    cbn [mkdirAll]; [done|].
  apply not_elem_of_cons in Hp as [Hne Hp].
  rewrite <- (Hagree dir) by done.
  destruct (fs !! dir) as [[]|]; try done.
  - by apply IH.
  - apply IH; [done|]. intros q Hq.
    destruct (decide (q = dir)) as [->|Hqd].
    + by rewrite !lookup_insert_eq.
    + rewrite !lookup_insert_ne by done. by apply Hagree.
Qed.

Lemma writeOne_agree N H translator o lang sourceLang table entry w w' :
  (∀ q, q ≠ p → files w !! q = files w' !! q) →
  stdout o = true
  ∨ (outputPath entry.2 ≠ p
     ∧ p ∉ pathAncestors (path_dirname N (outputPath entry.2))) →
  let r := writeOne N H translator o lang sourceLang table w entry in
  let r' := writeOne N H translator o lang sourceLang table w' entry in
  r.1 = r'.1
  ∧ (∀ q, q ≠ p → files r.2 !! q = files r'.2 !! q)
  ∧ ∃ out, events r.2 = events w ++ out ∧ events r'.2 = events w' ++ out.
Proof.
  intros Hagree Hout. destruct entry as [filePath fileData]. cbn [snd] in Hout.
  unfold writeOne.
  destruct (rebuildDocument _ _ _ _) as [translatedJson| |];
    try (cbn [fst snd]; split; [done|]; split; [done|]; exists [];
         by rewrite !app_nil_r).
  destruct (stdout o) eqn:Hstd.
  { cbn [fst snd emit files events]. split; [done|]. split; [done|].
    eexists [_; _]. by rewrite <- !app_assoc. }
  destruct Hout as [?|[Hne Hanc]]; [done|].
  unfold fs_mkdir.
  pose proof (mkdirAll_agree
                (pathAncestors (path_dirname N (outputPath fileData)))
                (files w) (files w') Hanc Hagree) as Hmk.
  destruct (mkdirAll _ (files w)) as [fs1|],
    (mkdirAll _ (files w')) as [fs1'|]; try done.
  2:{ cbn [fst snd]. split; [done|]. split; [done|]. exists [].
      by rewrite !app_nil_r. }
  unfold fs_writeFile. cbn [files events].
  rewrite <- (Hmk (outputPath fileData)) by done.
  destruct (fs1 !! outputPath fileData) as [[]|];
    cbn [fst snd files events].
  1,2,4: split; [done|]; split;
    [intros q Hq; destruct (decide (q = outputPath fileData)) as [->|Hqo];
       [by rewrite !lookup_insert_eq
       |rewrite !lookup_insert_ne by done; by apply Hmk]
    |eexists [_; _]; by rewrite <- !app_assoc].
  split; [done|]. split; [done|]. by eexists [_].
Qed.

Lemma writeEach_agree N H translator o lang sourceLang table fdm :
  ∀ w w',
    (∀ q, q ≠ p → files w !! q = files w' !! q) →
    stdout o = true
    ∨ (∀ entry, entry ∈ fdm →
         outputPath entry.2 ≠ p
         ∧ p ∉ pathAncestors (path_dirname N (outputPath entry.2))) →
    let r := writeEach N H translator o lang sourceLang table fdm w in
    let r' := writeEach N H translator o lang sourceLang table fdm w' in
    r.1 = r'.1
    ∧ (∀ q, q ≠ p → files r.2 !! q = files r'.2 !! q)
    ∧ ∃ out, events r.2 = events w ++ out ∧ events r'.2 = events w' ++ out.
Proof.
  induction fdm as [|entry fdm IH]; intros w w' Hagree Hout; cbn [writeEach].
  { split; [done|]. split; [done|]. exists []. by rewrite !app_nil_r. }
  destruct (writeOne_agree N H translator o lang sourceLang table entry w w'
              Hagree) as (Hok & Hagree1 & out1 & Hev1 & Hev1').
  { destruct Hout as [?|Hout]; [by left|]. right.
    apply Hout, list_elem_of_here. }
  destruct (writeOne _ _ _ _ _ _ _ w entry) as [ok w1],
    (writeOne _ _ _ _ _ _ _ w' entry) as [ok' w1'].
  cbn [fst snd] in *. subst ok'. destruct ok.
  - destruct (IH w1 w1' Hagree1) as (Hok2 & Hagree2 & out2 & Hev2 & Hev2').
    { destruct Hout as [?|Hout]; [by left|]. right. intros e He.
      by apply Hout, list_elem_of_further. }
    split; [done|]. split; [done|]. exists (out1 ++ out2).
    by rewrite Hev2, Hev2', Hev1, Hev1', <- !app_assoc.
  - cbn [fst snd]. split; [done|]. split; [done|]. by exists out1.
Qed.

Lemma verifyKeys_agree N H fdm w w' :
  (∀ q, q ≠ p → files w !! q = files w' !! q) →
  (∀ entry, entry ∈ fdm → outputPath entry.2 ≠ p) →
  verifyKeys N H w fdm = verifyKeys N H w' fdm.
Proof.
  intros Hagree. unfold verifyKeys.
  induction fdm as [|[filePath fileData] fdm IH]; intros Hout; [done|].
  cbn [foldr]. rewrite IH.
  - unfold fs_readFile. rewrite (Hagree (outputPath fileData)); [done|].
    apply (Hout (filePath, fileData)), list_elem_of_here.
  - intros e He. by apply Hout, list_elem_of_further.
Qed.

End Agree.

Lemma writeEach_withoutCache N H translator o lang sourceLang table fdm :
  ∀ w,
    writeEach N H translator (withoutCache o) lang sourceLang table fdm w
    = writeEach N H translator o lang sourceLang table fdm w.
Proof.
  induction fdm as [|entry fdm IH]; intros w; [done|].
  cbn [writeEach].
  change (writeOne N H translator (withoutCache o))
    with (writeOne N H translator o).
  destruct (writeOne N H translator o lang sourceLang table w entry)
    as [[] w']; [apply IH|done].
Qed.

Section MultiFile.
Context (N : Node) (H : Helpers) (inputPatterns : list string) (lang : string)
  (outputPattern : option string) (o : Options)
  (translator : TranslationProvider) (w : World).
Context (Hfound : collectFiles N w inputPatterns ≠ []).
Context (Hdry : dryRun o = false) (Hcache : useCache o = true).
Context (Hload : loadCache N w (resolvedCacheFile N o) = ∅).

Local Abbreviation read :=
  (readAll N o lang outputPattern w (collectFiles N w inputPatterns)).
Local Abbreviation run :=
  (processMultipleFiles N H inputPatterns lang outputPattern o translator w).
Local Abbreviation plain :=
  (processMultipleFiles N H inputPatterns lang outputPattern (withoutCache o)
     translator w).
Local Abbreviation t :=
  (multiRunState N H inputPatterns lang outputPattern o translator w).

Lemma multi_state_nothing_loaded :
  stringsToTranslate t = map fst read.1.2
  ∧ batchesAll t = multiFileBatches (map fst read.1.2)
  ∧ (read.1.2 ≠ [] → is_Some (cacheToSave t)).
Proof.
  unfold multiRunState.
  rewrite (loadCache_files N w) by apply detectLanguageStep_world.
  rewrite Hload.
  destruct (translateMultiple_nothing_loaded H translator o lang
              (detectLanguageStep translator o (map fst read.1.2)
                 (take 10 (map fst read.1.2)) w).1 ∅ read.1.2 Hcache
              (readAll_keys N o lang outputPattern w _))
    as (Htodo & Hbs & _ & _ & _ & Hsave).
  by repeat split.
Qed.

Lemma multi_run_as_without_cache :
  files w !! resolvedCacheFile N o ≠ Some Directory →
  fs_access w (path_dirname N (resolvedCacheFile N o)) = true →
  stdout o = true
  ∨ (∀ entry, entry ∈ read.1.1 →
       outputPath entry.2 ≠ resolvedCacheFile N o
       ∧ resolvedCacheFile N o
         ∉ pathAncestors (path_dirname N (outputPath entry.2))) →
  run.1 = plain.1
  ∧ ∃ before after,
      events plain.2 = events w ++ before ++ after
      ∧ events run.2
        = events w ++ before
          ++ match cacheToSave t with
             | Some cache =>
                 [EvWriteFile (resolvedCacheFile N o) (stringifyCache N cache)]
             | None => []
             end
          ++ after.
Proof.
  intros Hnodir Hdir Hout. revert Hout.
  unfold multiRunState, processMultipleFiles.
  rewrite !decide_False by by destruct (collectFiles N w inputPatterns).
  change (readAll N (withoutCache o)) with (readAll N o).
  pose proof (readAll_keys N o lang outputPattern w
                (collectFiles N w inputPatterns)) as Hkeys.
  destruct read as [[fdm gsm] total]. cbn [fst snd] in *.
  change (detectLanguageStep translator (withoutCache o))
    with (detectLanguageStep translator o).
  pose proof (detectLanguageStep_world translator o (map fst gsm)
                (take 10 (map fst gsm)) w) as (Hfiles & det & Hdet & _).
  destruct (detectLanguageStep translator o _ _ w) as [sourceLang w1].
  cbn [dryRun withoutCache fst snd] in *. rewrite Hdry.
  rewrite (loadCache_files N w w1 _ Hfiles), Hload.
  destruct (translateMultiple_nothing_loaded H translator o lang sourceLang
              (loadCache N w1 (resolvedCacheFile N (withoutCache o))) gsm
              Hcache Hkeys) as (_ & Hbs & Hbs' & Htable & Hnone & _).
  set (t := translateMultiple H translator o _ _ ∅ _) in *.
  set (u := translateMultiple H translator (withoutCache o) _ _ _ _) in *.
  change (batchEvents H lang sourceLang (withoutCache o))
    with (batchEvents H lang sourceLang o).
  rewrite Hnone, Hbs', Htable, <- Hbs.
  cbn [checkKeys stdout withoutCache].
  set (w2 := emitAll _ w1).
  assert (Hw2 : events w2
                = events w
                  ++ (det ++ batchEvents H lang sourceLang o (batchesAll t))).
  { subst w2. unfold emitAll. cbn [events]. by rewrite Hdet, <- app_assoc. }
  assert (Hf2 : files w2 = files w) by (by subst w2).
  intros Hout.
  rewrite writeEach_withoutCache.
  assert (Hrest : ∀ w3 sv,
            (∀ q, q ≠ resolvedCacheFile N o → files w3 !! q = files w2 !! q) →
            events w3 = events w2 ++ sv →
            (match writeEach N H translator o lang sourceLang
                     (globalTranslations t) fdm w3 with
             | (false, w4) => (Exited 1, w4)
             | (true, w4) =>
                 if checkKeys o && negb (stdout o)
                 then match verifyKeys N H w4 fdm with
                      | Some true => (Returned, w4)
                      | _ => (Exited 1, w4)
                      end
                 else (Returned, w4)
             end).1
            = (match writeEach N H translator o lang sourceLang
                       (globalTranslations t) fdm w2 with
               | (false, w4) => (Exited 1, w4)
               | (true, w4) =>
                   if checkKeys o && negb (stdout o)
                   then match verifyKeys N H w4 fdm with
                        | Some true => (Returned, w4)
                        | _ => (Exited 1, w4)
                        end
                   else (Returned, w4)
               end).1
            ∧ ∃ after,
                events
                  (match writeEach N H translator o lang sourceLang
                           (globalTranslations t) fdm w2 with
                   | (false, w4) => (Exited 1, w4)
                   | (true, w4) =>
                       if checkKeys o && negb (stdout o)
                       then match verifyKeys N H w4 fdm with
                            | Some true => (Returned, w4)
                            | _ => (Exited 1, w4)
                            end
                       else (Returned, w4)
                   end).2
                = events w
                  ++ (det ++ batchEvents H lang sourceLang o (batchesAll t))
                  ++ after
                ∧ events
                    (match writeEach N H translator o lang sourceLang
                             (globalTranslations t) fdm w3 with
                     | (false, w4) => (Exited 1, w4)
                     | (true, w4) =>
                         if checkKeys o && negb (stdout o)
                         then match verifyKeys N H w4 fdm with
                              | Some true => (Returned, w4)
                              | _ => (Exited 1, w4)
                              end
                         else (Returned, w4)
                     end).2
                  = events w
                    ++ (det ++ batchEvents H lang sourceLang o (batchesAll t))
                    ++ sv ++ after).
  { intros w3 sv Hagree Hev3.
    destruct (writeEach_agree (resolvedCacheFile N o) N H translator o lang
                sourceLang (globalTranslations t) fdm w3 w2 Hagree Hout)
      as (Hok & Hagree4 & out & Hev4 & Hev4').
    destruct (writeEach _ _ _ _ _ _ _ fdm w3) as [ok w4],
      (writeEach _ _ _ _ _ _ _ fdm w2) as [ok' w4'].
    cbn [fst snd] in *. subst ok'.
    assert (Hevents : events w4' = events w
                        ++ (det ++ batchEvents H lang sourceLang o
                                     (batchesAll t)) ++ out
                      ∧ events w4 = events w
                          ++ (det ++ batchEvents H lang sourceLang o
                                       (batchesAll t)) ++ sv ++ out).
    { rewrite Hev4, Hev4', Hev3, Hw2. by rewrite <- !app_assoc. }
    destruct ok; [|split; [done|by exists out]].
    destruct (checkKeys o && negb (stdout o)) eqn:Hcheck;
      [|split; [done|by exists out]].
    apply andb_true_iff in Hcheck as [_ Hstd%negb_true_iff].
    destruct Hout as [?|Hout]; [congruence|].
    rewrite (verifyKeys_agree (resolvedCacheFile N o) N H fdm w4 w4' Hagree4)
      by (intros e He; by apply Hout).
    destruct (verifyKeys N H w4' fdm) as [[]|];
      (split; [done|by exists out]). }
  destruct (cacheToSave t) as [cache|].
  - rewrite (saveCache_ok N cache w2 (resolvedCacheFile N o))
      by by rewrite ?Hf2; unfold fs_access in *; rewrite ?Hf2.
    set (w3 := {| files := _; events := _ |}).
    destruct (Hrest w3 [EvWriteFile (resolvedCacheFile N o)
                          (stringifyCache N cache)])
      as (Hsame & after & Hplain & Hrun).
    { intros q Hq. subst w3. cbn [files]. by rewrite lookup_insert_ne. }
    { done. }
    split; [exact Hsame|].
    exists (det ++ batchEvents H lang sourceLang o (batchesAll t)), after.
    by rewrite Hplain, Hrun, <- !app_assoc.
  - destruct (Hrest w2 []) as (Hsame & after & Hplain & Hrun);
      [done|by rewrite app_nil_r|].
    split; [done|].
    exists (det ++ batchEvents H lang sourceLang o (batchesAll t)), after.
    by rewrite Hplain, <- !app_assoc.
Qed.

Lemma multi_run_directory :
  files w !! resolvedCacheFile N o = Some Directory →
  read.1.2 ≠ [] →
  run.1 = Exited 1
  ∧ ∃ before mk,
      events run.2 = events w ++ before ++ mk
      ∧ (∀ e, e ∈ before → isBackendCall e)
      ∧ (mk = [] ∨ mk = [EvMkdir (path_dirname N (resolvedCacheFile N o))]).
Proof.
  intros Hisdir Hstrings.
  destruct multi_state_nothing_loaded as (_ & _ & Hsome).
  specialize (Hsome Hstrings). revert Hsome.
  unfold multiRunState, processMultipleFiles.
  rewrite !decide_False by by destruct (collectFiles N w inputPatterns).
  destruct read as [[fdm gsm] total]. cbn [fst snd] in *.
  pose proof (detectLanguageStep_world translator o (map fst gsm)
                (take 10 (map fst gsm)) w) as [Hfiles _].
  destruct (detect_events translator o (map fst gsm) (take 10 (map fst gsm)) w)
    as (det & Hdet & Hdetb).
  destruct (detectLanguageStep translator o _ _ w) as [sourceLang w1].
  rewrite Hdry. cbn [fst snd] in *.
  set (t := translateMultiple _ _ _ _ _ _ _).
  intros [cache Hsave]. rewrite Hsave.
  set (w2 := emitAll _ w1).
  destruct (saveCache_events N cache w2 (resolvedCacheFile N o))
    as (mk & Hmk & Hev).
  pose proof (saveCache_directory N cache w2 (resolvedCacheFile N o)) as Hfail.
  destruct (saveCache N cache w2 (resolvedCacheFile N o)) as [saved w3].
  cbn [fst snd] in Hfail, Hev.
  rewrite Hfail in * by (subst w2; cbn [emitAll files]; by rewrite Hfiles).
  split; [done|].
  exists (det ++ batchEvents H lang sourceLang o (batchesAll t)), mk.
  cbn [snd]. rewrite Hev, app_nil_r. subst w2. cbn [emitAll events].
  rewrite Hdet. split; [by rewrite <- !app_assoc|]. split; [|done].
  intros e [?|?]%elem_of_app; [by apply Hdetb|by eapply batchEvents_backend].
Qed.

End MultiFile.




End CacheLoad.
(** ** Reuse of the cache across the documents of a run *)

Module CrossDocument.
Import JsString Json Reconstruct Batch Provider Store Pipeline JsColl.
Import JsCollFacts BatchFacts StoreFacts PipelineFacts MultiFileFacts.
Import BackendProperties Demo.

Lemma mergeGlobal_concat H results :
  ∀ table,
    mergeGlobal H table results
    = foldl (mergeGlobalOne H) table (concat results).
Proof.
  unfold mergeGlobal.
  induction results as [|batchMap results IH]; intros table; [done|].
  cbn [foldl concat]. by rewrite foldl_app, IH.
Qed.

Lemma mergeGlobalOne_other H entries h :
  ∀ table,
    (∀ entry, entry ∈ entries → hashString H entry.1 ≠ h) →
    foldl (mergeGlobalOne H) table entries !! h = table !! h.
Proof.
  induction entries as [|entry entries IH]; intros table Hfresh; [done|].
  cbn [foldl]. rewrite IH.
  - unfold mergeGlobalOne. rewrite lookup_insert_ne; [done|].
    apply Hfresh, list_elem_of_here.
  - intros e He. apply Hfresh. by apply list_elem_of_further.
Qed.

(** The table ends with the translation of a string that was answered
    once and whose fingerprint no other answered string has. *)
Lemma mergeGlobalOne_unique H entries str translated :
  ∀ table,
    NoDup (map fst entries) →
    (str, translated) ∈ entries →
    (∀ entry, entry ∈ entries →
       hashString H entry.1 = hashString H str → entry.1 = str) →
    foldl (mergeGlobalOne H) table entries !! hashString H str
    = Some translated.
Proof.
  induction entries as [|entry entries IH]; intros table Hnd Hin Hunique;
    [by apply elem_of_nil in Hin|].
  cbn [foldl map] in *. apply NoDup_cons in Hnd as [Hfirst Hnd].
  apply elem_of_cons in Hin as [<-|Hin].
  - rewrite mergeGlobalOne_other.
    + unfold mergeGlobalOne. cbn [fst snd]. apply lookup_insert_eq.
    + intros e He Heq. apply Hfirst. cbn [fst].
      rewrite <- (Hunique e); [|by apply list_elem_of_further|done].
      apply list_elem_of_fmap. by exists e.
  - apply IH; [done|done|].
    intros e He. apply Hunique. by apply list_elem_of_further.
Qed.

(** The answers of the batches are for strings of the batches, one
    answer per string at most. *)
Lemma answers_keys (answer : nat → list string → list (string * string)) :
  (∀ i batch, NoDup (map fst (answer i batch))
              ∧ ∀ k, k ∈ map fst (answer i batch) → k ∈ batch) →
  ∀ bs, NoDup (concat bs) →
    NoDup (map fst (concat (imap answer bs)))
    ∧ ∀ k, k ∈ map fst (concat (imap answer bs)) → k ∈ concat bs.
Proof.
  intros Hanswer bs. revert answer Hanswer.
  induction bs as [|batch bs IH]; intros answer Hanswer Hnd.
  - split; [apply NoDup_nil_2|done].
  - cbn [imap concat] in *. rewrite map_app.
    apply NoDup_app in Hnd as (Hbatch & Hdisjoint & Hrest).
    destruct (Hanswer 0 batch) as [Hnd0 Hin0].
    destruct (IH (answer ∘ S)) as [Hnd1 Hin1]; [by intros; apply Hanswer|done|].
    split.
    + apply NoDup_app. split; [done|]. split; [|done].
      intros k Hk0 Hk1. apply (Hdisjoint k); [by apply Hin0|by apply Hin1].
    + intros k [Hk|Hk]%elem_of_app; apply elem_of_app;
        [left; by apply Hin0|right; by apply Hin1].
Qed.

Lemma runBatches_answers H translator lang sourceLang o bs :
  NoDup (concat bs) →
  NoDup (map fst (concat (runBatches H translator lang sourceLang o bs)))
  ∧ ∀ k, k ∈ map fst (concat (runBatches H translator lang sourceLang o bs)) →
         k ∈ concat bs.
Proof.
  unfold runBatches. apply answers_keys. intros i batch.
  apply translateBatch_keys.
Qed.

(** C8.  In a multi-file run with the cache enabled, take a string leaf
    [str] of a document [file] of the run.
    - If the loaded cache has a truthy entry for the fingerprint of [str]
      under [file], then [str] is not to be translated and is in no batch,
      for whichever document contains it, and the translation table holds
      for its fingerprint a value cached under a document of the run.
    - If the backend answers the batch that holds [str] with a translation
      for it, and no other string sent has the fingerprint of [str], then
      the table has that translation and the cache that is saved has it
      under [file], so under every document that contains [str]; the path
      of a document and a language code are never names that objects
      inherit.
    The batches are the strings to translate, each once, and each batch
    is one translate call of the run. *)
Theorem cross_document_cache_reuse (N : Node) (H : Helpers)
    (inputPatterns : list string) (lang : string)
    (outputPattern : option string) (o : Options)
    (translator : TranslationProvider) (w : World) :
  useCache o = true →
  let uniqueFiles := collectFiles N w inputPatterns in
  let loaded := loadCache N w (resolvedCacheFile N o) in
  let globalStringMap :=
    (readAll N o lang outputPattern w uniqueFiles).1.2 in
  let sourceLang :=
    multiRunSourceLang N inputPatterns lang outputPattern o translator w in
  let t := multiRunState N H inputPatterns lang outputPattern o translator w in
  (∀ file doc str,
     file ∈ uniqueFiles →
     fs_readFile w file ≫= JSON_parse N = Some doc →
     str ∈ map snd (flattenObjectWithPaths doc) →
     (is_Some (cacheHit (cacheLookup loaded file lang (hashString H str))) →
      (str ∉ stringsToTranslate t)
      ∧ (∀ batch, batch ∈ batchesAll t → str ∉ batch)
      ∧ (∃ cached from,
           (checkCache H loaded lang globalStringMap).1 !! hashString H str
           = Some cached
           ∧ cacheHit (cacheLookup loaded from lang (hashString H str))
             = Some cached)
      ∧ is_Some (globalTranslations t !! hashString H str))
     ∧ (∀ batchNo batch translated,
          batchesAll t !! batchNo = Some batch →
          map_get
            (translateBatch H batchNo batch lang translator sourceLang
               (shouldPreserveFormats o) (context o)) str
          = Some translated →
          (∀ other, other ∈ stringsToTranslate t →
                    hashString H other = hashString H str → other = str) →
          inherited file = false → inherited lang = false →
          globalTranslations t !! hashString H str = Some translated
          ∧ ∃ saved,
              cacheToSave t = Some saved
              ∧ cacheLookup saved file lang (hashString H str)
                = Some translated))
  ∧ NoDup (concat (batchesAll t))
  ∧ concat (batchesAll t) = stringsToTranslate t
  ∧ (uniqueFiles ≠ [] → dryRun o = false →
     requestsOf
       (processMultipleFiles N H inputPatterns lang outputPattern o translator
          w).2
     = requestsOf w ++ batchEvents H lang sourceLang o (batchesAll t)).
Proof.
  intros Hcache uniqueFiles loaded gsm sourceLang t.
  destruct (cross_document_hits N H inputPatterns lang outputPattern o
              translator w Hcache) as (Ht & Hhits & Hnd & Hconcat & Hreq).
  fold uniqueFiles loaded gsm sourceLang t in Ht, Hhits, Hnd, Hconcat, Hreq.
  split; [|by repeat split].
  intros file doc str Hfile Hdoc Hstr.
  split; [by apply (Hhits file doc str)|].
  intros batchNo batch translated Hbatch Hanswer Hunique Hown Hlang.
  destruct (readAll_occurs N o lang outputPattern w uniqueFiles file doc str
              Hfile Hdoc Hstr) as (fs & Hget & Hin).
  fold gsm in Hget. apply map_get_Some_elem in Hget.
  apply map_get_Some_elem in Hanswer.
  assert (Hbs : NoDup (concat (batchesAll t))) by done.
  revert Hbatch Hunique Hbs Hconcat. rewrite Ht. unfold translateMultiple.
  rewrite Hcache.
  destruct (checkCache H loaded lang gsm) as [cached todo].
  cbn [stringsToTranslate batchesAll globalTranslations cacheToSave andb].
  intros Hbatch Hunique Hbs Hconcat.
  set (results := runBatches H translator lang sourceLang o
                    (multiFileBatches todo)).
  destruct (runBatches_answers H translator lang sourceLang o
              (multiFileBatches todo) Hbs) as [Hkeys Hsent].
  fold results in Hkeys, Hsent.
  assert (Hresult : (str, translated) ∈ concat results).
  { apply elem_of_concat.
    exists (translateBatch H batchNo batch lang translator sourceLang
              (shouldPreserveFormats o) (context o)).
    split; [|done]. subst results. unfold runBatches.
    apply list_elem_of_lookup. exists batchNo.
    by rewrite list_lookup_imap, Hbatch. }
  assert (Htable : mergeGlobal H cached results !! hashString H str
                   = Some translated).
  { rewrite mergeGlobal_concat.
    apply mergeGlobalOne_unique; [done|done|].
    intros entry Hentry. apply Hunique. rewrite <- Hconcat. apply Hsent.
    apply list_elem_of_fmap. by exists entry. }
  split; [exact Htable|].
  assert (str ∈ todo) as Htodo.
  { rewrite <- Hconcat. apply Hsent. apply list_elem_of_fmap.
    by exists (str, translated). }
  rewrite bool_decide_eq_true_2
    by (destruct todo; [by apply elem_of_nil in Htodo|cbn; lia]).
  eexists. split; [done|].
  by apply (updateCache_written H lang _ gsm loaded str fs).
Qed.

(** The run of C8: "Save" is in [/i18n/a.json] and in [/i18n/b.json], and
    the cache has it under [/i18n/b.json] only: it is not requested.
    "Open" is new: it is requested, and its translation is in the cache
    that is saved. *)
Lemma cross_document_cache_reuse_witness :
  let t :=
    multiRunState demoNode demoHelpers ["/i18n/*.json"] "es"
      (Some "/out/{name}.{lang}.json") (demoOptions true) goodBackend
      (demoWorld (Some "<cache stale>")) in
  cacheLookup cacheStale "/i18n/a.json" "es" (demoHash "Save") = None
  ∧ ("Save" ∉ stringsToTranslate t)
  ∧ NoDup (concat (batchesAll t))
  ∧ ∃ saved,
      cacheToSave t = Some saved
      ∧ cacheLookup saved "/i18n/b.json" "es" (demoHash "Open") = Some "Abrir".
Proof.
  destruct (cross_document_cache_reuse demoNode demoHelpers ["/i18n/*.json"]
              "es" (Some "/out/{name}.{lang}.json") (demoOptions true)
              goodBackend (demoWorld (Some "<cache stale>")))
    as (Hstr & Hnd & _).
  - reflexivity.
  - split; [vm_compute; reflexivity|]. split; [|split; [exact Hnd|]].
    + destruct (Hstr "/i18n/b.json" docB "Save") as [Hhit _].
      * vm_compute. apply list_elem_of_further, list_elem_of_here.
      * vm_compute. reflexivity.
      * vm_compute. apply list_elem_of_here.
      * destruct Hhit as (Hnot & _); [|exact Hnot].
        vm_compute. by eexists.
    + destruct (Hstr "/i18n/b.json" docB "Open") as [_ Hnew].
      * vm_compute. apply list_elem_of_further, list_elem_of_here.
      * vm_compute. reflexivity.
      * vm_compute. apply list_elem_of_further, list_elem_of_here.
      * destruct (Hnew 0 ["Open"] "Abrir") as [_ Hsaved].
        -- vm_compute. reflexivity.
        -- vm_compute. reflexivity.
        -- intros other Hother _. vm_compute in Hother.
           by apply list_elem_of_singleton in Hother.
        -- vm_compute. reflexivity.
        -- vm_compute. reflexivity.
        -- exact Hsaved.
Defined.

End CrossDocument.
